(** * SOUL core: packed values, AST resolution state and sanity-check passes

    A shallow embedding of three parts of the SOUL compiler front end:

    - [types/soul_Value.cpp]: the packed value box ([Value], [Value::PackedData])
      and the default [ValuePrinter];
    - [compiler/soul_AST.h]: the expression nodes with their resolution state and
      the graph cycle detector ([AST::Graph::CycleDetector]);
    - [compiler/soul_SanityCheckPass.h]: the structural checks run before and
      after name resolution.

    Conventions.  A C++ integer of w bits is a [Z] whose wrap-around is written
    with [to_int32] / [to_int64]; a packed buffer is a [list byte], read and
    written little-endian; a [throwError] is the [Error] branch of [Result], which
    ends the pass at the first diagnostic.  Pool references are modelled by the
    referenced node itself where the code only reads it, and by an index into
    the owning vector where the code compares addresses. *)

From Stdlib Require Import ZArith List Bool String Ascii Lia DecimalString DecimalPos
  DecimalZ Relations FinFun.
From Stdlib.Strings Require Import Byte.
Import ListNotations.
Local Open Scope Z_scope.
Set Warnings "-register-all".

(* ================================================================== *)
(** * Machine integers and packed bytes *)

(** Two's-complement reading of an integer on [bits] bits: the value a C++
    [static_cast] to the signed type of that width produces. *)
Definition wrapSigned (bits z : Z) : Z :=
  (z + 2 ^ (bits - 1)) mod 2 ^ bits - 2 ^ (bits - 1).

Definition to_int32 (z : Z) : Z := wrapSigned 32 z.
Definition to_int64 (z : Z) : Z := wrapSigned 64 z.
Definition to_uint8 (z : Z) : Z := z mod 256.
Definition to_uint32 (z : Z) : Z := z mod 2 ^ 32.
Definition to_uint64 (z : Z) : Z := z mod 2 ^ 64.

Definition INT32_MAX : Z := 2 ^ 31 - 1.
Definition INT64_MIN : Z := - 2 ^ 63.
Definition INT64_MAX : Z := 2 ^ 63 - 1.

Definition isInt64 (z : Z) : Prop := INT64_MIN <= z <= INT64_MAX.

Definition byteValue (b : byte) : Z := Z.of_N (Byte.to_N b).

Definition byteOfZ (z : Z) : byte :=
  match Byte.of_N (Z.to_N (z mod 256)) with
  | Some b => b
  | None => x00
  end.

(** [readUnaligned]: the unsigned little-endian number held by a run of bytes. *)
Fixpoint readUnaligned (bytes : list byte) : Z :=
  match bytes with
  | [] => 0
  | b :: rest => byteValue b + 256 * readUnaligned rest
  end.

(** [writeUnaligned]: the [n] low bytes of [z], little-endian. *)
Fixpoint writeUnaligned (n : nat) (z : Z) : list byte :=
  match n with
  | O => []
  | S n' => byteOfZ z :: writeUnaligned n' (z / 256)
  end.

Fixpoint bytes_eqb (a b : list byte) : bool :=
  match a, b with
  | [], [] => true
  | x :: a', y :: b' => Byte.eqb x y && bytes_eqb a' b'
  | _, _ => false
  end.

(** [std::to_string] on an integer. *)
Definition to_string (z : Z) : string := NilZero.string_of_int (Z.to_int z).

(* ================================================================== *)
(** * The type model *)

Module TypeModel.

(** Modelled from the spec: [types/soul_PrimitiveType.h] and [types/soul_Type.h]
    are not among the sources.  Section 3 of the specification gives the tag
    set: primitive (one of bool, int32, int64, float32, float64, void), bounded
    integer (with a limit and a wrap or clamp policy), string-literal handle,
    vector of primitive with a lane count, array (element type with a fixed
    size or the unsized marker) and struct (a named record with ordered
    members); a default-constructed type is invalid.  A type carries the two
    modifier flags const and reference. *)
Inductive PrimitiveType : Set :=
| void_ | float32 | float64 | int32 | int64 | bool_.

Inductive BoundedIntPolicy : Set := wrap | clamp.

Inductive Category : Set :=
| invalid
| primitive (p : PrimitiveType)
| boundedInt (policy : BoundedIntPolicy) (limit : Z)
| stringLiteral
| vector (p : PrimitiveType) (numElements : nat)
| array (elementType : Category) (size : option nat)
| structure (name : string) (members : list Category).

Record Type_ : Set := mkType {
  category : Category;
  isConst : bool;
  isReference : bool
}.

Definition plain (c : Category) : Type_ := mkType c false false.

Definition PrimitiveType_eqb (a b : PrimitiveType) : bool :=
  match a, b with
  | void_, void_ | float32, float32 | float64, float64
  | int32, int32 | int64, int64 | bool_, bool_ => true
  | _, _ => false
  end.

Definition BoundedIntPolicy_eqb (a b : BoundedIntPolicy) : bool :=
  match a, b with
  | wrap, wrap | clamp, clamp => true
  | _, _ => false
  end.

Definition optionNat_eqb (a b : option nat) : bool :=
  match a, b with
  | None, None => true
  | Some x, Some y => Nat.eqb x y
  | _, _ => false
  end.

Fixpoint Category_eqb (a b : Category) {struct a} : bool :=
  match a, b with
  | invalid, invalid => true
  | primitive p, primitive q => PrimitiveType_eqb p q
  | boundedInt pa la, boundedInt pb lb => BoundedIntPolicy_eqb pa pb && Z.eqb la lb
  | stringLiteral, stringLiteral => true
  | vector p n, vector q m => PrimitiveType_eqb p q && Nat.eqb n m
  | array ea sa, array eb sb => Category_eqb ea eb && optionNat_eqb sa sb
  | structure na ma, structure nb mb =>
      String.eqb na nb &&
      (fix members_eqb (xs ys : list Category) {struct xs} : bool :=
         match xs, ys with
         | [], [] => true
         | x :: xs', y :: ys' => Category_eqb x y && members_eqb xs' ys'
         | _, _ => false
         end) ma mb
  | _, _ => false
  end.

(** [Type::isIdentical]: the same description, modifiers included. *)
Definition isIdentical (a b : Type_) : bool :=
  Category_eqb (category a) (category b)
  && Bool.eqb (isConst a) (isConst b)
  && Bool.eqb (isReference a) (isReference b).

Definition isValid (t : Type_) : bool :=
  match category t with invalid => false | _ => true end.

Definition isPrimitive (t : Type_) : bool :=
  match category t with primitive _ => true | _ => false end.

Definition isVoid (t : Type_) : bool :=
  match category t with primitive void_ => true | _ => false end.

Definition isBool (t : Type_) : bool :=
  match category t with
  | primitive bool_ | vector bool_ _ => true
  | _ => false
  end.

(** The storage tests answer for the scalar a value is stored as: a vector
    answers for its lanes, and a bounded integer is an [int32]
    ([PackedData::getAsInt64] accepts bounded integers and reads them through
    [isInteger32]). *)
Definition isInteger32 (t : Type_) : bool :=
  match category t with
  | primitive int32 | vector int32 _ | boundedInt _ _ => true
  | _ => false
  end.

Definition isInteger64 (t : Type_) : bool :=
  match category t with
  | primitive int64 | vector int64 _ => true
  | _ => false
  end.

Definition isFloat32 (t : Type_) : bool :=
  match category t with
  | primitive float32 | vector float32 _ => true
  | _ => false
  end.

Definition isFloat64 (t : Type_) : bool :=
  match category t with
  | primitive float64 | vector float64 _ => true
  | _ => false
  end.

Definition isInteger (t : Type_) : bool := isInteger32 t || isInteger64 t.
Definition isFloatingPoint (t : Type_) : bool := isFloat32 t || isFloat64 t.

Definition isBoundedInt (t : Type_) : bool :=
  match category t with boundedInt _ _ => true | _ => false end.

Definition isWrapped (t : Type_) : bool :=
  match category t with boundedInt wrap _ => true | _ => false end.

Definition isClamped (t : Type_) : bool :=
  match category t with boundedInt clamp _ => true | _ => false end.

Definition getBoundedIntLimit (t : Type_) : Z :=
  match category t with boundedInt _ limit => limit | _ => 0 end.

Definition isStringLiteral (t : Type_) : bool :=
  match category t with stringLiteral => true | _ => false end.

Definition isVector (t : Type_) : bool :=
  match category t with vector _ _ => true | _ => false end.

Definition isVectorOfSize1 (t : Type_) : bool :=
  match category t with vector _ 1 => true | _ => false end.

Definition isArray (t : Type_) : bool :=
  match category t with array _ _ => true | _ => false end.

Definition isUnsizedArray (t : Type_) : bool :=
  match category t with array _ None => true | _ => false end.

Definition isArrayOrVector (t : Type_) : bool := isArray t || isVector t.

Definition isStruct (t : Type_) : bool :=
  match category t with structure _ _ => true | _ => false end.

Definition getElementType (t : Type_) : Type_ :=
  match category t with
  | array e _ => plain e
  | vector p _ => plain (primitive p)
  | _ => plain invalid
  end.

Definition getArrayOrVectorSize (t : Type_) : nat :=
  match category t with
  | array _ (Some n) => n
  | vector _ n => n
  | _ => O
  end.

Definition getStructMembers (t : Type_) : list Category :=
  match category t with structure _ ms => ms | _ => [] end.

Definition removeConstIfPresent (t : Type_) : Type_ :=
  mkType (category t) false (isReference t).

Definition PrimitiveType_size (p : PrimitiveType) : nat :=
  match p with
  | void_ => 0
  | bool_ => 1
  | int32 | float32 => 4
  | int64 | float64 => 8
  end%nat.

(** Size of a [StringDictionary::Handle], of a [Type::BoundedIntSize] and of the
    pointer-sized [ConstantTable::Handle] that an unsized array stores
    ([PackedData::print] reads the same bytes as a [void*]). *)
Definition sizeof_StringHandle : nat := 4.
Definition sizeof_BoundedIntSize : nat := 4.
Definition sizeof_pointer : nat := 8.

(** Modelled from the spec: the layout rules of section 3.  Primitives occupy
    their natural width, [bool] one byte; vectors and arrays are contiguous
    elements in index order; structs are their members in declaration order,
    each at its own packed size, with no padding. *)
Fixpoint packedSize (c : Category) : nat :=
  match c with
  | invalid => 0
  | primitive p => PrimitiveType_size p
  | boundedInt _ _ => sizeof_BoundedIntSize
  | stringLiteral => sizeof_StringHandle
  | vector p n => n * PrimitiveType_size p
  | array _ None => sizeof_pointer
  | array e (Some n) => n * packedSize e
  | structure _ ms =>
      (fix sum (xs : list Category) : nat :=
         match xs with
         | [] => 0
         | x :: xs' => packedSize x + sum xs'
         end) ms
  end%nat.

Definition getPackedSizeInBytes (t : Type_) : nat := packedSize (category t).

End TypeModel.
Import TypeModel.

(* ================================================================== *)
(** * Internal assertions

    A failed [SOUL_ASSERT] aborts the compilation with an internal error.  The
    functions that can reach one return an [option]; [None] is the abort. *)

Definition SOUL_ASSERT (condition : bool) : option unit :=
  if condition then Some tt else None.

Notation "'do' x <- a ; b" :=
  (match a with Some x => b | None => None end)
  (at level 10, x name, a at level 100, b at level 200, only parsing).

(* ================================================================== *)
(** * IEEE-754 values by their bit patterns

    A [float] or [double] held in a packed buffer is modelled by the unsigned
    number its bytes spell.  The tests the printer makes on it ([value == 0],
    [std::isnan], [std::isinf], the sign of an infinity) are read off the
    exponent and mantissa fields. *)

Module IEEE.

Definition exponent32 (bits : Z) : Z := Z.land (Z.shiftr bits 23) 255.
Definition mantissa32 (bits : Z) : Z := Z.land bits (2 ^ 23 - 1).
Definition signbit32 (bits : Z) : bool := Z.testbit bits 31.

Definition isZero32 (bits : Z) : bool := (exponent32 bits =? 0) && (mantissa32 bits =? 0).
Definition isnan32 (bits : Z) : bool := (exponent32 bits =? 255) && negb (mantissa32 bits =? 0).
Definition isinf32 (bits : Z) : bool := (exponent32 bits =? 255) && (mantissa32 bits =? 0).

Definition exponent64 (bits : Z) : Z := Z.land (Z.shiftr bits 52) 2047.
Definition mantissa64 (bits : Z) : Z := Z.land bits (2 ^ 52 - 1).
Definition signbit64 (bits : Z) : bool := Z.testbit bits 63.

Definition isZero64 (bits : Z) : bool := (exponent64 bits =? 0) && (mantissa64 bits =? 0).
Definition isnan64 (bits : Z) : bool := (exponent64 bits =? 2047) && negb (mantissa64 bits =? 0).
Definition isinf64 (bits : Z) : bool := (exponent64 bits =? 2047) && (mantissa64 bits =? 0).

(** Bit patterns used in examples: 0.0f, -0.0f, 1.0f, +inf, -inf and a quiet NaN. *)
Definition zero32 : Z := 0.
Definition negzero32 : Z := 2 ^ 31.
Definition one32 : Z := 1065353216.
Definition inf32 : Z := 2139095040.
Definition ninf32 : Z := 4286578688.
Definition nan32 : Z := 2143289344.

(** 0.0 and 1.0 as doubles. *)
Definition zero64 : Z := 0.
Definition one64 : Z := 4607182418800017408.

End IEEE.

(** The string helpers of [utilities/soul_StringUtilities.h] that are declared
    in the sources and defined elsewhere: the printer calls them on finite,
    non-zero floating-point values and on handles. *)
Class StringUtilities : Type := {
  floatToAccurateString : Z -> string;
  doubleToAccurateString : Z -> string;
  toHexString : Z -> string
}.

(** The conversions between floating-point and integer values that the C++
    casts in [PackedData] perform, on bit patterns. *)
Class FloatConversions : Type := {
  floatToDouble : Z -> Z;
  doubleToFloat : Z -> Z;
  int64ToDouble : Z -> Z;
  doubleToInt64 : Z -> Z;
  doubleToInt32 : Z -> Z
}.

Definition doubleQuote : string := String (ascii_of_nat 34) EmptyString.

(** Modelled from the spec: [addDoubleQuotes] is declared in the sources only;
    the printer renders a string literal as the decoded string in double
    quotes. *)
Definition addDoubleQuotes (s : string) : string :=
  (doubleQuote ++ s ++ doubleQuote)%string.

(** [StringDictionary::getStringForHandle], for a dictionary that is present. *)
Definition StringDictionary : Type := Z -> string.

(* ================================================================== *)
(** * Reading a packed buffer as its elements

    The runs of bytes that [ArrayIterator] and [StructIterator] walk over,
    as lists; the statements about the printer are written with them. *)

Fixpoint elementRuns (elementSize n : nat) (bytes : list byte) : list (list byte) :=
  match n with
  | O => []
  | S n' => firstn elementSize bytes :: elementRuns elementSize n' (skipn elementSize bytes)
  end.

Fixpoint memberRuns (members : list Category) (bytes : list byte)
  : list (Category * list byte) :=
  match members with
  | [] => []
  | m :: members' =>
      (m, firstn (packedSize m) bytes) :: memberRuns members' (skipn (packedSize m) bytes)
  end.

Definition allZero (bytes : list byte) : bool :=
  forallb (fun b => Byte.eqb b x00) bytes.

(* ================================================================== *)
(** * [ValuePrinter]: the printer protocol *)

(** The virtual hooks of [ValuePrinter].  Every default hook ends in one call
    of [print (const std::string&)], which [Value::getDescription]'s printer
    appends to its stream: a hook is modelled by the text it emits. *)
Record ValuePrinter : Type := mkPrinter {
  printZeroInitialiser : Type_ -> string;
  printBool : bool -> string;
  printInt32 : Z -> string;
  printInt64 : Z -> string;
  printFloat32 : Z -> string;
  printFloat64 : Z -> string;
  beginStructMembers : Type_ -> string;
  printStructMemberSeparator : string;
  endStructMembers : string;
  beginArrayMembers : Type_ -> string;
  printArrayMemberSeparator : string;
  endArrayMembers : string;
  beginVectorMembers : Type_ -> string;
  printVectorMemberSeparator : string;
  endVectorMembers : string;
  printStringLiteral : Z -> string;
  printUnsizedArrayContent : Type_ -> Z -> string
}.

Module DefaultPrinter.
Section WithStringUtilities.
Context {SU : StringUtilities}.

Definition basePrintFloat32 (value : Z) : string :=
  if IEEE.isZero32 value then "0"
  else if IEEE.isnan32 value then "_nan32"
  else if IEEE.isinf32 value
       then (if negb (IEEE.signbit32 value) then "_inf32" else "_ninf32")
  else (floatToAccurateString value ++ "f")%string.

Definition basePrintFloat64 (value : Z) : string :=
  if IEEE.isZero64 value then "0"
  else if IEEE.isnan64 value then "_nan64"
  else if IEEE.isinf64 value
       then (if negb (IEEE.signbit64 value) then "_inf64" else "_ninf64")
  else doubleToAccurateString value.

Definition basePrintStringLiteral (dictionary : option StringDictionary) (h : Z) : string :=
  match dictionary with
  | Some d => addDoubleQuotes (d h)
  | None => to_string h
  end.

Definition basePrintUnsizedArrayContent (pointer : Z) : string :=
  if pointer =? 0 then "{}"
  else ("0x" ++ toHexString pointer)%string.

(** The base-class hooks, with the [dictionary] member set as
    [Value::getDescription] sets it. *)
Definition make (dictionary : option StringDictionary) : ValuePrinter := {|
  printZeroInitialiser := fun _ => "{}"%string;
  printBool := fun b => if b then "true"%string else "false"%string;
  printInt32 := fun v => to_string v;
  printInt64 := fun v => (to_string v ++ "L")%string;
  printFloat32 := basePrintFloat32;
  printFloat64 := basePrintFloat64;
  beginStructMembers := fun _ => "{ "%string;
  printStructMemberSeparator := ", "%string;
  endStructMembers := " }"%string;
  beginArrayMembers := fun _ => "{ "%string;
  printArrayMemberSeparator := ", "%string;
  endArrayMembers := " }"%string;
  beginVectorMembers := fun _ => "{ "%string;
  printVectorMemberSeparator := ", "%string;
  endVectorMembers := " }"%string;
  printStringLiteral := basePrintStringLiteral dictionary;
  printUnsizedArrayContent := fun _ pointer => basePrintUnsizedArrayContent pointer
|}.

End WithStringUtilities.
End DefaultPrinter.

(* ================================================================== *)
(** * [Value::PackedData]: a typed view of a run of bytes *)

Module PackedData.

(** The view: the type and the bytes [data .. data + size). *)
Record t : Type := mk {
  type : Type_;
  data : list byte
}.

Definition size (p : t) : nat := List.length (data p).

(** [getAs<Primitive>]: the bytes of the view read as one number.  The source
    asserts [size == sizeof (Primitive)]. *)
Definition getAs_uint8 (p : t) : Z := readUnaligned (data p).
Definition getAs_int32 (p : t) : Z := to_int32 (readUnaligned (data p)).
Definition getAs_int64 (p : t) : Z := to_int64 (readUnaligned (data p)).
Definition getAs_float (p : t) : Z := readUnaligned (data p).
Definition getAs_double (p : t) : Z := readUnaligned (data p).
Definition getAs_Handle (p : t) : Z := readUnaligned (data p).
Definition getAs_pointer (p : t) : Z := readUnaligned (data p).

Definition isZero (p : t) : bool :=
  if isVoid (type p) then true
  else forallb (fun b => Byte.eqb b x00) (data p).

(** [memcmp (a, b, n) == 0]. *)
Definition memcmp_eq (a b : list byte) (n : nat) : bool :=
  bytes_eqb (firstn n a) (firstn n b).

Definition equals (p other : t) : bool :=
  if negb (isIdentical (type p) (type other)) then false
  else memcmp_eq (data p) (data other) (size p).

(** The block [if (type.isPrimitive()) { ... }] of [print]: the text of the
    [return] that fires, if one does. *)
Definition printPrimitive (p : ValuePrinter) (self : t) : option string :=
  let type := type self in
  if isPrimitive type then
    if isInteger32 type then Some (printInt32 p (getAs_int32 self))
    else if isInteger64 type then Some (printInt64 p (getAs_int64 self))
    else if isBool type then Some (printBool p (negb (getAs_uint8 self =? 0)))
    else if isFloat32 type then Some (printFloat32 p (getAs_float self))
    else if isFloat64 type then Some (printFloat64 p (getAs_double self))
    else None
  else None.

(** [print] on a view whose type is a primitive: what the recursive call on a
    vector lane does. *)
Definition printLane (p : ValuePrinter) (self : t) : string :=
  match printPrimitive p self with
  | Some s => s
  | None => printZeroInitialiser p (type self)
  end.

(** The loop over an [ArrayIterator]: [n] consecutive runs of [elementSize]
    bytes, a separator before every element but the first. *)
Fixpoint printArrayElements (p : ValuePrinter) (printElement : list byte -> string)
         (elementSize n : nat) (rest : list byte) (isFirst : bool) : string :=
  match n with
  | O => ""
  | S n' =>
      ((if isFirst then "" else printArrayMemberSeparator p)
       ++ printElement (firstn elementSize rest)
       ++ printArrayElements p printElement elementSize n'
                             (skipn elementSize rest) false)%string
  end.

(** The loop over a [StructIterator]: one run per member, of the member's
    packed size. *)
Fixpoint printStructMembers (p : ValuePrinter)
         (printMember : Category -> list byte -> string)
         (members : list Category) (rest : list byte) (isFirst : bool) : string :=
  match members with
  | [] => ""
  | m :: members' =>
      ((if isFirst then "" else printStructMemberSeparator p)
       ++ printMember m (firstn (packedSize m) rest)
       ++ printStructMembers p printMember members'
                             (skipn (packedSize m) rest) false)%string
  end.

(** [print].  The recursion of the source is on the type of the view; it is
    written here on the [Category], with the modifier flags beside it. *)
Fixpoint printCategory (p : ValuePrinter) (c : Category) (cst ref : bool)
         (bytes : list byte) {struct c} : string :=
  let type := mkType c cst ref in
  let self := mk type bytes in
  match printPrimitive p self with
  | Some s => s
  | None =>
    if isBoundedInt type then printInt32 p (getAs_int32 self)
    else if isStringLiteral type then printStringLiteral p (getAs_Handle self)
    else if isUnsizedArray type then printUnsizedArrayContent p type (getAs_pointer self)
    else if negb (isZero self) && isArrayOrVector type then
      (beginArrayMembers p type
       ++ match c with
          | array e _ =>
              printArrayElements p (printCategory p e false false) (packedSize e)
                                 (getArrayOrVectorSize type) bytes true
          | vector pt _ =>
              printArrayElements p (fun lane => printLane p (mk (plain (primitive pt)) lane))
                                 (PrimitiveType_size pt)
                                 (getArrayOrVectorSize type) bytes true
          | _ => ""
          end
       ++ endArrayMembers p)%string
    else if negb (isZero self) && isStruct type
            && negb (match getStructMembers type with [] => true | _ => false end) then
      (beginStructMembers p type
       ++ match c with
          | structure _ ms =>
              printStructMembers p (fun m run => printCategory p m false false run)
                                 ms bytes true
          | _ => ""
          end
       ++ endStructMembers p)%string
    else printZeroInitialiser p type
  end.

Definition print (p : ValuePrinter) (self : t) : string :=
  printCategory p (category (type self)) (isConst (type self))
                (isReference (type self)) (data self).

(** [wrapOrClampToLegalValue], on [int64_t]. *)
Definition wrapOrClampToLegalValue (type : Type_) (value : Z) : Z :=
  if isWrapped type then
    let size := to_int64 (getBoundedIntLimit type) in
    let value := to_int64 (Z.rem value size) in
    if value <? 0 then to_int64 (value + size) else value
  else if isClamped type then
    let size := to_int64 (getBoundedIntLimit type) in
    if value <? 0 then 0
    else if value >=? size then to_int64 (size - 1) else value
  else value.

(** [getAs<Primitive>] and [setAs<Primitive>] with their assertion
    [size == sizeof (Primitive)]. *)
Definition getAs (sizeofPrimitive : nat) (p : t) : option Z :=
  do _ <- SOUL_ASSERT (Nat.eqb (size p) sizeofPrimitive);
  Some (readUnaligned (data p)).

Definition setAs (sizeofPrimitive : nat) (p : t) (newValue : Z) : option (list byte) :=
  do _ <- SOUL_ASSERT (Nat.eqb (size p) sizeofPrimitive);
  Some (writeUnaligned sizeofPrimitive newValue).

(** [clear]: [memset (data, 0, size)]. *)
Definition clear (p : t) : list byte := repeat x00 (size p).

Section Conversions.
Context {FC : FloatConversions}.

(** [getAsInt64], with the call of [getAsDouble] in its last case left open:
    [getAsDouble] calls [getAsInt64] back only on an integer type, where that
    case is not reached. *)
Definition getAsInt64_with (getAsDouble : t -> option Z) (p : t) : option Z :=
  do _ <- SOUL_ASSERT (isPrimitive (type p) || isBoundedInt (type p)
                       || isVectorOfSize1 (type p));
  if isInteger32 (type p) then option_map to_int32 (getAs 4 p)
  else if isInteger64 (type p) then option_map to_int64 (getAs 8 p)
  else if isBool (type p) then option_map (fun b => if b =? 0 then 0 else 1) (getAs 1 p)
  else if isFloatingPoint (type p) then option_map doubleToInt64 (getAsDouble p)
  else None.

Definition getAsDouble (p : t) : option Z :=
  do _ <- SOUL_ASSERT (isPrimitive (type p) || isVectorOfSize1 (type p));
  if isFloat32 (type p) then option_map floatToDouble (getAs 4 p)
  else if isFloat64 (type p) then getAs 8 p
  else if isBool (type p)
       then option_map (fun b => if b =? 0 then IEEE.zero64 else IEEE.one64) (getAs 1 p)
  else if isInteger (type p)
       then option_map int64ToDouble (getAsInt64_with (fun _ => None) p)
  else None.

Definition getAsInt64 (p : t) : option Z := getAsInt64_with getAsDouble p.

Definition getAsBool (p : t) : option bool :=
  do _ <- SOUL_ASSERT (isPrimitive (type p) || isBoundedInt (type p)
                       || isVectorOfSize1 (type p));
  if isBool (type p) then option_map (fun b => negb (b =? 0)) (getAs 1 p)
  else if isInteger (type p) then option_map (fun v => negb (v =? 0)) (getAsInt64 p)
  else if isFloatingPoint (type p)
       then option_map (fun d => negb (IEEE.isZero64 d)) (getAsDouble p)
  else None.

(** The block [if (type.isPrimitive()) { ... SOUL_ASSERT_FALSE; }] of
    [setFrom (const PackedData&)]. *)
Definition setPrimitiveFrom (self other : t) : option (list byte) :=
  let type := type self in
  if isInteger32 type then
    do v <- (if isFloatingPoint (PackedData.type other)
             then option_map doubleToInt32 (getAsDouble other)
             else option_map to_int32 (getAsInt64 other));
    setAs 4 self v
  else if isInteger64 type then
    do v <- (if isFloatingPoint (PackedData.type other)
             then option_map doubleToInt64 (getAsDouble other)
             else getAsInt64 other);
    setAs 8 self v
  else if isFloat32 type then
    do d <- getAsDouble other; setAs 4 self (doubleToFloat d)
  else if isFloat64 type then
    do d <- getAsDouble other; setAs 8 self d
  else if isBool type then
    do b <- getAsBool other; setAs 1 self (if b then 1 else 0)
  else None.

(** [setFrom] on a view whose type is a primitive: what the loop over the
    lanes of a vector calls. *)
Definition setLaneFrom (self other : t) : option (list byte) :=
  if isZero other then Some (clear self)
  else setPrimitiveFrom self other.

(** The loop [for (ArrayIterator dst ...; dst.next();) dst.get().setFrom (other)]:
    every element in turn; the bytes past the last element are kept. *)
Fixpoint setElementsBroadcast (setElement : list byte -> option (list byte))
         (elementSize n : nat) (rest : list byte) : option (list byte) :=
  match n with
  | O => Some rest
  | S n' =>
      do e <- setElement (firstn elementSize rest);
      do tail <- setElementsBroadcast setElement elementSize n' (skipn elementSize rest);
      Some (e ++ tail)%list
  end.

(** The loop over two iterators side by side, with
    [SOUL_ASSERT (ok1 == ok2)] at every step. *)
Fixpoint setElementsZipped (setElement : list byte -> t -> option (list byte))
         (elementSize n : nat) (rest : list byte) (sources : list t)
  : option (list byte) :=
  match n, sources with
  | O, [] => Some rest
  | S n', src :: sources' =>
      do e <- setElement (firstn elementSize rest) src;
      do tail <- setElementsZipped setElement elementSize n'
                                   (skipn elementSize rest) sources';
      Some (e ++ tail)%list
  | _, _ => None
  end.

Fixpoint setMembersZipped (setMember : Category -> list byte -> t -> option (list byte))
         (members : list Category) (rest : list byte) (sources : list t)
  : option (list byte) :=
  match members, sources with
  | [], [] => Some rest
  | m :: members', src :: sources' =>
      do e <- setMember m (firstn (packedSize m) rest) src;
      do tail <- setMembersZipped setMember members'
                                  (skipn (packedSize m) rest) sources';
      Some (e ++ tail)%list
  | _, _ => None
  end.

(** The views an [ArrayIterator] over [other] yields. *)
Definition arrayElementsOf (other : t) : list t :=
  let elementType := getElementType (type other) in
  map (mk elementType)
      (elementRuns (getPackedSizeInBytes elementType)
                   (getArrayOrVectorSize (type other)) (data other)).

(** The views a [StructIterator] over [other] yields. *)
Definition structMembersOf (other : t) : list t :=
  map (fun mr => mk (plain (fst mr)) (snd mr))
      (memberRuns (getStructMembers (type other)) (data other)).

(** [setFrom (const PackedData&)]: the new content of the destination's bytes.
    As for [print], the recursion is on the destination's [Category]. *)
Fixpoint setFromCategory (c : Category) (cst ref : bool) (bytes : list byte)
         (other : t) {struct c} : option (list byte) :=
  let type := mkType c cst ref in
  let self := mk type bytes in
  if isZero other then Some (clear self)
  else if isPrimitive type then setPrimitiveFrom self other
  else if isBoundedInt type then
    do v <- getAsInt64 other;
    setAs sizeof_BoundedIntSize self (to_int32 (wrapOrClampToLegalValue type v))
  else if isUnsizedArray type then
    do h <- getAs sizeof_pointer other; setAs sizeof_pointer self h
  else if isStringLiteral type then
    do h <- getAs sizeof_StringHandle other; setAs sizeof_StringHandle self h
  else if isArrayOrVector type then
    match c with
    | array e _ =>
        if isPrimitive (PackedData.type other) || isVectorOfSize1 (PackedData.type other)
        then setElementsBroadcast (fun run => setFromCategory e false false run other)
                                  (packedSize e) (getArrayOrVectorSize type) bytes
        else setElementsZipped (fun run src => setFromCategory e false false run src)
                               (packedSize e) (getArrayOrVectorSize type) bytes
                               (arrayElementsOf other)
    | vector pt _ =>
        if isPrimitive (PackedData.type other) || isVectorOfSize1 (PackedData.type other)
        then setElementsBroadcast
               (fun run => setLaneFrom (mk (plain (primitive pt)) run) other)
               (PrimitiveType_size pt) (getArrayOrVectorSize type) bytes
        else setElementsZipped
               (fun run src => setLaneFrom (mk (plain (primitive pt)) run) src)
               (PrimitiveType_size pt) (getArrayOrVectorSize type) bytes
               (arrayElementsOf other)
    | _ => Some bytes
    end
  else if isStruct type then
    match c with
    | structure _ ms =>
        do _ <- SOUL_ASSERT (isStruct (PackedData.type other));
        setMembersZipped (fun m run src => setFromCategory m false false run src)
                         ms bytes (structMembersOf other)
    | _ => Some bytes
    end
  else Some bytes.

Definition setFrom (self other : t) : option (list byte) :=
  setFromCategory (category (type self)) (isConst (type self))
                  (isReference (type self)) (data self) other.

End Conversions.

End PackedData.

(* ================================================================== *)
(** * [TypeRules]: the castability oracle *)

(** [types/soul_TypeRules.h] is not among the sources: the two predicates the
    value box and the passes call are the methods of a class, first argument
    the destination and second the source. *)
Class TypeRules : Type := {
  canCastTo : Type_ -> Type_ -> bool;
  canSilentlyCastTo : Type_ -> Type_ -> bool
}.

Module SpecTypeRules.

Definition isNumeric (t : Type_) : bool :=
  match category t with
  | primitive (float32 | float64 | int32 | int64) => true
  | _ => false
  end.

Definition isWidening (dest source : Type_) : bool :=
  match category dest, category source with
  | primitive int64, primitive int32
  | primitive float64, primitive int32
  | primitive float64, primitive float32 => true
  | _, _ => false
  end.

Definition isVectorOfSize1AndScalar (a b : Type_) : bool :=
  match category a, category b with
  | vector p 1, primitive q | primitive q, vector p 1 => PrimitiveType_eqb p q
  | _, _ => false
  end.

Definition isBroaderBoundedInt (dest source : Type_) : bool :=
  match category dest, category source with
  | boundedInt _ n, boundedInt _ m => m <=? n
  | _, _ => false
  end.

Definition isFixedToUnsizedArray (dest source : Type_) : bool :=
  match category dest, category source with
  | array e None, array e' (Some _) => Category_eqb e e'
  | _, _ => false
  end.

(** Modelled from the spec: an oracle with the casts section 4.1 lists.  A
    silent cast is one between types that differ at most in their modifiers
    (adding const), a widening of a number, or between a scalar and the vector
    of size 1 of its type, or to a bounded integer of a broader range;
    [canCastTo] is the more permissive form, which also allows the narrowing
    conversions between numbers and into a bounded integer and, as the open
    questions of section 9 record, casts to an unsized array that
    [tryCastToType] rejects: here, from the fixed-size array of the same
    element type. *)
Definition silently (dest source : Type_) : bool :=
  isValid dest && isValid source
  && (Category_eqb (category dest) (category source)
      || isWidening dest source
      || isVectorOfSize1AndScalar dest source
      || isBroaderBoundedInt dest source).

Definition explicitly (dest source : Type_) : bool :=
  silently dest source
  || (isNumeric dest && isNumeric source)
  || (isBoundedInt dest && isInteger source)
  || isFixedToUnsizedArray dest source.

Definition oracle : TypeRules := {|
  canCastTo := explicitly;
  canSilentlyCastTo := silently
|}.

End SpecTypeRules.

(* ================================================================== *)
(** * [Value]: a type and the buffer it owns *)

Module Value.

Record t : Type := mk {
  type : Type_;
  allocatedData : list byte
}.

(** [Value()]: no type, no bytes. *)
Definition invalidValue : t := mk (plain invalid) [].

(** [Value (Type)]: [allocatedData.resize (type.getPackedSizeInBytes())]. *)
Definition ofType (ty : Type_) : t :=
  mk ty (repeat x00 (getPackedSizeInBytes ty)).

(** [Value (Type, sourceData)]: the buffer is a copy of the type's packed
    size in bytes. *)
Definition ofTypeAndData (ty : Type_) (sourceData : list byte) : t :=
  mk ty (firstn (getPackedSizeInBytes ty) sourceData).

Definition createInt32 (v : Z) : t := mk (plain (primitive int32)) (writeUnaligned 4 v).
Definition createInt64 (v : Z) : t := mk (plain (primitive int64)) (writeUnaligned 8 v).
Definition createFloat32 (bits : Z) : t := mk (plain (primitive float32)) (writeUnaligned 4 bits).
Definition createFloat64 (bits : Z) : t := mk (plain (primitive float64)) (writeUnaligned 8 bits).
Definition createBool (v : bool) : t :=
  mk (plain (primitive bool_)) (writeUnaligned 1 (if v then 1 else 0)).
Definition createStringLiteral (h : Z) : t :=
  mk (plain stringLiteral) (writeUnaligned sizeof_StringHandle h).

Definition isValid (v : t) : bool := TypeModel.isValid (type v).

Definition getData (v : t) : PackedData.t :=
  PackedData.mk (type v) (allocatedData v).

Definition print (p : ValuePrinter) (v : t) : string := PackedData.print p (getData v).

Definition getDescription {SU : StringUtilities}
           (dictionary : option StringDictionary) (v : t) : string :=
  print (DefaultPrinter.make dictionary) v.

(** [getData] with the assertions it makes: [isValid()] in [Value::getData]
    and [type.isValid() && ! type.isVoid()] in the view's constructor. *)
Definition getDataChecked (v : t) : option PackedData.t :=
  do _ <- SOUL_ASSERT (isValid v);
  do _ <- SOUL_ASSERT (TypeModel.isValid (type v) && negb (isVoid (type v)));
  Some (getData v).

(** [operator==].  The right operand of [&&] is evaluated only when the types
    are identical; it takes the view of both values through [getData], whose
    assertions fail on a void type: the comparison then gives no answer. *)
Definition eqb (v other : t) : option bool :=
  if negb (TypeModel.isValid (type v)) then Some (negb (TypeModel.isValid (type other)))
  else if isIdentical (type v) (type other) then
    do d <- getDataChecked v;
    do o <- getDataChecked other;
    Some (PackedData.equals d o)
  else Some false.

Section Casting.
Context {TR : TypeRules} {FC : FloatConversions}.

(** [tryCastToType (const Type&)]. *)
Definition tryCastToType (self : t) (destType : Type_) : option t :=
  if isIdentical destType (type self) then Some self
  else if negb (canCastTo destType (type self)) then Some invalidValue
  else if isUnsizedArray destType
          && negb (isIdentical (removeConstIfPresent destType) (type self))
  then Some invalidValue
  else
    let v := ofType destType in
    do dst <- getDataChecked v;
    do src <- getDataChecked self;
    do bytes <- PackedData.setFrom dst src;
    Some (mk destType bytes).

End Casting.

End Value.

(* ================================================================== *)
(** * Diagnostics *)

(** A source location, as carried by an [AST::Context]. *)
Definition CodeLocation : Type := nat.

Definition Identifier : Type := string.
Definition IdentifierPath : Type := list Identifier.

(** The messages of [diagnostics/soul_Errors.h] that the modelled checks
    raise, with their arguments.  A type stands for its description. *)
Inductive CompileMessage : Type :=
| cannotImplicitlyCastType (source : Type_) (targets : list Type_)
| ambiguousCastBetween (source : Type_) (targets : list Type_)
| processorNeedsAnOutput
| functionMustBeVoid (name : Identifier)
| functionHasParams (name : Identifier)
| processorNeedsRunFunction
| multipleRunFunctions
| typeContainsItself (name : Identifier)
| typesReferToEachOther (name other : Identifier)
| memberCannotBeConst
| preIncDecCollision
| cannotFindProcessor (path : IdentifierPath)
| feedbackInGraph (trace : string)
| internalCompilerError.

(** The outcome of a check: it completes, or [Context::throwError] leaves the
    pass with one message and the location it was raised at. *)
Inductive Result : Type :=
| Ok
| Error (message : CompileMessage) (location : CodeLocation).

Definition isError (r : Result) : bool :=
  match r with Ok => false | Error _ _ => true end.

(** Sequencing of two checks: the second runs when the first completes. *)
Definition andThen (first : Result) (next : Result) : Result :=
  match first with
  | Ok => next
  | Error m l => Error m l
  end.

(* ================================================================== *)
(** * The AST: expressions and their resolution state *)

Module AST.

Inductive ExpressionKind : Set := value | type | endpoint | processor | unknown.

Definition ExpressionKind_eqb (a b : ExpressionKind) : bool :=
  match a, b with
  | value, value | type, type | endpoint, endpoint
  | processor, processor | unknown, unknown => true
  | _, _ => false
  end.

Inductive EndpointKind : Set := valueEndpoint | streamEndpoint | eventEndpoint.

Definition isEvent (k : EndpointKind) : bool :=
  match k with eventEndpoint => true | _ => false end.

(** [TypeMetaFunction::Op]. *)
Inductive MetaOp : Set :=
| none | makeConst | makeConstSilent | makeReference | removeReference
| elementType | primitiveType | size
| isStructOp | isArrayOp | isDynamicArrayOp | isFixedSizeArrayOp | isVectorOp
| isPrimitiveOp | isFloatOp | isFloat32Op | isFloat64Op | isIntOp | isInt32Op
| isInt64Op | isScalarOp | isStringOp | isBoolOp | isReferenceOp | isConstOp.

(** The operators of [heart/soul_Operators.h], which is not among the
    sources; the AST only tells [leftShift], [logicalNot] and [bitwiseNot]
    apart from the others. *)
Inductive BinaryOp : Set :=
| add | subtract | multiply | divide | modulo
| bitwiseOr | bitwiseAnd | bitwiseXor | logicalOr | logicalAnd
| equals | notEquals | lessThan | lessThanOrEqual | greaterThan | greaterThanOrEqual
| leftShift | rightShift | rightShiftUnsigned.

Inductive UnaryOp : Set := negate | logicalNot | bitwiseNot.

(** The expression nodes, each with the fields its resolution state reads.  A
    [pool_ref] is the node it refers to, a [pool_ptr] an [option]; a reference
    to a declaration ([VariableRef::variable], [InputEndpointRef::input],
    [FunctionCall::targetFunction]) holds the fields of the declaration. *)
Inductive Expression : Type :=
| ConcreteType (ty : Type_)
| SubscriptWithBrackets (lhs : Expression) (rhs : option Expression)
| SubscriptWithChevrons (lhs : Expression) (rhs : option Expression)
| TypeMetaFunction (source : Expression) (operation : MetaOp)
| Assignment (target newValue : Expression)
| BinaryOperator (lhs rhs : Expression) (operation : BinaryOp)
| Constant (v : Value.t)
| DotOperator (lhs : Expression) (rhs : IdentifierPath)
| CallOrCast (nameOrType : Expression) (arguments : option (list Expression))
             (isMethodCall : bool)
| FunctionCall (targetFunction_returnType : option Expression)
               (arguments : option (list Expression)) (isMethodCall : bool)
| TypeCast (targetType : Type_) (source : Expression)
| PreOrPostIncOrDec (target : Expression) (isIncrement isPost : bool)
| ArrayElementRef (object startIndex endIndex : option Expression) (isSlice : bool)
| StructMemberRef (object : Expression) (memberName : string)
| StructDeclaration (name : Identifier) (members : list (Expression * Identifier))
| UsingDeclaration (name : Identifier) (targetType : option Expression)
| TernaryOp (condition trueBranch falseBranch : Expression)
| UnaryOperator (source : Expression) (operation : UnaryOp)
| QualifiedIdentifier (path : IdentifierPath)
| VariableRef (variable : VariableDeclaration)
| InputEndpointRef (input : EndpointDeclaration)
| OutputEndpointRef (output : EndpointDeclaration)
| ProcessorRef (processor : IdentifierPath)
| CommaSeparatedList (items : list Expression)
| ProcessorProperty (property : nat)
| WriteToEndpoint (target newValue : Expression)
| AdvanceClock
| StaticAssertion (condition : Expression) (errorMessage : string)
with VariableDeclaration : Type :=
| mkVariableDeclaration (name : Identifier) (declaredType initialValue : option Expression)
                        (isConstant : bool)
with EndpointDeclaration : Type :=
| mkEndpointDeclaration (isInput : bool) (name : Identifier)
                        (details : option EndpointDetails) (location : CodeLocation)
with EndpointDetails : Type :=
| mkEndpointDetails (endpointKind : EndpointKind) (dataTypes : list Expression)
                    (arraySize : option Expression).

(** [Expression::kind], as the constructor of each node sets it. *)
Definition operationReturnsAType (op : MetaOp) : bool :=
  match op with
  | makeConst | makeConstSilent | makeReference | removeReference
  | elementType | primitiveType => true
  | _ => false
  end.

Definition kind (e : Expression) : ExpressionKind :=
  match e with
  | ConcreteType _ => type
  | SubscriptWithBrackets _ _ => unknown
  | SubscriptWithChevrons _ _ => unknown
  | TypeMetaFunction _ op => if operationReturnsAType op then type else value
  | Assignment _ _ => value
  | BinaryOperator _ _ _ => value
  | Constant _ => value
  | DotOperator _ _ => unknown
  | CallOrCast _ _ _ => value
  | FunctionCall _ _ _ => value
  | TypeCast _ _ => value
  | PreOrPostIncOrDec _ _ _ => value
  | ArrayElementRef _ _ _ _ => value
  | StructMemberRef _ _ => value
  | StructDeclaration _ _ => type
  | UsingDeclaration _ _ => type
  | TernaryOp _ _ _ => value
  | UnaryOperator _ _ => value
  | QualifiedIdentifier _ => unknown
  | VariableRef _ => value
  | InputEndpointRef _ => value
  | OutputEndpointRef _ => endpoint
  | ProcessorRef _ => processor
  | CommaSeparatedList _ => unknown
  | ProcessorProperty _ => value
  | WriteToEndpoint _ _ => endpoint
  | AdvanceClock => value
  | StaticAssertion _ _ => unknown
  end.

Definition BinaryOp_isLeftShift (op : BinaryOp) : bool :=
  match op with leftShift => true | _ => false end.

Fixpoint isOutputEndpoint (e : Expression) : bool :=
  match e with
  | OutputEndpointRef _ => true
  | BinaryOperator lhs _ op => BinaryOp_isLeftShift op && isOutputEndpoint lhs
  | ArrayElementRef (Some object) _ _ _ => isOutputEndpoint object
  | WriteToEndpoint _ _ => true
  | _ => false
  end.

Fixpoint isCompileTimeConstant (e : Expression) : bool :=
  match e with
  | ConcreteType _ => true
  | ProcessorRef _ => true
  | TernaryOp c t f =>
      isCompileTimeConstant c && isCompileTimeConstant t && isCompileTimeConstant f
  | Constant _ => true
  | VariableRef (mkVariableDeclaration _ _ initialValue isConstant) =>
      isConstant && match initialValue with
                    | None => true
                    | Some i => isCompileTimeConstant i
                    end
  | TypeCast _ source => isCompileTimeConstant source
  | CommaSeparatedList items => forallb isCompileTimeConstant items
  | UnaryOperator source _ => isCompileTimeConstant source
  | BinaryOperator lhs rhs _ => isCompileTimeConstant lhs && isCompileTimeConstant rhs
  | ProcessorProperty _ => true
  | _ => false
  end.

Fixpoint getAsConstant (e : Expression) : option Value.t :=
  match e with
  | Constant v => Some v
  | VariableRef (mkVariableDeclaration _ _ initialValue isConstant) =>
      match initialValue with
      | Some i => if isConstant && isCompileTimeConstant i then getAsConstant i else None
      | None => None
      end
  | _ => None
  end.

(** The parts of the expressions' typing that rest on code outside the
    sources ([BinaryOp::getTypes], [Structure], the constructors of [Type],
    [heart::ProcessorProperty]): the type of a value expression, the type a
    type expression resolves to, [Type::isValidArrayOrVectorRange], the
    comparison [Type::isEqual] under the flag [ignoreVectorSize1], and the
    overload of [TypeRules::canSilentlyCastTo] that takes a constant's value. *)
Class Typing : Type := {
  getResultType : Expression -> Type_;
  resolveAsType : Expression -> Type_;
  isValidArrayOrVectorRange : Type_ -> Z -> Z -> bool;
  isEqual_ignoreVectorSize1 : Type_ -> Type_ -> bool;
  canSilentlyCastValueTo : Type_ -> Value.t -> bool
}.

Section Resolution.
Context {TY : Typing} {FC : FloatConversions}.

Definition canTakeSizeOf (t : Type_) : bool :=
  (isArray t && negb (isUnsizedArray t)) || isVector t || isBoundedInt t.

(** [TypeMetaFunction::checkSourceType]. *)
Definition checkSourceType (operation : MetaOp) (sourceType : Type_) : bool :=
  match operation with
  | size => canTakeSizeOf sourceType
  | makeConst => negb (isConst sourceType)
  | elementType => isArrayOrVector sourceType
  | primitiveType => negb (isArray sourceType || isStruct sourceType)
  | _ => true
  end.

(** [Value::getAsInt64] of a constant index; a value that is not a number
    fails the assertion of [getAsInt64] and gives no index. *)
Definition constantAsInt64 (e : Expression) : option Z :=
  match getAsConstant e with
  | Some v => PackedData.getAsInt64 (Value.getData v)
  | None => None
  end.

(** [isResolved], with the helpers [isResolvedAsValue] and [isResolvedAsType]
    written out where a node calls them: [isResolved x && kind x == value]
    and [isResolved x && kind x == type].  The two assertions of a slice are
    not modelled as failures: a constant index that is not a number, on which
    [getAsInt64] fails its assertion, leaves the slice unresolved here, and
    so does a resolved end index that is not a value. *)
Fixpoint isResolved (e : Expression) {struct e} : bool :=
  match e with
  | ConcreteType _ => true
  | SubscriptWithBrackets _ _ => false
  | SubscriptWithChevrons _ _ => false
  | TypeMetaFunction source operation =>
      if isResolved source && ExpressionKind_eqb (kind source) value
      then checkSourceType operation (getResultType source)
      else if isResolved source && ExpressionKind_eqb (kind source) type
      then checkSourceType operation (resolveAsType source)
      else false
  | Assignment target newValue => isResolved target && isResolved newValue
  | BinaryOperator lhs rhs _ =>
      (isResolved lhs && ExpressionKind_eqb (kind lhs) value)
      && (isResolved rhs && ExpressionKind_eqb (kind rhs) value)
  | Constant _ => true
  | DotOperator _ _ => false
  | CallOrCast _ _ _ => false
  | FunctionCall returnType arguments _ =>
      match arguments with
      | None => true
      | Some items => forallb isResolved items
      end
      && match returnType with
         | None => true
         | Some r => isResolved r
         end
  | TypeCast _ source => isResolved source
  | PreOrPostIncOrDec target _ _ => isResolved target
  | ArrayElementRef object startIndex endIndex isSlice =>
      let objectAndStart :=
        match object, startIndex with
        | Some o, Some s =>
            (isResolved o && ExpressionKind_eqb (kind o) value)
            && (isResolved s && ExpressionKind_eqb (kind s) value)
        | _, _ => false
        end in
      if isSlice then
        (* isSliceRangeValid *)
        if objectAndStart then
          match object, startIndex with
          | Some o, Some s =>
              match constantAsInt64 s with
              | None => false
              | Some first =>
                  let objectType := getResultType o in
                  match endIndex with
                  | None =>
                      isArrayOrVector objectType
                      && isValidArrayOrVectorRange
                           objectType first (Z.of_nat (getArrayOrVectorSize objectType))
                  | Some en =>
                      if negb (isResolved en) then false
                      else match constantAsInt64 en with
                           | None => false
                           | Some last =>
                               isArrayOrVector objectType
                               && isValidArrayOrVectorRange objectType first last
                           end
                  end
              end
          | _, _ => false
          end
        else false
      else objectAndStart
  | StructMemberRef object _ => isResolved object
  | StructDeclaration _ members =>
      forallb (fun m => isResolved (fst m) && ExpressionKind_eqb (kind (fst m)) type) members
  | UsingDeclaration _ targetType =>
      match targetType with
      | None => false
      | Some t => isResolved t
      end
  | TernaryOp c t f => isResolved c && isResolved t && isResolved f
  | UnaryOperator source _ => isResolved source
  | QualifiedIdentifier _ => false
  | VariableRef (mkVariableDeclaration _ declaredType initialValue _) =>
      match declaredType with
      | Some d =>
          match initialValue with
          | None => isResolved d && ExpressionKind_eqb (kind d) type
          | Some _ => false
          end
      | None =>
          match initialValue with
          | Some i => isResolved i && ExpressionKind_eqb (kind i) value
          | None => false
          end
      end
  | InputEndpointRef (mkEndpointDeclaration _ _ details _)
  | OutputEndpointRef (mkEndpointDeclaration _ _ details _) =>
      match details with
      | None => false
      | Some (mkEndpointDetails _ dataTypes arraySize) =>
          forallb (fun t => isResolved t && ExpressionKind_eqb (kind t) type) dataTypes
          && match arraySize with
             | None => true
             | Some a =>
                 (isResolved a && ExpressionKind_eqb (kind a) value)
                 && match getAsConstant a with Some _ => true | None => false end
             end
      end
  | ProcessorRef _ => true
  | CommaSeparatedList items => forallb isResolved items
  | ProcessorProperty _ => true
  | WriteToEndpoint _ newValue => isResolved newValue
  | AdvanceClock => true
  | StaticAssertion condition _ => isResolved condition
  end.

Definition isResolvedAsType (e : Expression) : bool :=
  isResolved e && ExpressionKind_eqb (kind e) type.
Definition isResolvedAsValue (e : Expression) : bool :=
  isResolved e && ExpressionKind_eqb (kind e) value.
Definition isResolvedAsConstant (e : Expression) : bool :=
  isResolvedAsValue e && match getAsConstant e with Some _ => true | None => false end.
Definition isResolvedAsEndpoint (e : Expression) : bool :=
  isResolved e && isOutputEndpoint e.
Definition isResolvedAsProcessor (e : Expression) : bool :=
  isResolved e && ExpressionKind_eqb (kind e) processor.

End Resolution.

Section SilentCasts.
Context {TY : Typing} {TR : TypeRules}.

(** [Expression::canSilentlyCastTo], with the override of [Constant]. *)
Definition canSilentlyCastTo (e : Expression) (targetType : Type_) : bool :=
  match e with
  | Constant v => canSilentlyCastValueTo targetType v
  | _ => negb (isOutputEndpoint e)
         && @canSilentlyCastTo TR targetType (getResultType e)
  end.

End SilentCasts.

(** [AST::Function], with the fields the structural check reads.  The names
    [heart::getRunFunctionName()] and [heart::getUserInitFunctionName()] are
    defined outside the sources. *)
Record Function : Type := mkFunction {
  functionName : Identifier;
  returnType : option Expression;
  parameters : list VariableDeclaration;
  functionContext : CodeLocation
}.

(** Modelled from the spec: the run function is the function named run, the
    user-init function the one named init. *)
Definition runFunctionName : Identifier := "run"%string.
Definition userInitFunctionName : Identifier := "init"%string.

Definition isRunFunction (f : Function) : bool :=
  String.eqb (functionName f) runFunctionName.
Definition isUserInitFunction (f : Function) : bool :=
  String.eqb (functionName f) userInitFunctionName.

(** [QualifiedIdentifier], where a declaration holds one by pointer: its path
    and the location of its context. *)
Record Name : Type := mkName {
  path : IdentifierPath;
  nameLocation : CodeLocation
}.

Fixpoint IdentifierPath_eqb (a b : IdentifierPath) : bool :=
  match a, b with
  | [], [] => true
  | x :: a', y :: b' => String.eqb x y && IdentifierPath_eqb a' b'
  | _, _ => false
  end.

(** [QualifiedIdentifier::operator==]. *)
Definition Name_eqb (a b : Name) : bool := IdentifierPath_eqb (path a) (path b).

Record ProcessorInstance : Type := mkProcessorInstance {
  instanceName : Name;
  targetProcessor : option Expression;
  instanceArraySize : option Expression
}.

(** [Connection::NameAndEndpoint]. *)
Record NameAndEndpoint : Type := mkNameAndEndpoint {
  processorName : Name;
  endpointName : Identifier
}.

Record Connection : Type := mkConnection {
  connectionContext : CodeLocation;
  source : NameAndEndpoint;
  dest : NameAndEndpoint;
  delayLength : option Expression
}.

(** A module, with the members the checks read.  Only a [Namespace] lists
    sub-modules; only a [Processor] lists functions. *)
Inductive ModuleBase : Type :=
| Graph (context : CodeLocation) (endpoints : list EndpointDeclaration)
        (processorInstances : list ProcessorInstance) (connections : list Connection)
| Processor (context : CodeLocation) (endpoints : list EndpointDeclaration)
            (functions : list Function)
| Namespace (context : CodeLocation) (subModules : list ModuleBase).

Definition moduleContext (m : ModuleBase) : CodeLocation :=
  match m with
  | Graph c _ _ _ | Processor c _ _ | Namespace c _ => c
  end.

Definition getEndpoints (m : ModuleBase) : list EndpointDeclaration :=
  match m with
  | Graph _ es _ _ | Processor _ es _ => es
  | Namespace _ _ => []
  end.

Definition endpointIsInput (e : EndpointDeclaration) : bool :=
  match e with mkEndpointDeclaration isInput _ _ _ => isInput end.

Definition endpointDetails (e : EndpointDeclaration) : option EndpointDetails :=
  match e with mkEndpointDeclaration _ _ details _ => details end.

Definition detailsKind (d : EndpointDetails) : EndpointKind :=
  match d with mkEndpointDetails k _ _ => k end.

(** [ModuleBase::countEndpoints]. *)
Fixpoint countEndpoints (endpoints : list EndpointDeclaration) (countInputs : bool) : nat :=
  match endpoints with
  | [] => O
  | e :: rest =>
      if Bool.eqb (endpointIsInput e) countInputs
      then S (countEndpoints rest countInputs)
      else countEndpoints rest countInputs
  end.

Definition getNumOutputs (m : ModuleBase) : nat := countEndpoints (getEndpoints m) false.

End AST.

(* ================================================================== *)
(** * [AST::Graph::CycleDetector] *)

(** [joinStrings (strings, separator)]. *)
Fixpoint joinStrings_loop (s : string) (rest : list string) (separator : string) : string :=
  match rest with
  | [] => s
  | x :: rest' => joinStrings_loop (s ++ separator ++ x)%string rest' separator
  end.

Definition joinStrings (strings : list string) (separator : string) : string :=
  match strings with
  | [] => ""%string
  | front :: rest => joinStrings_loop front rest separator
  end.

(** Modelled from the spec: [IdentifierPath::toString] belongs to
    [utilities/soul_Identifier.h], which is not among the sources; the
    sections of a path are written with [::] between them. *)
Definition pathToString (p : IdentifierPath) : string := String.concat "::" p.

Module CycleDetector.
Import AST.

(** A node is the index of its processor instance in [nodes]: the source
    compares nodes by address. *)
Record Source : Type := mkSource {
  sourceNode : nat;
  sourceConnection : Connection
}.

Record Node : Type := mkNode {
  processor : ProcessorInstance;
  sources : list Source
}.

(** What a step that can throw yields. *)
Inductive Checked (A : Type) : Type :=
| Done (a : A)
| Thrown (message : CompileMessage) (location : CodeLocation).
Arguments Done {A} a.
Arguments Thrown {A} message location.

(** The loop of [findNode] over [nodes]: the first node of that name. *)
Fixpoint findIndex (nodes : list Node) (nodeName : Name) (index : nat) : option nat :=
  match nodes with
  | [] => None
  | n :: rest =>
      if Name_eqb nodeName (instanceName (processor n)) then Some index
      else findIndex rest nodeName (S index)
  end.

(** [findNode]: no node for an empty name, an error for an unknown one. *)
Definition findNode (nodes : list Node) (nodeName : Name) : Checked (option nat) :=
  match path nodeName with
  | [] => Done None
  | _ =>
      match findIndex nodes nodeName O with
      | Some i => Done (Some i)
      | None => Thrown (cannotFindProcessor (path nodeName)) (nameLocation nodeName)
      end
  end.

(** [dst->sources.push_back ({ src, c })]. *)
Fixpoint addSource (nodes : list Node) (dst : nat) (s : Source) : list Node :=
  match nodes, dst with
  | [], _ => []
  | n :: rest, O => mkNode (processor n) (sources n ++ [s]) :: rest
  | n :: rest, S dst' => n :: addSource rest dst' s
  end.

(** The body of the constructor's loop over the connections: the edge that a
    connection without a delay contributes, if its two ends name nodes. *)
Definition connectionEdge (nodes : list Node) (c : Connection) : Checked (option (nat * nat)) :=
  match delayLength c with
  | Some _ => Done None
  | None =>
      match findNode nodes (processorName (source c)) with
      | Thrown m l => Thrown m l
      | Done None => Done None
      | Done (Some src) =>
          match findNode nodes (processorName (dest c)) with
          | Thrown m l => Thrown m l
          | Done None => Done None
          | Done (Some dst) => Done (Some (src, dst))
          end
      end
  end.

Fixpoint addConnections (connections : list Connection) (nodes : list Node)
  : Checked (list Node) :=
  match connections with
  | [] => Done nodes
  | c :: rest =>
      match connectionEdge nodes c with
      | Thrown m l => Thrown m l
      | Done None => addConnections rest nodes
      | Done (Some (src, dst)) => addConnections rest (addSource nodes dst (mkSource src c))
      end
  end.

(** The constructor [CycleDetector (Graph&)]. *)
Definition create (processorInstances : list ProcessorInstance)
           (connections : list Connection) : Checked (list Node) :=
  addConnections connections (map (fun n => mkNode n []) processorInstances).

Definition sourcesOf (nodes : list Node) (node : nat) : list Source :=
  match nth_error nodes node with
  | Some n => sources n
  | None => []
  end.

(** [processor->instanceName->path.toString()]. *)
Definition instanceString (instance : ProcessorInstance) : string :=
  pathToString (path (instanceName instance)).

Definition nameOf (nodes : list Node) (node : nat) : string :=
  match nth_error nodes node with
  | Some n => instanceString (processor n)
  | None => ""%string
  end.

(** The trace [throwCycleError] builds: the names on the visited stack from
    its top, then the first of them again. *)
Definition nodesInCycle (nodes : list Node) (stack : list nat) : list string :=
  let names := map (nameOf nodes) stack in
  (names ++ match names with [] => [] | front :: _ => [front] end)%list.

Definition throwCycleError (nodes : list Node) (stack : list nat)
           (errorContext : CodeLocation) : Result :=
  Error (feedbackInGraph (joinStrings (nodesInCycle nodes stack) " -> ")) errorContext.

(** The loop [for (auto& source : node.sources) check (...)]: it ends at the
    first call that does not complete. *)
Fixpoint eachSource (visit : Source -> option Result) (ss : list Source) : option Result :=
  match ss with
  | [] => Some Ok
  | s :: rest =>
      match visit s with
      | Some Ok => eachSource visit rest
      | other => other
      end
  end.

(** [check (Node&, const VisitedStack*, const Context&)].  The visited stack
    is the list of the nodes on it, top first.  The recursion of the source
    ends because a node already on the stack is not entered again; here it
    descends on [fuel], and [None] is the answer of a call that ran out of
    it. *)
Fixpoint checkNode (fuel : nat) (nodes : list Node) (node : nat) (stack : list nat)
         (errorContext : CodeLocation) {struct fuel} : option Result :=
  match fuel with
  | O => None
  | S fuel' =>
      if existsb (Nat.eqb node) stack
      then Some (throwCycleError nodes stack errorContext)
      else eachSource (fun s => checkNode fuel' nodes (sourceNode s) (node :: stack)
                                          (connectionContext (sourceConnection s)))
                      (sourcesOf nodes node)
  end.

(** The default-constructed context that [check()] passes for a root. *)
Definition noContext : CodeLocation := O.

(** The loop of [check()] over [nodes]. *)
Fixpoint checkEach (fuel : nat) (nodes : list Node) (roots : list nat) : option Result :=
  match roots with
  | [] => Some Ok
  | n :: rest =>
      match checkNode fuel nodes n [] noContext with
      | Some Ok => checkEach fuel nodes rest
      | other => other
      end
  end.

(** [check()], with fuel for the deepest stack a graph of that many nodes
    allows. *)
Definition check (nodes : list Node) : option Result :=
  checkEach (S (List.length nodes)) nodes (seq 0 (List.length nodes)).

(** [CycleDetector (g).check()], as [PostResolutionChecks::visit (Graph&)]
    runs it. *)
Definition run (processorInstances : list ProcessorInstance)
           (connections : list Connection) : option Result :=
  match create processorInstances connections with
  | Thrown m l => Some (Error m l)
  | Done nodes => check nodes
  end.

(** The vocabulary of the statements: the instance that a name denotes, and
    when one instance feeds another through a connection without a delay. *)
Definition instanceIndex (processorInstances : list ProcessorInstance) (n : Name)
  : option nat :=
  match path n with
  | [] => None
  | _ => findIndex (map (fun i => mkNode i []) processorInstances) n O
  end.

Definition feeds (processorInstances : list ProcessorInstance)
           (connections : list Connection) (i j : nat) : Prop :=
  exists c, In c connections
            /\ delayLength c = None
            /\ instanceIndex processorInstances (processorName (source c)) = Some i
            /\ instanceIndex processorInstances (processorName (dest c)) = Some j.

(** A name that is not empty and is the name of no instance. *)
Definition isUnknownName (processorInstances : list ProcessorInstance) (n : Name) : bool :=
  match path n with
  | [] => false
  | _ => match instanceIndex processorInstances n with
         | Some _ => false
         | None => true
         end
  end.

(** A connection without a delay that [findNode] fails on: its source is
    unknown, or its source names an instance and its destination is unknown. *)
Definition namesUnknownProcessor (processorInstances : list ProcessorInstance)
           (c : Connection) : bool :=
  match delayLength c with
  | Some _ => false
  | None =>
      isUnknownName processorInstances (processorName (source c))
      || match instanceIndex processorInstances (processorName (source c)) with
         | Some _ => isUnknownName processorInstances (processorName (dest c))
         | None => false
         end
  end.

Definition hasNoDelay (c : Connection) : bool :=
  match delayLength c with None => true | Some _ => false end.

(** On the nodes the constructor built: [j] reads from [i] when [i] is one of
    the sources of [j]; a visited stack is a chain when each node on it is a
    source of the one below and the node being entered a source of its top. *)
Definition readsFrom (nodes : list Node) (j i : nat) : Prop :=
  exists s, In s (sourcesOf nodes j) /\ sourceNode s = i.

Fixpoint chain (nodes : list Node) (node : nat) (stack : list nat) : Prop :=
  match stack with
  | [] => True
  | top :: rest => readsFrom nodes top node /\ chain nodes top rest
  end.

Definition sourcesInRange (nodes : list Node) : Prop :=
  forall j s, In s (sourcesOf nodes j) -> (sourceNode s < List.length nodes)%nat.

(** The connection through which a call of [check] entered its node: a
    source of the top of the stack, whose context the call carries. *)
Definition enteredThrough (nodes : list Node) (node : nat) (stack : list nat)
           (errorContext : CodeLocation) : Prop :=
  match stack with
  | [] => True
  | top :: _ =>
      exists s, In s (sourcesOf nodes top)
                /\ sourceNode s = node
                /\ errorContext = connectionContext (sourceConnection s)
  end.

(** The name, as [throwCycleError] writes it, of the instance at a place of
    the graph's list of instances. *)
Definition instanceNameAt (processorInstances : list ProcessorInstance) (i : nat) : string :=
  match nth_error processorInstances i with
  | Some p => instanceString p
  | None => ""%string
  end.

(** A trace along a relation: each of its instances is related to the one
    after it. *)
Fixpoint along (R : nat -> nat -> Prop) (trace : list nat) : Prop :=
  match trace with
  | [] => True
  | a :: rest => match rest with [] => True | b :: _ => R a b end /\ along R rest
  end.

(** The name that [findNode] fails on, in a connection that names an unknown
    processor. *)
Definition unknownName (processorInstances : list ProcessorInstance) (c : Connection)
  : Name :=
  if isUnknownName processorInstances (processorName (source c))
  then processorName (source c)
  else processorName (dest c).

End CycleDetector.

(* ================================================================== *)
(** * [SanityCheckPass] *)

Module SanityCheckPass.
Import AST.

Section SilentCastToList.
Context {TY : Typing} {TR : TypeRules}.

(** The loop of [expectSilentCastPossible (context, targetTypes, source)]:
    [None] when it returns from inside the loop on an exact match, the number
    of silent matches otherwise. *)
Fixpoint countSilentMatches (sourceType : Type_) (source : Expression)
         (targetTypes : list Type_) (matches : Z) : option Z :=
  match targetTypes with
  | [] => Some matches
  | ty :: rest =>
      if isEqual_ignoreVectorSize1 sourceType ty then None
      else countSilentMatches sourceType source rest
             (if AST.canSilentlyCastTo source ty then matches + 1 else matches)
  end.

Definition expectSilentCastPossible (context : CodeLocation) (targetTypes : list Type_)
           (source : Expression) : Result :=
  let sourceType := getResultType source in
  match countSilentMatches sourceType source targetTypes 0 with
  | None => Ok
  | Some matches =>
      if matches =? 0 then Error (cannotImplicitlyCastType sourceType targetTypes) context
      else if matches >? 1 then Error (ambiguousCastBetween sourceType targetTypes) context
      else Ok
  end.

End SilentCastToList.

Section OverallStructure.
Context {TY : Typing}.

(** The body of the loop over [processor->getFunctions()]: an error, or the
    new count of run functions. *)
Definition checkFunction (f : Function) (numRunFunctions : Z) : Result * Z :=
  if isRunFunction f || isUserInitFunction f then
    match returnType f with
    | None => (Error internalCompilerError (functionContext f), numRunFunctions)
    | Some r =>
        if negb (isVoid (resolveAsType r))
        then (Error (functionMustBeVoid (functionName f)) (functionContext f), numRunFunctions)
        else if negb (match parameters f with [] => true | _ => false end)
        then (Error (functionHasParams (functionName f)) (functionContext f), numRunFunctions)
        else if isRunFunction f then (Ok, numRunFunctions + 1)
        else (Ok, numRunFunctions)
    end
  else (Ok, numRunFunctions).

Fixpoint checkFunctions (functions : list Function) (numRunFunctions : Z) : Result * Z :=
  match functions with
  | [] => (Ok, numRunFunctions)
  | f :: rest =>
      match checkFunction f numRunFunctions with
      | (Ok, n) => checkFunctions rest n
      | failed => failed
      end
  end.

(** The loop over the endpoints that runs when there is no run function. *)
Fixpoint checkEndpointsNeedNoRunFunction (endpoints : list EndpointDeclaration)
         (processorContext : CodeLocation) : Result :=
  match endpoints with
  | [] => Ok
  | e :: rest =>
      match endpointDetails e with
      | Some d =>
          if negb (isEvent (detailsKind d))
          then Error processorNeedsRunFunction processorContext
          else checkEndpointsNeedNoRunFunction rest processorContext
      | None => checkEndpointsNeedNoRunFunction rest processorContext
      end
  end.

(** [checkOverallStructureOfProcessor], called on a [Graph] or a [Processor]. *)
Definition checkOverallStructureOfProcessor (processorOrGraph : ModuleBase) : Result :=
  if Nat.eqb (getNumOutputs processorOrGraph) 0
  then Error processorNeedsAnOutput (moduleContext processorOrGraph)
  else
    match processorOrGraph with
    | Processor context endpoints functions =>
        match checkFunctions functions 0 with
        | (Ok, numRunFunctions) =>
            andThen (if numRunFunctions =? 0
                     then checkEndpointsNeedNoRunFunction endpoints context
                     else Ok)
                    (if numRunFunctions >? 1
                     then Error multipleRunFunctions context
                     else Ok)
        | (failed, _) => failed
        end
    | _ => Ok
    end.

(** [checkOverallStructure]: the module, then its sub-modules in order. *)
Fixpoint checkOverallStructure (module : ModuleBase) : Result :=
  andThen
    (match module with
     | Namespace _ _ => Ok
     | _ => checkOverallStructureOfProcessor module
     end)
    (match module with
     | Namespace _ subModules =>
         (fix each (ms : list ModuleBase) : Result :=
            match ms with
            | [] => Ok
            | m :: rest => andThen (checkOverallStructure m) (each rest)
            end) subModules
     | _ => Ok
     end).

Definition runPreResolution (module : ModuleBase) : Result :=
  checkOverallStructure module.

(** The vocabulary of the statements about the structural check: the entry
    points of a processor (its run and user-init functions), the number of
    its run functions, and whether it declares an endpoint that is not an
    event endpoint. *)
Definition isEntryPoint (f : Function) : bool :=
  isRunFunction f || isUserInitFunction f.

Definition isVoidAndParameterless (f : Function) : bool :=
  match returnType f with
  | Some r => isVoid (resolveAsType r)
              && match parameters f with [] => true | _ => false end
  | None => false
  end.

Definition numberOfRunFunctions (functions : list Function) : nat :=
  List.length (filter isRunFunction functions).

Definition hasNonEventEndpoint (endpoints : list EndpointDeclaration) : bool :=
  existsb (fun e => match endpointDetails e with
                    | Some d => negb (isEvent (detailsKind d))
                    | None => false
                    end) endpoints.

End OverallStructure.

End SanityCheckPass.

(* ================================================================== *)
(** * [SanityCheckPass::RecursiveTypeDeclVisitStack] and the visit of type
      declarations *)

Module TypeDeclarations.

(** An expression in a type position, as the visitor walks it: a reference to
    a struct or using declaration of the arena (the declaration is an
    expression node itself), or any other node with its sub-expressions.
    Declarations are compared by address; a declaration is its index in the
    arena. *)
Inductive TypeExpression : Type :=
| DeclarationRef (declaration : nat)
| OtherTypeExpression (subExpressions : list TypeExpression).

(** [StructDeclaration::Member], with the answer of
    [type->getConstness() == Constness::definitelyConst]. *)
Record Member : Type := mkMember {
  memberType : TypeExpression;
  memberIsDefinitelyConst : bool;
  memberTypeContext : CodeLocation
}.

Inductive TypeDeclaration : Type :=
| StructDeclaration (name : Identifier) (context : CodeLocation) (members : list Member)
| UsingDeclaration (name : Identifier) (context : CodeLocation)
                   (targetType : option TypeExpression).

Definition declarationName (d : TypeDeclaration) : Identifier :=
  match d with StructDeclaration n _ _ | UsingDeclaration n _ _ => n end.

Definition declarationContext (d : TypeDeclaration) : CodeLocation :=
  match d with StructDeclaration _ c _ | UsingDeclaration _ c _ => c end.

Definition nameAt (arena : list TypeDeclaration) (t : nat) : Identifier :=
  match nth_error arena t with
  | Some d => declarationName d
  | None => ""%string
  end.

Definition contextAt (arena : list TypeDeclaration) (t : nat) : CodeLocation :=
  match nth_error arena t with
  | Some d => declarationContext d
  | None => O
  end.

Inductive Pushed : Type :=
| Entered (stack : list nat)
| Refused (message : CompileMessage) (location : CodeLocation).

(** [RecursiveTypeDeclVisitStack::push]; the stack grows at its back. *)
Definition push (arena : list TypeDeclaration) (stack : list nat) (t : nat) : Pushed :=
  if existsb (Nat.eqb t) stack then
    if Nat.eqb (last stack O) t
    then Refused (typeContainsItself (nameAt arena t)) (contextAt arena t)
    else Refused (typesReferToEachOther (nameAt arena t) (nameAt arena (last stack O)))
                 (contextAt arena t)
  else Entered (stack ++ [t]).

(** [pop]. *)
Definition pop (stack : list nat) : list nat := removelast stack.

(** The loop of [visit (StructDeclaration&)] over the members, after the pop. *)
Fixpoint checkMembersNotConst (members : list Member) : Result :=
  match members with
  | [] => Ok
  | m :: rest =>
      if memberIsDefinitelyConst m
      then Error memberCannotBeConst (memberTypeContext m)
      else checkMembersNotConst rest
  end.

Fixpoint visitEach {A : Type} (visit : A -> option Result) (items : list A) : option Result :=
  match items with
  | [] => Some Ok
  | x :: rest =>
      match visit x with
      | Some Ok => visitEach visit rest
      | other => other
      end
  end.

(** [PostResolutionChecks::visit (StructDeclaration&)] and
    [visit (UsingDeclaration&)].

    Modelled from the spec: [ASTVisitor], whose [visit] the two overrides call
    between the push and the pop, is not among the sources; a struct
    declaration is on the stack while its members are visited, and visiting a
    member's type expression enters the declarations it refers to.  The walk
    descends on [fuel] where it follows a reference; [None] is the answer of a
    walk that ran out of it. *)
Fixpoint visitDeclaration (fuel : nat) (arena : list TypeDeclaration)
         (stack : list nat) (t : nat) {struct fuel} : option Result :=
  match fuel with
  | O => None
  | S fuel' =>
      match push arena stack t with
      | Refused m l => Some (Error m l)
      | Entered stack' =>
          let visitExpression :=
            fix visitExpression (e : TypeExpression) : option Result :=
              match e with
              | DeclarationRef r => visitDeclaration fuel' arena stack' r
              | OtherTypeExpression subs => visitEach visitExpression subs
              end in
          match nth_error arena t with
          | Some (StructDeclaration _ _ members) =>
              match visitEach (fun m => visitExpression (memberType m)) members with
              | Some Ok => Some (checkMembersNotConst members)
              | other => other
              end
          | Some (UsingDeclaration _ _ (Some target)) => visitExpression target
          | _ => Some Ok
          end
      end
  end.

(** The visit of the declarations of a module, in order, on an empty stack. *)
Definition visitAll (fuel : nat) (arena : list TypeDeclaration) : option Result :=
  visitEach (visitDeclaration fuel arena []) (seq 0 (List.length arena)).

End TypeDeclarations.

(* ================================================================== *)
(** * [SanityCheckPass::PreAndPostIncOperatorCheck] *)

Module PreAndPostIncOperatorCheck.

(** The nodes, as this visitor tells them apart: a [VariableRef], a
    [PreOrPostIncOrDec], and any other expression with the sub-expressions
    that the base visitor walks, in its order.  A variable declaration is
    compared by address; it is a number here.

    A statement is an expression used as one, or any other statement with the
    expressions and statements it holds, in the order the base visitor walks
    them (the condition and the branches of an [if], the statements of a
    block, ...).

    [ASTVisitor] is not among the sources; its [visitObject (Expression&)]
    dispatches to the [visit] of the node's type, and its [visit] of a node
    walks the node's children. *)
Inductive Expression : Type :=
| VariableRef (variable : nat) (context : CodeLocation)
| PreOrPostIncOrDec (target : Expression) (isIncrement isPost : bool)
| OtherExpression (subExpressions : list Expression).

Inductive Statement : Type :=
| ExpressionStatement (e : Expression)
| OtherStatement (parts : list Part)
with Part : Type :=
| SubExpression (e : Expression)
| SubStatement (s : Statement).

(** [variablesModified] and [variablesReferenced]: both null, or both pointing
    at the lists of the statement being visited. *)
Record VariableLists : Type := mkLists {
  variablesModified : list nat;
  variablesReferenced : list nat
}.

Inductive Visited : Type :=
| Continue (lists : option VariableLists)
| Stop (message : CompileMessage) (location : CodeLocation).

(** [contains (list, v.variable)]. *)
Definition contains (list : list nat) (variable : nat) : bool :=
  existsb (Nat.eqb variable) list.

Fixpoint visitExpressions (visit : option VariableLists -> Expression -> Visited)
         (lists : option VariableLists) (es : list Expression) : Visited :=
  match es with
  | [] => Continue lists
  | e :: rest =>
      match visit lists e with
      | Continue lists' => visitExpressions visit lists' rest
      | stopped => stopped
      end
  end.

(** [visit (VariableRef&)], [visit (PreOrPostIncOrDec&)] with
    [throwIfVariableFound] written out, and the base visit of any other
    node. *)
Fixpoint visitExpression (lists : option VariableLists) (e : Expression) {struct e}
  : Visited :=
  match e with
  | VariableRef v context =>
      match lists with
      | Some (mkLists modified referenced) =>
          if contains modified v then Stop preIncDecCollision context
          else Continue (Some (mkLists modified (referenced ++ [v])))
      | None => Continue None
      end
  | PreOrPostIncOrDec (VariableRef v context) _ _ =>
      match lists with
      | Some (mkLists modified referenced) =>
          if contains referenced v then Stop preIncDecCollision context
          else Continue (Some (mkLists (modified ++ [v]) (referenced ++ [v])))
      | None => Stop internalCompilerError context
      end
  | PreOrPostIncOrDec target _ _ => visitExpression lists target
  | OtherExpression subs =>
      visitExpressions (fun lists' x => visitExpression lists' x) lists subs
  end.

(** The base visit of a statement's parts: a sub-expression is visited with
    the lists of this statement, a sub-statement through
    [visitObject (Statement&)], which leaves them as they were. *)
Fixpoint visitParts (visitSubStatement : Statement -> Result)
         (lists : option VariableLists) (ps : list Part) : Result :=
  match ps with
  | [] => Ok
  | SubExpression e :: rest =>
      match visitExpression lists e with
      | Continue lists' => visitParts visitSubStatement lists' rest
      | Stop m l => Error m l
      end
  | SubStatement sub :: rest =>
      match visitSubStatement sub with
      | Ok => visitParts visitSubStatement lists rest
      | failed => failed
      end
  end.

(** [visitObject (Statement&)]: fresh lists for the statement, the base visit,
    and the lists of the enclosing statement again.  The result of a
    statement is its diagnostic, if any. *)
Fixpoint visitStatement (s : Statement) : Result :=
  match s with
  | ExpressionStatement e =>
      match visitExpression (Some (mkLists [] [])) e with
      | Continue _ => Ok
      | Stop m l => Error m l
      end
  | OtherStatement parts =>
      visitParts (fun sub => visitStatement sub) (Some (mkLists [] [])) parts
  end.

(** The vocabulary of the statements: what an expression does to variables,
    in the order of the visit. *)
Inductive Access : Type :=
| Read (variable : nat) (context : CodeLocation)
| IncDec (variable : nat) (context : CodeLocation).

Definition accessed (a : Access) : nat :=
  match a with Read v _ | IncDec v _ => v end.

Definition isIncDec (a : Access) : bool :=
  match a with IncDec _ _ => true | Read _ _ => false end.

Fixpoint accesses (e : Expression) : list Access :=
  match e with
  | VariableRef v context => [Read v context]
  | PreOrPostIncOrDec (VariableRef v context) _ _ => [IncDec v context]
  | PreOrPostIncOrDec target _ _ => accesses target
  | OtherExpression subs => flat_map accesses subs
  end.

(** The accesses of a statement's own expressions, nested statements left
    out, and the statements nested in it. *)
Definition partAccesses (parts : list Part) : list Access :=
  flat_map (fun p => match p with
                     | SubExpression e => accesses e
                     | SubStatement _ => []
                     end) parts.

Definition partStatements (parts : list Part) : list Statement :=
  flat_map (fun p => match p with
                     | SubExpression _ => []
                     | SubStatement sub => [sub]
                     end) parts.

Definition ownAccesses (s : Statement) : list Access :=
  match s with
  | ExpressionStatement e => accesses e
  | OtherStatement parts => partAccesses parts
  end.

Definition subStatements (s : Statement) : list Statement :=
  match s with
  | ExpressionStatement _ => []
  | OtherStatement parts => partStatements parts
  end.

(** Every access of a statement, those of the statements nested in it
    included, in the order of the visit. *)
Fixpoint allAccesses (s : Statement) : list Access :=
  match s with
  | ExpressionStatement e => accesses e
  | OtherStatement parts =>
      (fix each (ps : list Part) : list Access :=
         match ps with
         | [] => []
         | SubExpression e :: rest => (accesses e ++ each rest)%list
         | SubStatement sub :: rest => (allAccesses sub ++ each rest)%list
         end) parts
  end.

(** The two lists after a run of accesses, or the collision that stops it. *)
Fixpoint scan (lists : VariableLists) (run : list Access) : Visited :=
  match run with
  | [] => Continue (Some lists)
  | Read v context :: rest =>
      if contains (variablesModified lists) v then Stop preIncDecCollision context
      else scan (mkLists (variablesModified lists) (variablesReferenced lists ++ [v])) rest
  | IncDec v context :: rest =>
      if contains (variablesReferenced lists) v then Stop preIncDecCollision context
      else scan (mkLists (variablesModified lists ++ [v])
                         (variablesReferenced lists ++ [v])) rest
  end.

Definition stopped (v : Visited) : bool :=
  match v with Stop _ _ => true | Continue _ => false end.

(** Two accesses clash when they are of one variable and one of them is an
    increment or decrement; a run of accesses collides when two of its
    accesses clash. *)
Definition clash (a b : Access) : bool :=
  Nat.eqb (accessed a) (accessed b) && (isIncDec a || isIncDec b).

Fixpoint collides (run : list Access) : bool :=
  match run with
  | [] => false
  | a :: rest => existsb (clash a) rest || collides rest
  end.

Definition collide (run : list Access) : Prop :=
  exists before a between b after,
    run = (before ++ a :: between ++ b :: after)%list /\ clash a b = true.

(** An access clashes with the lists when it is an increment or decrement of
    a variable already referenced, or a read of a variable already modified. *)
Definition clashesWithLists (lists : VariableLists) (a : Access) : bool :=
  if isIncDec a then contains (variablesReferenced lists) (accessed a)
  else contains (variablesModified lists) (accessed a).

End PreAndPostIncOperatorCheck.

(* ================================================================== *)
(** * Example programs *)

Module Examples.
Import AST.
Local Open Scope nat_scope.
Local Open Scope string_scope.

(** The result types that the sources give without the help of code outside
    them, for the expressions of the examples. *)
Fixpoint exampleResultType (e : Expression) : Type_ :=
  match e with
  | Constant v => Value.type v
  | TypeCast t _ => t
  | TernaryOp _ t _ => exampleResultType t
  | UnaryOperator source logicalNot => plain (primitive bool_)
  | UnaryOperator source bitwiseNot => plain (primitive int32)
  | UnaryOperator source _ => exampleResultType source
  | Assignment target _ => exampleResultType target
  | PreOrPostIncOrDec target _ _ => exampleResultType target
  | WriteToEndpoint target _ => exampleResultType target
  | AdvanceClock => plain (primitive void_)
  | StaticAssertion _ _ => plain (primitive void_)
  | TypeMetaFunction _ size => plain (primitive int64)
  | TypeMetaFunction _ _ => plain (primitive bool_)
  | _ => plain invalid
  end.

Fixpoint exampleResolveAsType (e : Expression) : Type_ :=
  match e with
  | ConcreteType t => t
  | UsingDeclaration _ (Some t) => exampleResolveAsType t
  | _ => plain invalid
  end.

Definition scalarOfVectorOfSize1 (c : Category) : Category :=
  match c with
  | vector p 1 => primitive p
  | _ => c
  end.

(** Modelled from the spec: a typing for the examples.  Two types are equal
    under [ignoreVectorSize1] when they are identical once a vector of size 1
    is read as its scalar; a range is valid when [0 <= start <= end <= size];
    a constant casts silently when its type does. *)
Definition typing : Typing := {|
  getResultType := exampleResultType;
  resolveAsType := exampleResolveAsType;
  isValidArrayOrVectorRange := fun t first last =>
    ((0 <=? first) && (first <=? last) && (last <=? Z.of_nat (getArrayOrVectorSize t)))%Z;
  isEqual_ignoreVectorSize1 := fun a b =>
    isIdentical (mkType (scalarOfVectorOfSize1 (category a)) (isConst a) (isReference a))
                (mkType (scalarOfVectorOfSize1 (category b)) (isConst b) (isReference b));
  canSilentlyCastValueTo := fun t v => SpecTypeRules.silently t (Value.type v)
|}.

Definition int32Type : Type_ := plain (primitive int32).
Definition int64Type : Type_ := plain (primitive int64).
Definition float64Type : Type_ := plain (primitive float64).
Definition boolType : Type_ := plain (primitive bool_).

(** A processor's functions and endpoints. *)
Definition voidReturn : Expression := ConcreteType (plain (primitive void_)).

Definition runFunction (location : CodeLocation) : Function :=
  mkFunction runFunctionName (Some voidReturn) [] location.

Definition streamOutput : EndpointDeclaration :=
  mkEndpointDeclaration false "out"
    (Some (mkEndpointDetails streamEndpoint [ConcreteType (plain (primitive float32))] None)) 1.

Definition eventInput : EndpointDeclaration :=
  mkEndpointDeclaration true "in"
    (Some (mkEndpointDetails eventEndpoint [ConcreteType int32Type] None)) 2.

Definition eventOutput : EndpointDeclaration :=
  mkEndpointDeclaration false "events"
    (Some (mkEndpointDetails eventEndpoint [ConcreteType int32Type] None)) 3.

(** Two run functions and no output. *)
Definition twoRunsNoOutput : ModuleBase :=
  Processor 0 [eventInput] [runFunction 10; runFunction 11].

(** Two run functions and a stream output. *)
Definition twoRuns : ModuleBase :=
  Processor 0 [streamOutput] [runFunction 10; runFunction 11].

(** No run function, no output, and only an event endpoint. *)
Definition eventsOnlyNoOutput : ModuleBase := Processor 0 [eventInput] [].

(** A graph's instances and connections. *)
Definition instance (name : string) : ProcessorInstance :=
  mkProcessorInstance (mkName [name] 0) None None.

Definition connect (location : CodeLocation) (from to : string)
           (delay : option Expression) : Connection :=
  mkConnection location
               (mkNameAndEndpoint (mkName [from] location) "out")
               (mkNameAndEndpoint (mkName [to] location) "in") delay.

Definition abc : list ProcessorInstance := [instance "a"; instance "b"; instance "c"].

(** a -> b -> c -> a, without delays. *)
Definition ring : list Connection :=
  [connect 1 "a" "b" None; connect 2 "b" "c" None; connect 3 "c" "a" None].

(** The same ring with a delay on the connection back to a. *)
Definition delayedRing : list Connection :=
  [connect 1 "a" "b" None; connect 2 "b" "c" None;
   connect 3 "c" "a" (Some (Constant (Value.createInt32 1)))].

(** A connection from a processor that the graph does not have. *)
Definition dangling : list Connection := [connect 1 "x" "a" None].

(** A connection from the graph itself (no processor name) to a processor
    that the graph does not have. *)
Definition fromGraphToUnknown : list Connection :=
  [mkConnection 1 (mkNameAndEndpoint (mkName [] 1) "in")
                (mkNameAndEndpoint (mkName ["x"] 1) "in") None].

(** Type declarations: [struct S { S s; }], and [struct A { B b; }] with
    [struct B { A a; }]. *)
Import TypeDeclarations.

Definition selfContaining : list TypeDeclaration :=
  [StructDeclaration "S" 1 [mkMember (DeclarationRef 0) false 2]].

Definition mutuallyReferring : list TypeDeclaration :=
  [StructDeclaration "A" 1 [mkMember (DeclarationRef 1) false 2];
   StructDeclaration "B" 3 [mkMember (DeclarationRef 0) false 4]].

(** Statements over the variables [i] (0) and [j] (1): [i = i++ + i], and the
    block of [i++;] and [j = i + 1;]. *)
Import PreAndPostIncOperatorCheck.

Definition literal : PreAndPostIncOperatorCheck.Expression := OtherExpression [].

Definition assignIncrementPlusRead : Statement :=
  ExpressionStatement
    (OtherExpression [VariableRef 0 1;
                      OtherExpression [PreOrPostIncOrDec (VariableRef 0 2) true true;
                                       VariableRef 0 3]]).

Definition incrementThenRead : Statement :=
  OtherStatement
    [SubStatement (ExpressionStatement (PreOrPostIncOrDec (VariableRef 0 1) true true));
     SubStatement (ExpressionStatement
                     (OtherExpression [VariableRef 1 2;
                                       OtherExpression [VariableRef 0 3; literal]]))].

(** [if (i++ > 0) j = i;]: the condition, and the assignment as the nested
    statement of the branch. *)
Definition incrementInConditionReadInBranch : Statement :=
  OtherStatement
    [SubExpression (OtherExpression [PreOrPostIncOrDec (VariableRef 0 1) true true; literal]);
     SubStatement (ExpressionStatement (OtherExpression [VariableRef 1 2; VariableRef 0 3]))].

(** [a[0]++ + a[0];] over the variable [a] (0): the operand of the increment
    is the element [a[0]], not a variable. *)
Definition incrementOfElementPlusRead : Statement :=
  ExpressionStatement
    (OtherExpression
       [PreOrPostIncOrDec (OtherExpression [VariableRef 0 1; literal]) true true;
        OtherExpression [VariableRef 0 2; literal]]).

End Examples.

(* ================================================================== *)
(** * [AST::Annotation] and [AST::ImportsList] *)

Module Annotation.
Import AST.

(** [Annotation::Property]: the qualified identifier that names the property
    and the expression that is its value. *)
Record Property : Type := mkProperty {
  propertyName : Name;
  propertyValue : Expression
}.

(** [findProperty (name)]: the first property whose path is [name]. *)
Fixpoint findProperty (properties : list Property) (target : IdentifierPath)
  : option Property :=
  match properties with
  | [] => None
  | p :: rest =>
      if IdentifierPath_eqb (path (propertyName p)) target then Some p
      else findProperty rest target
  end.

(** [addProperty]: [properties.push_back (newProperty)]. *)
Definition addProperty (properties : list Property) (newProperty : Property)
  : list Property :=
  (properties ++ [newProperty])%list.

(** The loop of [setProperty]: the list with the value of the first property
    of that path replaced, when there is one. *)
Fixpoint replaceFirst (properties : list Property) (newProperty : Property)
  : option (list Property) :=
  match properties with
  | [] => None
  | p :: rest =>
      if IdentifierPath_eqb (path (propertyName p)) (path (propertyName newProperty))
      then Some (mkProperty (propertyName p) (propertyValue newProperty) :: rest)
      else option_map (cons p) (replaceFirst rest newProperty)
  end.

(** [setProperty]. *)
Definition setProperty (properties : list Property) (newProperty : Property)
  : list Property :=
  match replaceFirst properties newProperty with
  | Some replaced => replaced
  | None => addProperty properties newProperty
  end.

(** [setProperties (other)]: [setProperty] for each property of [other], in
    order. *)
Definition setProperties (properties other : list Property) : list Property :=
  fold_left setProperty other properties.

(** The paths of the properties, in order. *)
Definition paths (properties : list Property) : list IdentifierPath :=
  map (fun p => path (propertyName p)) properties.

End Annotation.

Module ImportsList.

Section WithTrim.
(** [trim] is declared in the string utilities and defined outside the
    sources. *)
Variable trim : string -> string.

(** [contains (imports, newImport)]. *)
Definition contains (imports : list string) (item : string) : bool :=
  existsb (String.eqb item) imports.

Definition addIfNotAlreadyThere (imports : list string) (newImport : string)
  : list string :=
  let newImport := trim newImport in
  if negb (contains imports newImport) then (imports ++ [newImport])%list
  else imports.

(** [mergeList (other)]. *)
Fixpoint mergeList (imports other : list string) : list string :=
  match other with
  | [] => imports
  | i :: rest =>
      mergeList (if negb (contains imports i) then (imports ++ [i])%list else imports) rest
  end.

End WithTrim.

End ImportsList.

(* ================================================================== *)
(** * The string utilities: [joinStrings] with a stringifier and
      [addSuffixToMakeUnique] *)

(** [joinStrings (strings, separator, stringify)]. *)
Fixpoint joinStringified_loop {A : Type} (s : string) (rest : list A)
         (separator : string) (stringify : A -> string) : string :=
  match rest with
  | [] => s
  | x :: rest' =>
      joinStringified_loop (s ++ separator ++ stringify x)%string rest' separator stringify
  end.

Definition joinStringified {A : Type} (strings : list A) (separator : string)
           (stringify : A -> string) : string :=
  match strings with
  | [] => ""%string
  | front :: rest => joinStringified_loop (stringify front) rest separator stringify
  end.

(** The name [addSuffixToMakeUnique] tries for the suffix [n]. *)
Definition withSuffix (name : string) (suffix : Z) : string :=
  (name ++ "_" ++ to_string suffix)%string.

(** The loop of [addSuffixToMakeUnique]: [while (isUsed (nameToUse))
    nameToUse = name + "_" + std::to_string (++suffix)], on an [int].  The loop
    has no bound of its own; [None] is a run that [fuel] rounds did not end. *)
Fixpoint addSuffix_loop (fuel : nat) (name : string) (isUsed : string -> bool)
         (nameToUse : string) (suffix : Z) : option string :=
  match fuel with
  | O => None
  | S fuel' =>
      if isUsed nameToUse then
        let suffix := to_int32 (suffix + 1) in
        addSuffix_loop fuel' name isUsed (withSuffix name suffix) suffix
      else Some nameToUse
  end.

Definition addSuffixToMakeUnique (fuel : nat) (name : string) (isUsed : string -> bool)
  : option string :=
  addSuffix_loop fuel name isUsed name 1.

(** [Scope::makeUniqueName]: a name is used when a function, a struct, a
    using declaration, a sub-module or a processor alias of the scope has
    it.  The scope is given by the names of these five lists. *)
Record ScopeNames : Type := mkScopeNames {
  functionNames : list Identifier;
  structNames : list Identifier;
  usingNames : list Identifier;
  subModuleNames : list Identifier;
  processorAliasNames : list Identifier
}.

Definition hasName (names : list Identifier) (name : string) : bool :=
  existsb (fun n => String.eqb n name) names.

Definition isNameUsed (scope : ScopeNames) (name : string) : bool :=
  if hasName (functionNames scope) name then true
  else if hasName (structNames scope) name then true
  else if hasName (usingNames scope) name then true
  else if hasName (subModuleNames scope) name then true
  else if hasName (processorAliasNames scope) name then true
  else false.

Definition makeUniqueName (fuel : nat) (scope : ScopeNames) (root : string)
  : option string :=
  addSuffixToMakeUnique fuel root (isNameUsed scope).

(** The names of a scope that [makeUniqueName] compares with. *)
Definition allNames (scope : ScopeNames) : list Identifier :=
  (functionNames scope ++ structNames scope ++ usingNames scope
   ++ subModuleNames scope ++ processorAliasNames scope)%list.

(* ================================================================== *)
(** * [Value]: the getters and the other constructors *)

Module ValueMethods.

(** [Value::zeroInitialiser]. *)
Definition zeroInitialiser (t : Type_) : option Value.t :=
  do _ <- SOUL_ASSERT (isValid t && negb (isVoid t));
  Some (Value.ofType t).

(** [Value::isZero]: [! isValid() || getData().isZero()]. *)
Definition isZero (v : Value.t) : option bool :=
  if negb (Value.isValid v) then Some true
  else do d <- Value.getDataChecked v; Some (PackedData.isZero d).

(** [Value::clear]. *)
Definition clear (v : Value.t) : option Value.t :=
  do d <- Value.getDataChecked v;
  Some (Value.mk (Value.type v) (PackedData.clear d)).

Section WithConversions.
Context {FC : FloatConversions}.

Definition getAsBool (v : Value.t) : option bool :=
  do d <- Value.getDataChecked v; PackedData.getAsBool d.

Definition getAsDouble (v : Value.t) : option Z :=
  do d <- Value.getDataChecked v; PackedData.getAsDouble d.

Definition getAsInt64 (v : Value.t) : option Z :=
  do d <- Value.getDataChecked v; PackedData.getAsInt64 d.

(** [(int32_t) getAsInt64()]. *)
Definition getAsInt32 (v : Value.t) : option Z :=
  option_map to_int32 (getAsInt64 v).

End WithConversions.

Section WithRules.
Context {TR : TypeRules} {FC : FloatConversions}.

(** [castToTypeExpectingSuccess]: the cast, and the assertion that its result
    is valid. *)
Definition castToTypeExpectingSuccess (v : Value.t) (destType : Type_) : option Value.t :=
  do result <- Value.tryCastToType v destType;
  do _ <- SOUL_ASSERT (Value.isValid result);
  Some result.

End WithRules.

(** A value whose buffer has the packed size of its type, as every
    constructor of [Value] makes it. *)
Definition hasPackedSize (v : Value.t) : Prop :=
  List.length (Value.allocatedData v) = getPackedSizeInBytes (Value.type v).

End ValueMethods.

(* ================================================================== *)
(** * [PackedData::negate] and [Value::negated] *)

Module Negation.

(** The negation of a [float] and of a [double], on their bit patterns: the
    sign bit is the other one, the rest is unchanged. *)
Definition negateFloat32 (bits : Z) : Z := Z.lxor bits (2 ^ 31).
Definition negateFloat64 (bits : Z) : Z := Z.lxor bits (2 ^ 63).

(** [negateAs<Primitive>]: [setAs (-getAs<Primitive>())].  The negation of
    the least integer of its type overflows; it is written as it wraps. *)
Definition negateAs_int32 (p : PackedData.t) : option (list byte) :=
  do v <- PackedData.getAs 4 p;
  PackedData.setAs 4 p (to_int32 (- to_int32 v)).

Definition negateAs_int64 (p : PackedData.t) : option (list byte) :=
  do v <- PackedData.getAs 8 p;
  PackedData.setAs 8 p (to_int64 (- to_int64 v)).

Definition negateAs_float (p : PackedData.t) : option (list byte) :=
  do v <- PackedData.getAs 4 p;
  PackedData.setAs 4 p (negateFloat32 v).

Definition negateAs_double (p : PackedData.t) : option (list byte) :=
  do v <- PackedData.getAs 8 p;
  PackedData.setAs 8 p (negateFloat64 v).

(** The block [if (type.isPrimitive()) { ... }] of [negate], with the failed
    assertion after it. *)
Definition negatePrimitive (p : PackedData.t) : option (list byte) :=
  let type := PackedData.type p in
  if isPrimitive type then
    if isInteger32 type then negateAs_int32 p
    else if isInteger64 type then negateAs_int64 p
    else if isFloat32 type then negateAs_float p
    else if isFloat64 type then negateAs_double p
    else None
  else None.

(** The loop of [negate] over an [ArrayIterator]: every element in turn. *)
Fixpoint negateElements (negateElement : list byte -> option (list byte))
         (elementSize n : nat) (rest : list byte) : option (list byte) :=
  match n with
  | O => Some rest
  | S n' =>
      do e <- negateElement (firstn elementSize rest);
      do tail <- negateElements negateElement elementSize n' (skipn elementSize rest);
      Some (e ++ tail)%list
  end.

(** [negate], on the description of the type of the view. *)
Fixpoint negateCategory (c : Category) (bytes : list byte) {struct c}
  : option (list byte) :=
  match c with
  | array e count =>
      negateElements (negateCategory e) (packedSize e)
                     (getArrayOrVectorSize (plain (array e count))) bytes
  | vector pt n =>
      negateElements (fun run => negatePrimitive (PackedData.mk (plain (primitive pt)) run))
                     (PrimitiveType_size pt) n bytes
  | primitive pt => negatePrimitive (PackedData.mk (plain (primitive pt)) bytes)
  | _ => None
  end.

Definition negate (p : PackedData.t) : option (list byte) :=
  negateCategory (category (PackedData.type p)) (PackedData.data p).

(** [Value::negated]. *)
Definition negated (v : Value.t) : option Value.t :=
  do d <- Value.getDataChecked v;
  do bytes <- negate d;
  Some (Value.mk (Value.type v) bytes).

(** [Value::canNegate]. *)
Definition canNegate (v : Value.t) : bool :=
  isFloatingPoint (Value.type v) || isInteger (Value.type v).

End Negation.

(* ================================================================== *)
(** * [SanityCheckPass]: the checks on sizes, types and functions *)

Module SanityChecks.
Import AST.

(** The messages of [diagnostics/soul_Errors.h] that these checks raise. *)
Inductive Diagnostic : Type :=
| notYetImplemented (feature : string)
| delayLineMustHaveIntLength
| delayLineTooShort
| delayLineTooLong
| duplicateFunction
| illegalArraySize
| nonIntegerArraySize
| nonConstArraySize
| illegalTypeForEndpoint
| duplicateTypesInList (first second : Type_)
| cannotTakeSizeOfType
| tooManyConsts
| badTypeForElementType
| badTypeForPrimitiveType
| recursiveTypes (graph : nat).

(** What a call gives: the value it returns, or the message that
    [Context::throwError] leaves with and the location it was raised at. *)
Inductive Outcome (A : Type) : Type :=
| Returned (a : A)
| Threw (message : Diagnostic) (location : CodeLocation).

Arguments Returned {A} a.
Arguments Threw {A} message location.

Definition threw {A : Type} (o : Outcome A) : bool :=
  match o with Returned _ => false | Threw _ _ => true end.

(** [AST::maxEndpointArraySize], [AST::maxProcessorArraySize] and
    [AST::maxDelayLineLength]. *)
Definition maxEndpointArraySize : Z := 256.
Definition maxProcessorArraySize : Z := 256.
Definition maxDelayLineLength : Z := 1024 * 256.

(** Modelled from the spec: [Type::isPrimitiveInteger] belongs to
    [types/soul_Type.h]; a primitive integer is an [int32] or an [int64]. *)
Definition isPrimitiveInteger (t : Type_) : bool :=
  isPrimitive t && isInteger t.

Section WithContexts.
Context {TY : Typing} {FC : FloatConversions}.

(** The location of an expression's context; the nodes of the model do not
    carry it. *)
Variable contextOf : Expression -> CodeLocation.

(** [checkDelayLineLength]. *)
Definition checkDelayLineLength (context : CodeLocation) (v : Value.t)
  : option (Outcome Z) :=
  if negb (isPrimitiveInteger (Value.type v))
  then Some (Threw delayLineMustHaveIntLength context)
  else
    do length <- ValueMethods.getAsInt64 v;
    if length <? 1 then Some (Threw delayLineTooShort context)
    else if length >? to_int64 maxDelayLineLength then Some (Threw delayLineTooLong context)
    else Some (Returned length).

(** [PostResolutionChecks::checkArraySize]. *)
Definition checkArraySize (arraySize : option Expression) (maxSize : Z)
  : option (Outcome unit) :=
  match arraySize with
  | Some a =>
      match getAsConstant a with
      | Some c =>
          if isInteger (Value.type c) then
            do count <- ValueMethods.getAsInt64 c;
            if (count <? 1) || (count >? maxSize)
            then Some (Threw illegalArraySize (contextOf a))
            else Some (Returned tt)
          else Some (Threw nonIntegerArraySize (contextOf a))
      | None => Some (Threw nonConstArraySize (contextOf a))
      end
  | None => Some (Returned tt)
  end.

End WithContexts.

(** [throwErrorIfMultidimensionalArray], on the description of the type: an
    array is looked into through its element type, a struct through the types
    of its members. *)
Fixpoint throwErrorIfMultidimensionalArray (location : CodeLocation) (c : Category)
  : Outcome unit :=
  match c with
  | array element _ =>
      if isArray (plain element)
      then Threw (notYetImplemented "Multi-dimensional arrays") location
      else throwErrorIfMultidimensionalArray location element
  | structure _ members =>
      (fix each (ms : list Category) : Outcome unit :=
         match ms with
         | [] => Returned tt
         | m :: rest =>
             match throwErrorIfMultidimensionalArray location m with
             | Returned _ => each rest
             | Threw d l => Threw d l
             end
         end) members
  | _ => Returned tt
  end.

(** The types that have an array of arrays somewhere in them. *)
Inductive hasArrayOfArrays : Category -> Prop :=
| arrayOfArrays (inner : Category) (innerCount count : option nat) :
    hasArrayOfArrays (array (array inner innerCount) count)
| inElementType (element : Category) (count : option nat) :
    hasArrayOfArrays element -> hasArrayOfArrays (array element count)
| inMember (name : string) (members : list Category) (m : Category) :
    In m members -> hasArrayOfArrays m -> hasArrayOfArrays (structure name members).

Section DuplicateFunctions.
(** [Function::isGeneric] reads the generic wildcards of the function, and
    [Function::getSignatureID] the short descriptions of the types of its
    parameters; both are outside the model of a function. *)
Variable isGeneric : Function -> bool.
Variable getSignatureID : Function -> string.

Fixpoint checkForDuplicateFunctions_loop (functions : list Function)
         (functionSigs : list string) : Outcome unit :=
  match functions with
  | [] => Returned tt
  | f :: rest =>
      if negb (isGeneric f) then
        let newSig := getSignatureID f in
        if existsb (String.eqb newSig) functionSigs
        then Threw duplicateFunction (functionContext f)
        else checkForDuplicateFunctions_loop rest (functionSigs ++ [newSig])
      else checkForDuplicateFunctions_loop rest functionSigs
  end.

Definition checkForDuplicateFunctions (functions : list Function) : Outcome unit :=
  checkForDuplicateFunctions_loop functions [].

(** The signatures of the functions that are not generic, in order. *)
Definition signatures (functions : list Function) : list string :=
  map getSignatureID (filter (fun f => negb (isGeneric f)) functions).

End DuplicateFunctions.

End SanityChecks.

(* ================================================================== *)
(** * The AST: endpoint details, type meta-functions, name lookups *)

Module EndpointDetailsMethods.
Import AST SanityChecks.

Definition isStream (k : EndpointKind) : bool :=
  match k with streamEndpoint => true | _ => false end.

Section WithTyping.
Context {TY : Typing} {FC : FloatConversions} {TR : TypeRules}.

(** [getResolvedDataTypes]: the types the data type expressions resolve to,
    each asserted to be resolved as a type. *)
Fixpoint resolveAll (dataTypes : list Expression) : option (list Type_) :=
  match dataTypes with
  | [] => Some []
  | t :: rest =>
      do _ <- SOUL_ASSERT (isResolvedAsType t);
      do types <- resolveAll rest;
      Some (resolveAsType t :: types)
  end.

Definition getResolvedDataTypes (d : EndpointDetails) : option (list Type_) :=
  match d with mkEndpointDetails _ dataTypes _ => resolveAll dataTypes end.

(** The inner loop of [checkDataTypesValid]: the first of the processed types
    that is equal to [dataType]. *)
Fixpoint findEqual (processedTypes : list Type_) (dataType : Type_) : option Type_ :=
  match processedTypes with
  | [] => None
  | processedType :: rest =>
      if isEqual_ignoreVectorSize1 processedType dataType then Some processedType
      else findEqual rest dataType
  end.

(** Its outer loop. *)
Fixpoint checkTypesUnique (context : CodeLocation) (types processedTypes : list Type_)
  : Outcome unit :=
  match types with
  | [] => Returned tt
  | dataType :: rest =>
      match findEqual processedTypes dataType with
      | Some processedType => Threw (duplicateTypesInList processedType dataType) context
      | None => checkTypesUnique context rest (processedTypes ++ [dataType])
      end
  end.

(** [checkDataTypesValid]. *)
Definition checkDataTypesValid (d : EndpointDetails) (context : CodeLocation)
  : option (Outcome unit) :=
  match d with
  | mkEndpointDetails endpointKind dataTypes _ =>
      do streamCheck <-
        (if isStream endpointKind then
           do _ <- SOUL_ASSERT (Nat.eqb (List.length dataTypes) 1);
           do types <- getResolvedDataTypes d;
           match types with
           | dataType :: _ =>
               if negb (isPrimitive dataType || isVector dataType)
               then Some (Threw illegalTypeForEndpoint context)
               else Some (Returned tt)
           | [] => None
           end
         else Some (Returned tt));
      match streamCheck with
      | Threw m l => Some (Threw m l)
      | Returned _ =>
          do types <- getResolvedDataTypes d;
          Some (checkTypesUnique context types [])
      end
  end.

(** No two of the types, in their order, are equal under
    [ignoreVectorSize1]. *)
Definition pairwiseDifferent (types : list Type_) : Prop :=
  ForallOrdPairs (fun earlier later => isEqual_ignoreVectorSize1 earlier later = false) types.

(** [Type::createArray] belongs to [types/soul_Type.h]. *)
Variable createArray : Type_ -> Z -> Type_.

(** [getArraySize]: [arraySize->getAsConstant()->value.getAsInt32()], after
    the assertion that the array size is resolved as a constant. *)
Definition getArraySize (d : EndpointDetails) : option Z :=
  match d with
  | mkEndpointDetails _ _ (Some a) =>
      do _ <- SOUL_ASSERT (isResolvedAsConstant a);
      do c <- getAsConstant a;
      ValueMethods.getAsInt32 c
  | mkEndpointDetails _ _ None => None
  end.

(** [getSampleArrayTypes]. *)
Definition getSampleArrayTypes (d : EndpointDetails) : option (list Type_) :=
  do count <- match d with
              | mkEndpointDetails _ _ (Some _) => option_map to_uint32 (getArraySize d)
              | mkEndpointDetails _ _ None => Some 0
              end;
  do types <- getResolvedDataTypes d;
  Some (map (fun t => if count =? 0 then t else createArray t count) types).

(** [supportsDataType]. *)
Definition supportsDataType (d : EndpointDetails) (e : Expression) : option bool :=
  do types <- getSampleArrayTypes d;
  Some (existsb (fun t => AST.canSilentlyCastTo e t) types).

(** [getDataType]: the first sample type equal to the type of [e], else the
    first one [e] casts to silently, else the failed assertion. *)
Definition getDataType (d : EndpointDetails) (e : Expression) : option Type_ :=
  do types <- getSampleArrayTypes d;
  match find (fun t => isEqual_ignoreVectorSize1 (getResultType e) t) types with
  | Some t => Some t
  | None => find (fun t => AST.canSilentlyCastTo e t) types
  end.

(** [getElementDataType]. *)
Definition getElementDataType (d : EndpointDetails) (e : Expression) : option Type_ :=
  do types <- getResolvedDataTypes d;
  find (fun t => AST.canSilentlyCastTo e t) types.

End WithTyping.

End EndpointDetailsMethods.

Module TypeMetaFunctionMethods.
Import AST SanityChecks.

Section WithTyping.
Context {TY : Typing} {FC : FloatConversions}.
Variable contextOf : Expression -> CodeLocation.

(** [throwErrorIfUnresolved (const Type&)], in a [TypeMetaFunction] with this
    source and operation: the error on the size of a type is raised at the
    source, the others at the meta-function. *)
Definition throwErrorIfUnresolvedFor (source : Expression) (operation : MetaOp)
           (sourceType : Type_) : Outcome unit :=
  if negb (checkSourceType operation sourceType) then
    match operation with
    | size => Threw cannotTakeSizeOfType (contextOf source)
    | makeConst => Threw tooManyConsts (contextOf (TypeMetaFunction source operation))
    | elementType =>
        Threw badTypeForElementType (contextOf (TypeMetaFunction source operation))
    | primitiveType =>
        Threw badTypeForPrimitiveType (contextOf (TypeMetaFunction source operation))
    | _ => Returned tt
    end
  else Returned tt.

(** [throwErrorIfUnresolved()]. *)
Definition throwErrorIfUnresolved (source : Expression) (operation : MetaOp)
  : Outcome unit :=
  if isResolvedAsValue source
  then throwErrorIfUnresolvedFor source operation (getResultType source)
  else if isResolvedAsType source
  then throwErrorIfUnresolvedFor source operation (resolveAsType source)
  else Returned tt.

End WithTyping.

End TypeMetaFunctionMethods.

(** The processors and graphs of a module and of the modules nested in it, in
    the order [checkOverallStructure] reaches them. *)
Fixpoint processorsAndGraphs (m : AST.ModuleBase) : list AST.ModuleBase :=
  match m with
  | AST.Namespace _ subModules =>
      (fix each (ms : list AST.ModuleBase) : list AST.ModuleBase :=
         match ms with
         | [] => []
         | sub :: rest => (processorsAndGraphs sub ++ each rest)%list
         end) subModules
  | _ => [m]
  end.

(** The first error of a run of checks, if one fails. *)
Fixpoint firstError (results : list Result) : Result :=
  match results with
  | [] => Ok
  | r :: rest => andThen r (firstError rest)
  end.

(** The messages that the visit of a type declaration raises. *)
Definition isTypeDeclarationMessage (m : CompileMessage) : Prop :=
  match m with
  | typeContainsItself _ | typesReferToEachOther _ _ | memberCannotBeConst => True
  | _ => False
  end.

Definition endsWell (r : option Result) : Prop :=
  match r with
  | Some Ok => True
  | Some (Error m _) => isTypeDeclarationMessage m
  | None => False
  end.

(* ================================================================== *)
(** * [AST::Graph::RecursiveGraphDetector] *)

Module RecursiveGraphDetector.
Import SanityChecks.

(** A graph is known by its place in the list of the graphs of the program.
    Of a processor instance the detector reads the graph that its target
    resolves to, if it resolves to one: the graph of a [ProcessorRef], or the
    one module that [getMatchingSubModules] finds for a name; the name search
    is outside the sources, and an instance is given by that graph, [None]
    for a processor that is not a graph and for a name that does not resolve
    to one module. *)
Definition Instances : Type := list (option nat).

Record Graph : Type := mkGraph {
  graphContext : CodeLocation;
  processorInstances : Instances
}.

(** The loop over the instances: it leaves at the first that is a graph. *)
Fixpoint firstSubGraph (instances : Instances) : option nat :=
  match instances with
  | [] => None
  | Some sub :: _ => Some sub
  | None :: rest => firstSubGraph rest
  end.

Definition instancesOf (graphs : list Graph) (g : nat) : Instances :=
  match nth_error graphs g with
  | Some graph => processorInstances graph
  | None => []
  end.

Definition contextOfGraph (graphs : list Graph) (g : nat) : CodeLocation :=
  match nth_error graphs g with
  | Some graph => graphContext graph
  | None => O
  end.

(** [check (g, stack)]: [stack] holds the graphs on the way to [g], the
    nearest first.  [None] is a descent that [fuel] calls did not end. *)
Fixpoint check (fuel : nat) (graphs : list Graph) (g : nat) (stack : list nat)
  : option (Outcome unit) :=
  match fuel with
  | O => None
  | S fuel' =>
      if existsb (Nat.eqb g) stack
      then Some (Threw (recursiveTypes g) (contextOfGraph graphs g))
      else
        match firstSubGraph (instancesOf graphs g) with
        | Some sub => check fuel' graphs sub (g :: stack)
        | None => Some (Returned tt)
        end
  end.

(** The graph that the detector goes to from [g]. *)
Definition next (graphs : list Graph) (g h : nat) : Prop :=
  firstSubGraph (instancesOf graphs g) = Some h.

(** A graph, cut after its first instance that is a graph. *)
Fixpoint upToFirstSubGraph (instances : Instances) : Instances :=
  match instances with
  | [] => []
  | Some sub :: _ => [Some sub]
  | None :: rest => None :: upToFirstSubGraph rest
  end.

Definition cutGraph (graph : Graph) : Graph :=
  mkGraph (graphContext graph) (upToFirstSubGraph (processorInstances graph)).

End RecursiveGraphDetector.

(* ================================================================== *)
(** * [AST::Block::performLocalNameSearch] *)

Module BlockNameSearch.

(** A statement of a block, with its address: a variable declaration with the
    name it declares, or any other statement. *)
Inductive BlockStatement : Type :=
| Declaration (address : nat) (name : Identifier)
| OtherStatement (address : nat).

Definition addressOf (s : BlockStatement) : nat :=
  match s with Declaration a _ | OtherStatement a => a end.

Definition declares (name : Identifier) (s : BlockStatement) : bool :=
  match s with
  | Declaration _ n => String.eqb n name
  | OtherStatement _ => false
  end.

(** The loop of [Block::performLocalNameSearch]: the last declaration of the
    name among the statements before [statementToSearchUpTo]. *)
Fixpoint findLastMatch (statements : list BlockStatement)
         (statementToSearchUpTo : option nat) (name : Identifier)
         (lastMatch : option BlockStatement) : option BlockStatement :=
  match statements with
  | [] => lastMatch
  | s :: rest =>
      if match statementToSearchUpTo with
         | Some stop => Nat.eqb (addressOf s) stop
         | None => false
         end
      then lastMatch
      else findLastMatch rest statementToSearchUpTo name
                         (if declares name s then Some s else lastMatch)
  end.

(** [Block::performLocalNameSearch]: the declaration that it adds to the
    results of the search, if it adds one; [name] is the last part of the
    path that is searched for. *)
Definition performLocalNameSearch (findVariables : bool)
           (statements : list BlockStatement)
           (statementToSearchUpTo : option nat) (name : Identifier)
  : option BlockStatement :=
  if findVariables then findLastMatch statements statementToSearchUpTo name None
  else None.

(** The statements before the first one at the address [stop]. *)
Fixpoint before (statements : list BlockStatement) (stop : nat) : list BlockStatement :=
  match statements with
  | [] => []
  | s :: rest => if Nat.eqb (addressOf s) stop then [] else s :: before rest stop
  end.

End BlockNameSearch.

(* ================================================================== *)
(** * Properties *)

Lemma to_int64_id (z : Z) : isInt64 z -> to_int64 z = z.
Proof.
  unfold isInt64, INT64_MIN, INT64_MAX, to_int64, wrapSigned. intros H.
  rewrite Z.mod_small; lia.
Qed.

Lemma rem_plus_rem (v n : Z) :
  0 < n -> Z.rem (Z.rem v n + n) n = v mod n.
Proof.
  intros Hn.
  assert (Hq : v = n * Z.quot v n + Z.rem v n) by (apply Z.quot_rem'; lia).
  destruct (Z.lt_ge_cases v 0) as [Hneg | Hpos].
  - pose proof (Z.rem_bound_pos_neg v n Hn ltac:(lia)) as Hb.
    destruct (Z.eq_dec (Z.rem v n) 0) as [Hz | Hz].
    + rewrite Hz. simpl. rewrite Z.rem_same by lia.
      apply (Z.mod_unique v n (Z.quot v n) 0); lia.
    + rewrite Z.rem_small by lia.
      apply (Z.mod_unique v n (Z.quot v n - 1)); lia.
  - pose proof (Z.rem_bound_pos v n Hpos Hn) as Hb.
    replace (Z.rem v n + n) with (Z.rem v n + 1 * n) by lia.
    rewrite Z.rem_add by lia.
    rewrite Z.rem_small by lia.
    apply (Z.mod_unique v n (Z.quot v n)); lia.
Qed.

Lemma rem_int64 (v n : Z) : isInt64 v -> 0 < n -> isInt64 (Z.rem v n).
Proof.
  unfold isInt64, INT64_MIN, INT64_MAX. intros Hv Hn.
  destruct (Z.lt_ge_cases v 0) as [Hneg | Hpos].
  - pose proof (Z.rem_bound_pos_neg v n Hn ltac:(lia)) as Hb.
    pose proof (Z.rem_le (- v) n ltac:(lia) Hn) as Hle.
    rewrite Z.rem_opp_l in Hle by lia. lia.
  - pose proof (Z.rem_bound_pos v n Hpos Hn) as Hb.
    pose proof (Z.rem_le v n Hpos Hn). lia.
Qed.

(** The value [wrapOrClampToLegalValue] computes under the wrap policy is the
    mathematical residue of [v] modulo the limit. *)
Lemma wrap_is_modulo (N v : Z) (c r : bool) :
  1 <= N <= INT64_MAX -> isInt64 v ->
  PackedData.wrapOrClampToLegalValue (mkType (boundedInt wrap N) c r) v = v mod N.
Proof.
  intros HN Hv.
  unfold PackedData.wrapOrClampToLegalValue, isWrapped, getBoundedIntLimit. simpl.
  assert (HNi : isInt64 N) by (unfold isInt64, INT64_MIN, INT64_MAX in *; lia).
  rewrite (to_int64_id N HNi).
  pose proof (rem_int64 v N Hv ltac:(lia)) as Hr.
  rewrite (to_int64_id _ Hr).
  assert (Hq : v = N * Z.quot v N + Z.rem v N) by apply Z.quot_rem'.
  destruct (Z.ltb_spec (Z.rem v N) 0) as [Hlt | Hge].
  - assert (Hv0 : v < 0).
    { destruct (Z.lt_ge_cases v 0) as [|Hp]; [assumption|].
      pose proof (Z.rem_bound_pos v N Hp ltac:(lia)). lia. }
    pose proof (Z.rem_bound_pos_neg v N ltac:(lia) ltac:(lia)) as Hb.
    rewrite to_int64_id
      by (unfold isInt64, INT64_MIN, INT64_MAX in *; lia).
    apply (Z.mod_unique v N (Z.quot v N - 1)); lia.
  - pose proof (Z.rem_bound_abs v N ltac:(lia)) as Hb.
    apply (Z.mod_unique v N (Z.quot v N)); lia.
Qed.

(** C1.  For a bounded-integer type of limit [N >= 1] and an [int64] value [v]:
    under the wrap policy the coercion yields [((v rem N) + N) rem N] (C++
    remainder), which is the residue of [v] modulo [N] and lies in [[0, N)];
    under the clamp policy it yields [max 0 (min (N-1) v)].  With limit 10:
    wrap of -1 is 9, clamp of -1 is 0, wrap of 15 is 5, clamp of 15 is 9. *)
Theorem wrapOrClamp_semantics (N v : Z) (c r : bool) :
  1 <= N <= INT64_MAX -> isInt64 v ->
  let wrapped := PackedData.wrapOrClampToLegalValue (mkType (boundedInt wrap N) c r) v in
  let clamped := PackedData.wrapOrClampToLegalValue (mkType (boundedInt clamp N) c r) v in
  wrapped = Z.rem (Z.rem v N + N) N
  /\ wrapped = ((v mod N) + N) mod N
  /\ 0 <= wrapped < N
  /\ clamped = Z.max 0 (Z.min (N - 1) v)
  /\ PackedData.wrapOrClampToLegalValue (mkType (boundedInt wrap 10) c r) (-1) = 9
  /\ PackedData.wrapOrClampToLegalValue (mkType (boundedInt clamp 10) c r) (-1) = 0
  /\ PackedData.wrapOrClampToLegalValue (mkType (boundedInt wrap 10) c r) 15 = 5
  /\ PackedData.wrapOrClampToLegalValue (mkType (boundedInt clamp 10) c r) 15 = 9.
Proof.
  intros HN Hv wrapped clamped.
  assert (Hw : wrapped = v mod N) by (apply wrap_is_modulo; assumption).
  pose proof (Z.mod_pos_bound v N ltac:(lia)) as Hb.
  repeat apply conj; try reflexivity.
  - rewrite Hw. symmetry. apply rem_plus_rem. lia.
  - rewrite Hw.
    replace (v mod N + N) with (v mod N + 1 * N) by lia.
    rewrite Z.mod_add by lia. rewrite Z.mod_mod by lia. reflexivity.
  - lia.
  - lia.
  - subst clamped.
    unfold PackedData.wrapOrClampToLegalValue, isWrapped, isClamped, getBoundedIntLimit.
    simpl.
    assert (HNi : isInt64 N) by (unfold isInt64, INT64_MIN, INT64_MAX in *; lia).
    rewrite (to_int64_id N HNi).
    destruct (Z.ltb_spec v 0) as [Hlt | Hge]; [lia|].
    destruct (Z.geb_spec v N) as [Hge' | Hlt'].
    + rewrite to_int64_id by (unfold isInt64, INT64_MIN, INT64_MAX in *; lia). lia.
    + lia.
Qed.

Lemma wrapOrClamp_semantics_witness :
  PackedData.wrapOrClampToLegalValue (mkType (boundedInt wrap 10) false false) (-13)
    = Z.rem (Z.rem (-13) 10 + 10) 10
  /\ PackedData.wrapOrClampToLegalValue (mkType (boundedInt wrap 10) false false) (-13) = 7
  /\ PackedData.wrapOrClampToLegalValue (mkType (boundedInt clamp 10) false false) 27 = 9.
Proof.
  pose proof (wrapOrClamp_semantics 10 (-13) false false) as Hw.
  pose proof (wrapOrClamp_semantics 10 27 false false) as Hc.
  cbv zeta in Hw, Hc.
  assert (H10 : 1 <= 10 <= INT64_MAX) by (unfold INT64_MAX; lia).
  assert (H13 : isInt64 (-13)) by (unfold isInt64, INT64_MIN, INT64_MAX; lia).
  assert (H27 : isInt64 27) by (unfold isInt64, INT64_MIN, INT64_MAX; lia).
  specialize (Hw H10 H13). specialize (Hc H10 H27).
  destruct Hw as (Hw1 & Hw2 & _). destruct Hc as (_ & _ & _ & Hc4 & _).
  split; [exact Hw1 | split; [rewrite Hw2; reflexivity | rewrite Hc4; reflexivity]].
Defined.

(* ------------------------------------------------------------------ *)
(** ** Equality of values *)

Lemma bytes_eqb_eq (x y : list byte) : bytes_eqb x y = true <-> x = y.
Proof.
  revert y. induction x as [|a x IH]; intros [|b y]; simpl; split; intros H;
    try reflexivity; try discriminate.
  - apply andb_true_iff in H. destruct H as [Hab Hxy].
    apply byte_dec_bl in Hab. apply IH in Hxy. subst. reflexivity.
  - injection H as -> ->. apply andb_true_iff. split.
    + apply byte_dec_lb. reflexivity.
    + apply IH. reflexivity.
Qed.

Lemma isIdentical_isValid (a b : Type_) :
  isIdentical a b = true -> isValid a = isValid b.
Proof.
  unfold isIdentical, isValid. intros H.
  apply andb_true_iff in H. destruct H as [H _].
  apply andb_true_iff in H. destruct H as [H _].
  destruct (category a), (category b); simpl in H; try discriminate; reflexivity.
Qed.

Lemma isIdentical_isVoid (a b : Type_) :
  isIdentical a b = true -> isVoid a = isVoid b.
Proof.
  unfold isIdentical, isVoid. intros H.
  apply andb_true_iff in H. destruct H as [H _].
  apply andb_true_iff in H. destruct H as [H _].
  destruct (category a) as [| p | | | | |], (category b) as [| q | | | | |];
    simpl in H; try discriminate; try reflexivity.
  destruct p, q; simpl in H; try discriminate; reflexivity.
Qed.

(** The comparison, by the validity of the two values. *)
Lemma eqb_cases (a b : Value.t) :
  Value.eqb a b =
    match Value.isValid a, Value.isValid b with
    | false, false => Some true
    | true, true =>
        if isIdentical (Value.type a) (Value.type b) then
          if isVoid (Value.type a) then None
          else Some (bytes_eqb (Value.allocatedData a)
                               (firstn (List.length (Value.allocatedData a))
                                       (Value.allocatedData b)))
        else Some false
    | _, _ => Some false
    end.
Proof.
  unfold Value.eqb, Value.getDataChecked, Value.isValid, SOUL_ASSERT, PackedData.equals,
    PackedData.memcmp_eq, PackedData.size, Value.getData.
  cbn [PackedData.type PackedData.data].
  destruct (isValid (Value.type a)) eqn:Ha; cbn [negb andb].
  - destruct (isIdentical (Value.type a) (Value.type b)) eqn:Hi.
    + rewrite <- (isIdentical_isValid _ _ Hi), <- (isIdentical_isVoid _ _ Hi), Ha.
      cbn [andb]. destruct (isVoid (Value.type a)); cbn [negb]; [reflexivity |].
      cbn [PackedData.type PackedData.data]. rewrite Hi. cbn [negb].
      now rewrite firstn_all.
    + now destruct (isValid (Value.type b)).
  - now destruct (isValid (Value.type b)).
Qed.

(** C10.  [a == b] is true when both values are invalid and false when exactly
    one is; for two valid values it is false when the types are not
    identical, and for identical types it is the comparison of the packed
    buffers, which holds exactly when the compared bytes are the same, one by
    one.  So a comparison that is true is of two invalid values or of two
    valid values of identical types.  The comparison gives no answer exactly
    for two values of one void type, where the assertion of [getData] fails. *)
Theorem Value_equality (a b : Value.t) :
  Value.eqb a b =
    match Value.isValid a, Value.isValid b with
    | false, false => Some true
    | true, true =>
        if isIdentical (Value.type a) (Value.type b) then
          if isVoid (Value.type a) then None
          else Some (bytes_eqb (Value.allocatedData a)
                               (firstn (List.length (Value.allocatedData a))
                                       (Value.allocatedData b)))
        else Some false
    | _, _ => Some false
    end
  /\ (forall x y : list byte, bytes_eqb x y = true <-> x = y)
  /\ (Value.eqb a b = Some true ->
      Value.isValid a = Value.isValid b
      /\ (Value.isValid a = true -> isIdentical (Value.type a) (Value.type b) = true))
  /\ (Value.isValid a = true ->
      List.length (Value.allocatedData a) = List.length (Value.allocatedData b) ->
      (Value.eqb a b = Some true <->
       isIdentical (Value.type a) (Value.type b) = true
       /\ isVoid (Value.type a) = false
       /\ Value.allocatedData a = Value.allocatedData b))
  /\ (Value.eqb a b = None <->
      isIdentical (Value.type a) (Value.type b) = true /\ isVoid (Value.type a) = true).
Proof.
  split; [exact (eqb_cases a b) |]. split; [exact bytes_eqb_eq |].
  rewrite (eqb_cases a b).
  repeat match goal with |- _ /\ _ => split end.
  - intros H. split.
    + destruct (Value.isValid a), (Value.isValid b); try discriminate; reflexivity.
    + intros Ha. rewrite Ha in H.
      destruct (Value.isValid b); [| discriminate].
      destruct (isIdentical (Value.type a) (Value.type b)); [reflexivity | discriminate].
  - intros Hva Hlen. rewrite Hva, Hlen, firstn_all.
    destruct (isIdentical (Value.type a) (Value.type b)) eqn:Hi.
    + rewrite <- (isIdentical_isValid _ _ Hi : Value.isValid a = Value.isValid b), Hva.
      destruct (isVoid (Value.type a)).
      * split; [discriminate | intros (_ & H & _); discriminate].
      * split.
        -- intros [= H]. apply bytes_eqb_eq in H. auto.
        -- intros (_ & _ & H). f_equal. now apply bytes_eqb_eq.
    + destruct (Value.isValid b); (split; [discriminate | intros (H & _); discriminate]).
  - split.
    + destruct (Value.isValid a) eqn:Ha, (Value.isValid b); try discriminate.
      destruct (isIdentical (Value.type a) (Value.type b)); [| discriminate].
      destruct (isVoid (Value.type a)); [auto | discriminate].
    + intros [Hi Hvoid].
      assert (Ha : Value.isValid a = true).
      { unfold Value.isValid, isValid. unfold isVoid in Hvoid.
        destruct (category (Value.type a)); try discriminate; reflexivity. }
      rewrite <- (isIdentical_isValid _ _ Hi : Value.isValid a = Value.isValid b), Ha, Hi, Hvoid.
      reflexivity.
Qed.

Lemma Value_equality_witness :
  Value.eqb Value.invalidValue Value.invalidValue = Some true
  /\ Value.eqb Value.invalidValue (Value.createInt32 0) = Some false
  /\ Value.eqb (Value.createInt32 0) Value.invalidValue = Some false
  /\ Value.eqb (Value.createInt32 5) (Value.createInt32 5) = Some true
  /\ Value.eqb (Value.createInt64 0) (Value.createInt32 0) = Some false
  /\ Value.eqb (Value.createInt32 5) (Value.createInt32 6) = Some false
  /\ Value.eqb (Value.ofType (plain (primitive void_))) (Value.ofType (plain (primitive void_)))
     = None.
Proof.
  repeat apply conj;
    match goal with
    | |- Value.eqb ?a ?b = _ =>
        rewrite (proj1 (Value_equality a b)); vm_compute; reflexivity
    end.
Defined.

(* ------------------------------------------------------------------ *)
(** ** The default printer *)

Lemma string_append_nil_r (s : string) : (s ++ "")%string = s.
Proof. induction s as [|a s IH]; simpl; [reflexivity | rewrite IH; reflexivity]. Qed.

(** The [isFirst] loop of [print] writes its elements joined by the separator. *)
Lemma printArrayElements_concat (p : ValuePrinter) (f : list byte -> string)
      (elementSize n : nat) (bytes : list byte) :
  PackedData.printArrayElements p f elementSize n bytes true
  = String.concat (printArrayMemberSeparator p) (map f (elementRuns elementSize n bytes)).
Proof.
  assert (H : forall n bytes,
    PackedData.printArrayElements p f elementSize n bytes false
    = match elementRuns elementSize n bytes with
      | [] => ""%string
      | _ => (printArrayMemberSeparator p
              ++ String.concat (printArrayMemberSeparator p)
                               (map f (elementRuns elementSize n bytes)))%string
      end).
  { clear n bytes. induction n as [|n IH]; intros bytes; simpl; [reflexivity|].
    rewrite IH.
    destruct (elementRuns elementSize n (skipn elementSize bytes)); simpl.
    - rewrite string_append_nil_r. reflexivity.
    - reflexivity. }
  destruct n as [|n]; simpl; [reflexivity|].
  rewrite H.
  destruct (elementRuns elementSize n (skipn elementSize bytes)); simpl.
  - rewrite string_append_nil_r. reflexivity.
  - reflexivity.
Qed.

Lemma printStructMembers_concat (p : ValuePrinter)
      (f : Category -> list byte -> string) (ms : list Category) (bytes : list byte) :
  PackedData.printStructMembers p f ms bytes true
  = String.concat (printStructMemberSeparator p)
                  (map (fun mr => f (fst mr) (snd mr)) (memberRuns ms bytes)).
Proof.
  assert (H : forall ms bytes,
    PackedData.printStructMembers p f ms bytes false
    = match memberRuns ms bytes with
      | [] => ""%string
      | _ => (printStructMemberSeparator p
              ++ String.concat (printStructMemberSeparator p)
                               (map (fun mr => f (fst mr) (snd mr)) (memberRuns ms bytes)))%string
      end).
  { clear ms bytes. induction ms as [|m ms IH]; intros bytes; simpl; [reflexivity|].
    rewrite IH.
    destruct (memberRuns ms (skipn (packedSize m) bytes)); simpl.
    - rewrite string_append_nil_r. reflexivity.
    - reflexivity. }
  destruct ms as [|m ms]; simpl; [reflexivity|].
  rewrite H.
  destruct (memberRuns ms (skipn (packedSize m) bytes)); simpl.
  - rewrite string_append_nil_r. reflexivity.
  - reflexivity.
Qed.

Lemma printLane_is_print (p : ValuePrinter) (pt : PrimitiveType) (bytes : list byte) :
  PackedData.printLane p (PackedData.mk (plain (primitive pt)) bytes)
  = PackedData.printCategory p (primitive pt) false false bytes.
Proof. destruct pt; reflexivity. Qed.

Section DefaultPrinterProperties.
Context {SU : StringUtilities}.
Variables (dictionary : option StringDictionary) (c r : bool) (bytes : list byte).
Local Abbreviation describe :=
  (fun ty run => Value.getDescription dictionary (Value.mk ty run)).

Lemma describe_bool :
  describe (mkType (primitive bool_) c r) bytes
    = (if (readUnaligned bytes =? 0)%Z then "false" else "true")%string.
Proof.
  change (describe (mkType (primitive bool_) c r) bytes)
    with (if negb (readUnaligned bytes =? 0)%Z then "true" else "false")%string.
  destruct (readUnaligned bytes =? 0); reflexivity.
Qed.

Lemma describe_float32 :
 describe (mkType (primitive float32) c r) bytes
    = (let bits := readUnaligned bytes in
       if IEEE.isZero32 bits then "0"
       else if IEEE.isnan32 bits then "_nan32"
       else if IEEE.isinf32 bits
            then (if IEEE.signbit32 bits then "_ninf32" else "_inf32")
       else floatToAccurateString bits ++ "f")%string.
Proof.
  change (describe (mkType (primitive float32) c r) bytes)
    with (DefaultPrinter.basePrintFloat32 (readUnaligned bytes)).
  unfold DefaultPrinter.basePrintFloat32. cbv zeta.
  destruct (IEEE.signbit32 (readUnaligned bytes)); reflexivity.
Qed.

Lemma describe_float64 :
 describe (mkType (primitive float64) c r) bytes
    = (let bits := readUnaligned bytes in
       if IEEE.isZero64 bits then "0"
       else if IEEE.isnan64 bits then "_nan64"
       else if IEEE.isinf64 bits
            then (if IEEE.signbit64 bits then "_ninf64" else "_inf64")
       else doubleToAccurateString bits)%string.
Proof.
  change (describe (mkType (primitive float64) c r) bytes)
    with (DefaultPrinter.basePrintFloat64 (readUnaligned bytes)).
  unfold DefaultPrinter.basePrintFloat64. cbv zeta.
  destruct (IEEE.signbit64 (readUnaligned bytes)); reflexivity.
Qed.

Ltac open_describe :=
  unfold Value.getDescription, Value.print, PackedData.print, Value.getData;
  cbn [PackedData.printCategory PackedData.printPrimitive isPrimitive isBoundedInt
       isStringLiteral isUnsizedArray isArrayOrVector isArray isVector isStruct
       PackedData.isZero isVoid category isConst isReference getArrayOrVectorSize
       getStructMembers PackedData.type PackedData.data Value.type Value.allocatedData
       andb negb orb plain];
  fold (allZero bytes).

Lemma describe_array (e : Category) (n : nat) :
       describe (mkType (array e (Some n)) c r) bytes
       = if allZero bytes then "{}"%string
         else ("{ " ++ String.concat ", "
                         (map (describe (plain e)) (elementRuns (packedSize e) n bytes))
                    ++ " }")%string.
Proof.
  open_describe.
  destruct (allZero bytes); [reflexivity|].
  cbn [andb negb]. rewrite printArrayElements_concat. reflexivity.
Qed.

Lemma describe_vector (pt : PrimitiveType) (n : nat) :
       describe (mkType (vector pt n) c r) bytes
       = if allZero bytes then "{}"%string
         else ("{ " ++ String.concat ", "
                         (map (describe (plain (primitive pt)))
                              (elementRuns (PrimitiveType_size pt) n bytes))
                    ++ " }")%string.
Proof.
  open_describe.
  destruct (allZero bytes); [reflexivity|].
  cbn [andb negb]. rewrite printArrayElements_concat.
  f_equal. f_equal. f_equal. apply map_ext. intros run. apply printLane_is_print.
Qed.

Lemma describe_struct (name : string) (ms : list Category) :
       describe (mkType (structure name ms) c r) bytes
       = if allZero bytes || (match ms with [] => true | _ => false end) then "{}"%string
         else ("{ " ++ String.concat ", "
                         (map (fun mr => describe (plain (fst mr)) (snd mr))
                              (memberRuns ms bytes))
                    ++ " }")%string.
Proof.
  open_describe.
  destruct (allZero bytes); [reflexivity|].
  destruct ms as [|m ms]; [reflexivity|].
  cbn [andb negb orb]. rewrite printStructMembers_concat. reflexivity.
Qed.

Lemma describe_string :
 describe (mkType stringLiteral c r) bytes
    = match dictionary with
      | Some d => addDoubleQuotes (d (readUnaligned bytes))
      | None => to_string (readUnaligned bytes)
      end.
Proof. reflexivity. Qed.

(** C9 (amended).  What [Value::getDescription] prints, by the type of the
    value: a bool as true or false; a float32 zero as 0, a NaN or an infinity
    as its reserved token, any other float32 as its accurate string followed
    by f; a float64 likewise with the 64-bit tokens and no suffix; an int64 as
    its decimal digits followed by L; a fixed-size array, a vector or a struct
    as {} when all its bytes are zero and otherwise as its elements between
    braces, separated by commas; a string literal as the dictionary's string
    in double quotes, or as the handle's number without a dictionary. *)
Theorem default_printer_literal_syntax :
  describe (mkType (primitive bool_) c r) bytes
    = (if (readUnaligned bytes =? 0)%Z then "false" else "true")%string
  /\ describe (mkType (primitive float32) c r) bytes
    = (let bits := readUnaligned bytes in
       if IEEE.isZero32 bits then "0"
       else if IEEE.isnan32 bits then "_nan32"
       else if IEEE.isinf32 bits
            then (if IEEE.signbit32 bits then "_ninf32" else "_inf32")
       else floatToAccurateString bits ++ "f")%string
  /\ describe (mkType (primitive float64) c r) bytes
    = (let bits := readUnaligned bytes in
       if IEEE.isZero64 bits then "0"
       else if IEEE.isnan64 bits then "_nan64"
       else if IEEE.isinf64 bits
            then (if IEEE.signbit64 bits then "_ninf64" else "_inf64")
       else doubleToAccurateString bits)%string
  /\ describe (mkType (primitive int64) c r) bytes
    = (to_string (to_int64 (readUnaligned bytes)) ++ "L")%string
  /\ (forall (e : Category) (n : nat),
       describe (mkType (array e (Some n)) c r) bytes
       = if allZero bytes then "{}"%string
         else ("{ " ++ String.concat ", "
                         (map (describe (plain e)) (elementRuns (packedSize e) n bytes))
                    ++ " }")%string)
  /\ (forall (pt : PrimitiveType) (n : nat),
       describe (mkType (vector pt n) c r) bytes
       = if allZero bytes then "{}"%string
         else ("{ " ++ String.concat ", "
                         (map (describe (plain (primitive pt)))
                              (elementRuns (PrimitiveType_size pt) n bytes))
                    ++ " }")%string)
  /\ (forall (name : string) (ms : list Category),
       describe (mkType (structure name ms) c r) bytes
       = if allZero bytes || (match ms with [] => true | _ => false end) then "{}"%string
         else ("{ " ++ String.concat ", "
                         (map (fun mr => describe (plain (fst mr)) (snd mr))
                              (memberRuns ms bytes))
                    ++ " }")%string)
  /\ describe (mkType stringLiteral c r) bytes
    = match dictionary with
      | Some d => addDoubleQuotes (d (readUnaligned bytes))
      | None => to_string (readUnaligned bytes)
      end.
Proof.
  split; [exact describe_bool|].
  split; [exact describe_float32|].
  split; [exact describe_float64|].
  split; [reflexivity|].
  split; [exact describe_array|].
  split; [exact describe_vector|].
  split; [exact describe_struct|].
  exact describe_string.
Qed.

End DefaultPrinterProperties.

(** C9, as stated, fails on the float32 zero: it prints as 0, with no f
    suffix, whatever the string helpers are. *)
Lemma float32_zero_prints_without_suffix :
  (forall SU : StringUtilities,
      @Value.getDescription SU None (Value.createFloat32 IEEE.zero32) = "0"%string)
  /\ ~ (forall (SU : StringUtilities) (bits : Z),
         exists digits : string,
           @Value.getDescription SU None (Value.createFloat32 bits)
           = (digits ++ "f")%string).
Proof.
  split.
  - intros SU. reflexivity.
  - intros H.
    destruct (H (Build_StringUtilities (fun _ => EmptyString) (fun _ => EmptyString)
                                       (fun _ => EmptyString)) IEEE.zero32)
      as [digits Hd].
    change (@Value.getDescription _ None (Value.createFloat32 IEEE.zero32))
      with "0"%string in Hd.
    destruct digits as [|a [|b digits]]; simpl in Hd; discriminate.
Qed.

(* ------------------------------------------------------------------ *)
(** ** Casting a value *)

Section CastingProperties.
Context {TR : TypeRules} {FC : FloatConversions}.

(** C3 (amended).  [v.tryCastToType (t)] returns [v] itself when [t] is
    identical to the type of [v].  Otherwise, whenever it returns, it returns
    a valid value exactly when [canCastTo (t, v.type)] holds and, for [t] an
    unsized array, [t] without its const is identical to the type of [v];
    that value has type [t] and the bytes [setFrom] writes into a zeroed
    buffer of [t], and a returned value that is not valid is the invalid
    value.  The call returns no value only when [t] is not identical, the
    cast is permitted and not refused, and an assertion of [getData] or of
    [setFrom] fails. *)
Theorem tryCastToType_outcome (v : Value.t) (t : Type_) :
  let rejected :=
    isUnsizedArray t && negb (isIdentical (removeConstIfPresent t) (Value.type v)) in
  let asserted :=
    Value.getDataChecked (Value.ofType t) = None
    \/ Value.getDataChecked v = None
    \/ PackedData.setFrom (Value.getData (Value.ofType t)) (Value.getData v) = None in
  match Value.tryCastToType v t with
  | Some result =>
      Value.isValid result
      = (if isIdentical t (Value.type v) then Value.isValid v
         else canCastTo t (Value.type v) && negb rejected)
      /\ (isIdentical t (Value.type v) = true -> result = v)
      /\ (isIdentical t (Value.type v) = false ->
          Value.isValid result = false -> result = Value.invalidValue)
      /\ (isIdentical t (Value.type v) = false -> Value.isValid result = true ->
          Value.type result = t
          /\ PackedData.setFrom (Value.getData (Value.ofType t)) (Value.getData v)
             = Some (Value.allocatedData result))
  | None =>
      isIdentical t (Value.type v) = false
      /\ canCastTo t (Value.type v) = true
      /\ rejected = false
      /\ asserted
  end
  /\ (Value.tryCastToType v t = None
      <-> isIdentical t (Value.type v) = false
          /\ canCastTo t (Value.type v) = true
          /\ rejected = false
          /\ asserted).
Proof.
  intros rejected asserted. subst rejected asserted.
  assert (Hdata : forall x d, Value.getDataChecked x = Some d -> d = Value.getData x).
  { intros x d Hx. unfold Value.getDataChecked, SOUL_ASSERT in Hx.
    destruct (Value.isValid x); [|discriminate].
    destruct (isValid (Value.type x) && negb (isVoid (Value.type x))); [|discriminate].
    injection Hx as <-. reflexivity. }
  unfold Value.tryCastToType.
  destruct (isIdentical t (Value.type v)) eqn:Hid.
  { split; [repeat split; intros; try reflexivity; discriminate |].
    split; [discriminate | intros (H & _); discriminate]. }
  destruct (canCastTo t (Value.type v)) eqn:Hcast; cbn [negb].
  2:{ split; [repeat split; intros; try reflexivity; discriminate |].
      split; [discriminate | intros (_ & H & _); discriminate]. }
  destruct (isUnsizedArray t && negb (isIdentical (removeConstIfPresent t) (Value.type v)))
    eqn:Hrej.
  { split; [repeat split; intros; try reflexivity; discriminate |].
    split; [discriminate | intros (_ & _ & H & _); discriminate]. }
  destruct (Value.getDataChecked (Value.ofType t)) as [dst|] eqn:Hdst.
  2:{ repeat split; auto. }
  destruct (Value.getDataChecked v) as [src|] eqn:Hsrc.
  2:{ repeat split; auto. }
  assert (Hvalid : isValid t = true).
  { unfold Value.getDataChecked, SOUL_ASSERT, Value.isValid in Hdst.
    cbn [Value.type Value.ofType] in Hdst.
    destruct (isValid t); [reflexivity | discriminate]. }
  rewrite (Hdata _ _ Hdst), (Hdata _ _ Hsrc).
  destruct (PackedData.setFrom (Value.getData (Value.ofType t)) (Value.getData v))
    as [bytes|] eqn:Hset.
  2:{ repeat split; auto. }
  unfold Value.isValid. cbn [Value.type Value.allocatedData].
  rewrite Hvalid.
  split; [repeat split; intros; try reflexivity; discriminate |].
  split; [discriminate |].
  intros (_ & _ & _ & [H | [H | H]]); discriminate.
Qed.

End CastingProperties.

(** C3, as stated, fails: the oracle permits the cast of a fixed-size array to
    the unsized array of its element type, and [tryCastToType] returns the
    invalid value for it. *)
Lemma tryCastToType_rejects_castable_unsized_array :
  let v := Value.ofType (plain (array (primitive float32) (Some 2%nat))) in
  let t := plain (array (primitive float32) None) in
  @canCastTo SpecTypeRules.oracle t (Value.type v) = true
  /\ forall FC : FloatConversions,
      @Value.tryCastToType SpecTypeRules.oracle FC v t = Some Value.invalidValue.
Proof. split; [reflexivity | intros FC; reflexivity]. Qed.

Lemma tryCastToType_outcome_witness :
  (forall FC : FloatConversions,
      exists result,
        @Value.tryCastToType SpecTypeRules.oracle FC
                             (Value.createInt32 5) (plain (primitive int64)) = Some result
        /\ Value.isValid result = true
        /\ Value.type result = plain (primitive int64)
        /\ Value.allocatedData result = writeUnaligned 8 5)
  /\ (forall FC : FloatConversions,
        @Value.tryCastToType SpecTypeRules.oracle FC
                             (Value.createInt64 15) (plain (boundedInt wrap 10))
        = Some (Value.mk (plain (boundedInt wrap 10)) (writeUnaligned 4 5)))
  /\ (forall FC : FloatConversions,
        @Value.tryCastToType SpecTypeRules.oracle FC
                             (Value.mk (plain (vector int32 2))
                                       (writeUnaligned 4 1 ++ writeUnaligned 4 2))
                             (plain (boundedInt wrap 10))
        = None).
Proof.
  split; [| split].
  - intros FC.
    pose proof (@tryCastToType_outcome SpecTypeRules.oracle FC
                  (Value.createInt32 5) (plain (primitive int64))) as H.
    cbv zeta in H. destruct H as [H _].
    destruct (@Value.tryCastToType SpecTypeRules.oracle FC
                (Value.createInt32 5) (plain (primitive int64))) as [result|] eqn:Hr.
    + exists result. destruct H as (Hvalid & _ & _ & Hconv).
      assert (Hv : Value.isValid result = true) by (rewrite Hvalid; reflexivity).
      destruct (Hconv eq_refl Hv) as [Hty Hset].
      repeat split; try assumption.
      vm_compute in Hset. injection Hset as Hbytes. symmetry. exact Hbytes.
    + vm_compute in Hr. discriminate.
  - intros FC. reflexivity.
  - intros FC.
    pose proof (@tryCastToType_outcome SpecTypeRules.oracle FC
                  (Value.mk (plain (vector int32 2))
                            (writeUnaligned 4 1 ++ writeUnaligned 4 2))
                  (plain (boundedInt wrap 10))) as H.
    cbv zeta in H. destruct H as [_ H]. apply H.
    repeat split; try reflexivity. right. right. reflexivity.
Defined.

(* ------------------------------------------------------------------ *)
(** ** Resolution state of the nodes of kind [unknown] *)

Section ResolutionProperties.
Context {TY : AST.Typing} {FC : FloatConversions}.

(** C4 (amended).  Of the nodes whose kind is [unknown], a qualified
    identifier, a dot operator and the two subscripts are never resolved; a
    comma-separated list is resolved exactly when all its items are, and a
    static assertion exactly when its condition is.  No node of kind
    [unknown] is resolved as a value, as a type or as a processor. *)
Theorem unknown_kind_resolution (e : AST.Expression) :
  AST.kind e = AST.unknown ->
  match e with
  | AST.CommaSeparatedList items => AST.isResolved e = forallb AST.isResolved items
  | AST.StaticAssertion condition _ => AST.isResolved e = AST.isResolved condition
  | _ => AST.isResolved e = false
  end
  /\ AST.isResolvedAsValue e = false
  /\ AST.isResolvedAsType e = false
  /\ AST.isResolvedAsProcessor e = false.
Proof.
  intros Hkind.
  unfold AST.isResolvedAsValue, AST.isResolvedAsType, AST.isResolvedAsProcessor.
  rewrite Hkind. cbn [AST.ExpressionKind_eqb]. rewrite !andb_false_r.
  split; [|repeat split].
  destruct e; cbn [AST.kind] in Hkind; try discriminate Hkind; try reflexivity.
  destruct (AST.operationReturnsAType operation); discriminate Hkind.
Qed.

End ResolutionProperties.

(** C4, as stated, fails: an empty comma-separated list has kind [unknown] and
    is resolved, and so is the static assertion of a constant. *)
Lemma resolved_nodes_of_unknown_kind :
  AST.kind (AST.CommaSeparatedList []) = AST.unknown
  /\ (forall (TY : AST.Typing) (FC : FloatConversions),
        @AST.isResolved TY FC (AST.CommaSeparatedList []) = true)
  /\ AST.kind (AST.StaticAssertion (AST.Constant (Value.createBool true)) "") = AST.unknown
  /\ (forall (TY : AST.Typing) (FC : FloatConversions),
        @AST.isResolved TY FC
           (AST.StaticAssertion (AST.Constant (Value.createBool true)) "") = true).
Proof. repeat split. Qed.

Lemma unknown_kind_resolution_witness :
  (forall (TY : AST.Typing) (FC : FloatConversions),
      @AST.isResolved TY FC (AST.QualifiedIdentifier ["x"%string]) = false)
  /\ (forall (TY : AST.Typing) (FC : FloatConversions),
        @AST.isResolved TY FC
           (AST.CommaSeparatedList [AST.Constant (Value.createInt32 1);
                                    AST.QualifiedIdentifier ["x"%string]])
        = forallb (@AST.isResolved TY FC)
                  [AST.Constant (Value.createInt32 1);
                   AST.QualifiedIdentifier ["x"%string]]).
Proof.
  split; intros TY FC.
  - exact (proj1 (@unknown_kind_resolution TY FC
                    (AST.QualifiedIdentifier ["x"%string]) eq_refl)).
  - exact (proj1 (@unknown_kind_resolution TY FC
                    (AST.CommaSeparatedList [AST.Constant (Value.createInt32 1);
                                             AST.QualifiedIdentifier ["x"%string]])
                    eq_refl)).
Defined.

(* ------------------------------------------------------------------ *)
(** ** Matching a source against a list of candidate types *)

Section SilentCastProperties.
Context {TY : AST.Typing} {TR : TypeRules}.

Lemma countSilentMatches_spec (sourceType : Type_) (source : AST.Expression)
      (targetTypes : list Type_) (matches : Z) :
  SanityCheckPass.countSilentMatches sourceType source targetTypes matches
  = if existsb (AST.isEqual_ignoreVectorSize1 sourceType) targetTypes then None
    else Some (matches
               + Z.of_nat (List.length (filter (AST.canSilentlyCastTo source) targetTypes))).
Proof.
  revert matches. induction targetTypes as [|ty rest IH]; intros matches.
  - simpl. f_equal. lia.
  - cbn [SanityCheckPass.countSilentMatches existsb filter].
    destruct (AST.isEqual_ignoreVectorSize1 sourceType ty); [reflexivity|].
    cbn [orb]. rewrite IH.
    destruct (existsb (AST.isEqual_ignoreVectorSize1 sourceType) rest); [reflexivity|].
    destruct (AST.canSilentlyCastTo source ty); cbn [List.length]; f_equal; lia.
Qed.

(** The counter of the loop stays within the number of candidates. *)
Lemma countSilentMatches_bound (sourceType : Type_) (source : AST.Expression)
      (targetTypes : list Type_) (n : Z) :
  SanityCheckPass.countSilentMatches sourceType source targetTypes 0 = Some n ->
  0 <= n <= Z.of_nat (List.length targetTypes).
Proof.
  rewrite countSilentMatches_spec.
  destruct (existsb _ targetTypes); [discriminate|].
  intros H. injection H as <-.
  pose proof (filter_length_le (AST.canSilentlyCastTo source) targetTypes). lia.
Qed.

(** C2.  Matching a source expression against candidate target types: when a
    candidate equals the source's result type under [ignoreVectorSize1] the
    match succeeds, however many candidates accept the source silently;
    otherwise no silent candidate is the implicit-cast error, two or more are
    the ambiguous-cast error, and exactly one succeeds. *)
Theorem expectSilentCastPossible_tie_breaks
        (context : CodeLocation) (targetTypes : list Type_) (source : AST.Expression) :
  let sourceType := AST.getResultType source in
  SanityCheckPass.expectSilentCastPossible context targetTypes source
  = if existsb (AST.isEqual_ignoreVectorSize1 sourceType) targetTypes then Ok
    else match List.length (filter (AST.canSilentlyCastTo source) targetTypes) with
         | O => Error (cannotImplicitlyCastType sourceType targetTypes) context
         | 1%nat => Ok
         | _ => Error (ambiguousCastBetween sourceType targetTypes) context
         end.
Proof.
  intros sourceType. unfold SanityCheckPass.expectSilentCastPossible.
  fold sourceType. rewrite countSilentMatches_spec.
  destruct (existsb (AST.isEqual_ignoreVectorSize1 sourceType) targetTypes); [reflexivity|].
  destruct (List.length (filter (AST.canSilentlyCastTo source) targetTypes)) as [|[|n]].
  - reflexivity.
  - reflexivity.
  - replace (0 + Z.of_nat (S (S n)) =? 0) with false by (symmetry; apply Z.eqb_neq; lia).
    replace (0 + Z.of_nat (S (S n)) >? 1) with true
      by (symmetry; apply Z.gtb_lt; lia).
    reflexivity.
Qed.

End SilentCastProperties.

(* ------------------------------------------------------------------ *)
(** ** The structural check of a processor or graph *)

Section OverallStructureProperties.
Context {TY : AST.Typing}.
Import AST SanityCheckPass.

Lemma checkFunction_ok (f : Function) (n : Z) :
  (isEntryPoint f = true -> isVoidAndParameterless f = true) ->
  checkFunction f n = (Ok, if isRunFunction f then n + 1 else n).
Proof.
  unfold checkFunction, isEntryPoint, isVoidAndParameterless. intros H.
  destruct (isRunFunction f) eqn:Hrun; cbn [orb].
  - specialize (H eq_refl).
    destruct (returnType f) as [r|]; [|discriminate].
    apply andb_true_iff in H. destruct H as [Hvoid Hparams].
    rewrite Hvoid. cbn [negb]. rewrite Hparams. reflexivity.
  - destruct (isUserInitFunction f) eqn:Hinit; [|reflexivity].
    specialize (H eq_refl).
    destruct (returnType f) as [r|]; [|discriminate].
    apply andb_true_iff in H. destruct H as [Hvoid Hparams].
    rewrite Hvoid. cbn [negb]. rewrite Hparams. reflexivity.
Qed.

Lemma checkFunction_bad (f : Function) (n : Z) :
  isEntryPoint f = true -> isVoidAndParameterless f = false ->
  isError (fst (checkFunction f n)) = true.
Proof.
  unfold checkFunction, isEntryPoint, isVoidAndParameterless. intros He Hbad.
  rewrite He.
  destruct (returnType f) as [r|]; [|reflexivity].
  destruct (isVoid (resolveAsType r)); cbn [negb andb] in *; [|reflexivity].
  rewrite Hbad. reflexivity.
Qed.

Lemma checkFunctions_ok (functions : list Function) (n : Z) :
  (forall f, In f functions -> isEntryPoint f = true -> isVoidAndParameterless f = true) ->
  checkFunctions functions n = (Ok, n + Z.of_nat (numberOfRunFunctions functions)).
Proof.
  revert n. induction functions as [|f rest IH]; intros n Hall.
  - cbn. f_equal. lia.
  - cbn [checkFunctions]. rewrite checkFunction_ok by (apply Hall; left; reflexivity).
    rewrite IH by (intros g Hg; apply Hall; right; exact Hg).
    unfold numberOfRunFunctions. cbn [filter].
    destruct (isRunFunction f); cbn [List.length]; f_equal; lia.
Qed.

Lemma checkFunctions_bad (functions : list Function) (n : Z) :
  (exists f, In f functions /\ isEntryPoint f = true /\ isVoidAndParameterless f = false) ->
  isError (fst (checkFunctions functions n)) = true.
Proof.
  revert n. induction functions as [|f rest IH]; intros n [g [Hin [He Hbad]]].
  - destruct Hin.
  - cbn [checkFunctions].
    destruct (checkFunction f n) as [[|m l] k] eqn:Hf.
    + apply IH. destruct Hin as [<- | Hin].
      * pose proof (checkFunction_bad f n He Hbad) as Hc. rewrite Hf in Hc. discriminate.
      * exists g. auto.
    + reflexivity.
Qed.

Lemma checkEndpoints_spec (endpoints : list EndpointDeclaration) (context : CodeLocation) :
  checkEndpointsNeedNoRunFunction endpoints context
  = if hasNonEventEndpoint endpoints then Error processorNeedsRunFunction context else Ok.
Proof.
  induction endpoints as [|e rest IH]; [reflexivity|].
  unfold hasNonEventEndpoint in *. cbn [checkEndpointsNeedNoRunFunction existsb].
  destruct (endpointDetails e) as [d|]; [|exact IH].
  destruct (negb (isEvent (detailsKind d))); [reflexivity | exact IH].
Qed.

(** C5 (amended).  A processor or graph without an output endpoint raises
    [processorNeedsAnOutput].  In a processor, a run or user-init function that
    is not void and parameterless makes the check raise an error.  In a
    processor with an output whose run and user-init functions are all void
    and parameterless: more than one run function raises
    [multipleRunFunctions]; no run function raises [processorNeedsRunFunction]
    exactly when an endpoint that is not an event endpoint is declared; one
    run function passes.  A graph with an output passes. *)
Theorem checkOverallStructureOfProcessor_spec
        (context : CodeLocation) (endpoints : list EndpointDeclaration)
        (functions : list Function)
        (instances : list ProcessorInstance) (connections : list Connection) :
  let processor := Processor context endpoints functions in
  let graph := Graph context endpoints instances connections in
  let outputs := countEndpoints endpoints false in
  let runs := numberOfRunFunctions functions in
  (outputs = O ->
     checkOverallStructureOfProcessor processor = Error processorNeedsAnOutput context
     /\ checkOverallStructureOfProcessor graph = Error processorNeedsAnOutput context)
  /\ (outputs <> O -> checkOverallStructureOfProcessor graph = Ok)
  /\ ((exists f, In f functions /\ isEntryPoint f = true
                /\ isVoidAndParameterless f = false) ->
      isError (checkOverallStructureOfProcessor processor) = true)
  /\ (outputs <> O ->
      (forall f, In f functions -> isEntryPoint f = true ->
                 isVoidAndParameterless f = true) ->
      ((1 < runs)%nat ->
         checkOverallStructureOfProcessor processor = Error multipleRunFunctions context)
      /\ (runs = O ->
          checkOverallStructureOfProcessor processor
          = if hasNonEventEndpoint endpoints
            then Error processorNeedsRunFunction context else Ok)
      /\ (runs = 1%nat -> checkOverallStructureOfProcessor processor = Ok)).
Proof.
  intros processor graph outputs runs. subst processor graph outputs.
  unfold checkOverallStructureOfProcessor, getNumOutputs. cbn [getEndpoints moduleContext].
  split; [|split; [|split]].
  - intros Hout. rewrite Hout. split; reflexivity.
  - intros Hout. apply Nat.eqb_neq in Hout. rewrite Hout. reflexivity.
  - intros Hbad. destruct (Nat.eqb (countEndpoints endpoints false) 0); [reflexivity|].
    pose proof (checkFunctions_bad functions 0 Hbad) as Hc.
    destruct (checkFunctions functions 0) as [[|m l] k]; [discriminate | reflexivity].
  - intros Hout Hok. apply Nat.eqb_neq in Hout. rewrite Hout.
    rewrite (checkFunctions_ok functions 0 Hok). fold runs.
    rewrite checkEndpoints_spec.
    split; [|split].
    + intros Hruns.
      replace (0 + Z.of_nat runs =? 0) with false by (symmetry; apply Z.eqb_neq; lia).
      replace (0 + Z.of_nat runs >? 1) with true by (symmetry; apply Z.gtb_lt; lia).
      reflexivity.
    + intros Hruns. rewrite Hruns. cbn.
      destruct (hasNonEventEndpoint endpoints); reflexivity.
    + intros Hruns. rewrite Hruns. reflexivity.
Qed.

End OverallStructureProperties.

(* ------------------------------------------------------------------ *)
(** ** The cycle detector *)

Section DepthFirstSearch.
Import AST CycleDetector.
Variable nodes : list Node.

Lemma eachSource_ok (visit : Source -> option Result) (ss : list Source) :
  eachSource visit ss = Some Ok -> forall s, In s ss -> visit s = Some Ok.
Proof.
  induction ss as [|x rest IH]; intros H s Hin; [destruct Hin|].
  cbn [eachSource] in H.
  destruct (visit x) as [[|m l]|] eqn:Hx; try discriminate.
  destruct Hin as [<- | Hin]; [exact Hx | exact (IH H s Hin)].
Qed.

Lemma eachSource_error (visit : Source -> option Result) (ss : list Source)
      (m : CompileMessage) (l : CodeLocation) :
  eachSource visit ss = Some (Error m l) ->
  exists s, In s ss /\ visit s = Some (Error m l).
Proof.
  induction ss as [|x rest IH]; intros H; [discriminate|].
  cbn [eachSource] in H.
  destruct (visit x) as [[|m' l']|] eqn:Hx; try discriminate.
  - destruct (IH H) as [s [Hin Hs]]. exists s. split; [right; exact Hin | exact Hs].
  - exists x. split; [left; reflexivity | congruence].
Qed.

Lemma eachSource_returns (visit : Source -> option Result) (ss : list Source) :
  (forall s, In s ss -> visit s <> None) -> eachSource visit ss <> None.
Proof.
  induction ss as [|x rest IH]; intros H; [discriminate|].
  cbn [eachSource].
  destruct (visit x) as [[|m l]|] eqn:Hx.
  - apply IH. intros s Hs. apply H. right. exact Hs.
  - discriminate.
  - exfalso. apply (H x); [left; reflexivity | exact Hx].
Qed.

Lemma existsb_eqb_In (n : nat) (l : list nat) :
  existsb (Nat.eqb n) l = true <-> In n l.
Proof.
  rewrite existsb_exists. split.
  - intros [x [Hin Heq]]. apply Nat.eqb_eq in Heq. subst. exact Hin.
  - intros Hin. exists n. split; [exact Hin | apply Nat.eqb_refl].
Qed.

(** A call that completes has entered no node of the stack again, however far
    it went. *)
Lemma checkNode_ok (fuel : nat) :
  forall node stack errorContext,
    checkNode fuel nodes node stack errorContext = Some Ok ->
    forall k, clos_refl_trans_1n nat (readsFrom nodes) node k -> ~ In k stack.
Proof.
  induction fuel as [|fuel IH]; intros node stack errorContext H k Hk; [discriminate|].
  cbn [checkNode] in H.
  destruct (existsb (Nat.eqb node) stack) eqn:Hon; [discriminate|].
  destruct Hk as [|i k Hstep Hrest].
  - intros Hin. apply existsb_eqb_In in Hin. congruence.
  - destruct Hstep as [s [Hs <-]].
    pose proof (eachSource_ok _ _ H s Hs) as Hvisit.
    intros Hin. apply (IH _ _ _ Hvisit k Hrest). right. exact Hin.
Qed.

Lemma checkNode_ok_no_cycle (fuel : nat) (node : nat) (stack : list nat)
      (errorContext : CodeLocation) :
  checkNode fuel nodes node stack errorContext = Some Ok ->
  ~ clos_trans_1n nat (readsFrom nodes) node node.
Proof.
  destruct fuel as [|fuel]; [discriminate|].
  cbn [checkNode]. intros H Hcycle.
  destruct (existsb (Nat.eqb node) stack) eqn:Hon; [discriminate|].
  assert (Hnext : exists i, readsFrom nodes node i
                            /\ clos_refl_trans_1n nat (readsFrom nodes) i node).
  { inversion Hcycle as [y Hstep | y z Hstep Hrest]; subst.
    - exists node. split; [exact Hstep | constructor].
    - exists y. split; [exact Hstep|].
      apply clos_rt_rt1n. apply clos_t_clos_rt.
      apply clos_t1n_trans. exact Hrest. }
  destruct Hnext as [i [[s [Hs <-]] Hback]].
  pose proof (eachSource_ok _ _ H s Hs) as Hvisit.
  apply (checkNode_ok _ _ _ _ Hvisit node Hback). left. reflexivity.
Qed.

Lemma chain_reaches (node : nat) (stack : list nat) :
  chain nodes node stack ->
  forall k, In k stack -> clos_trans nat (readsFrom nodes) k node.
Proof.
  revert node. induction stack as [|top rest IH]; intros node Hchain k Hin; [destruct Hin|].
  destruct Hchain as [Hstep Hrest].
  destruct Hin as [<- | Hin].
  - apply t_step. exact Hstep.
  - apply t_trans with top; [apply (IH top Hrest k Hin) | apply t_step; exact Hstep].
Qed.

(** A call that throws found a cycle, and its message is the trace of a
    visited stack that is not empty and holds nodes of the graph. *)
Lemma checkNode_error (fuel : nat) :
  sourcesInRange nodes ->
  forall node stack errorContext m l,
    chain nodes node stack ->
    (forall k, In k stack -> (k < List.length nodes)%nat) ->
    checkNode fuel nodes node stack errorContext = Some (Error m l) ->
    (exists k, clos_trans nat (readsFrom nodes) k k)
    /\ exists visited,
        visited <> []
        /\ (forall k, In k visited -> (k < List.length nodes)%nat)
        /\ m = feedbackInGraph (joinStrings (nodesInCycle nodes visited) " -> ").
Proof.
  intros Hrange.
  induction fuel as [|fuel IH]; intros node stack errorContext m l Hchain Hbound H;
    [discriminate|].
  cbn [checkNode] in H.
  destruct (existsb (Nat.eqb node) stack) eqn:Hon.
  - apply existsb_eqb_In in Hon.
    unfold throwCycleError in H. injection H as <- <-.
    split.
    + exists node. apply (chain_reaches node stack Hchain node Hon).
    + exists stack. split; [|split; [exact Hbound | reflexivity]].
      intros ->. destruct Hon.
  - destruct (eachSource_error _ _ _ _ H) as [s [Hs Hvisit]].
    apply (IH (sourceNode s) (node :: stack)
              (connectionContext (sourceConnection s)) m l); [| |exact Hvisit].
    + split; [exists s; split; [exact Hs | reflexivity] | exact Hchain].
    + intros k [<- | Hk]; [|apply Hbound; exact Hk].
      apply nth_error_Some. unfold sourcesOf in Hs.
      destruct (nth_error nodes node); [discriminate | destruct Hs].
Qed.

(** With fuel for every node that is not yet on the stack, and one more, a
    call returns. *)
Lemma checkNode_returns (fuel : nat) :
  sourcesInRange nodes ->
  forall node stack errorContext,
    (node < List.length nodes)%nat ->
    NoDup stack ->
    (forall k, In k stack -> (k < List.length nodes)%nat) ->
    (List.length nodes < fuel + List.length stack)%nat ->
    checkNode fuel nodes node stack errorContext <> None.
Proof.
  intros Hrange.
  induction fuel as [|fuel IH]; intros node stack errorContext Hnode Hnodup Hbound Hfuel.
  - exfalso.
    assert (Hincl : incl stack (seq 0 (List.length nodes))).
    { intros k Hk. apply in_seq. specialize (Hbound k Hk). lia. }
    pose proof (NoDup_incl_length Hnodup Hincl) as Hlen.
    rewrite length_seq in Hlen. cbn in Hfuel. lia.
  - cbn [checkNode].
    destruct (existsb (Nat.eqb node) stack) eqn:Hon; [discriminate|].
    apply eachSource_returns. intros s Hs.
    apply IH.
    + apply (Hrange node s Hs).
    + constructor; [|exact Hnodup].
      intros Hin. apply existsb_eqb_In in Hin. congruence.
    + intros k [<- | Hk]; [exact Hnode | apply Hbound; exact Hk].
    + cbn [List.length]. lia.
Qed.

Lemma checkEach_returns (fuel : nat) (roots : list nat) :
  (forall n, In n roots -> checkNode fuel nodes n [] noContext <> None) ->
  checkEach fuel nodes roots <> None.
Proof.
  induction roots as [|n rest IH]; intros H; [discriminate|].
  cbn [checkEach].
  destruct (checkNode fuel nodes n [] noContext) as [[|m l]|] eqn:Hn.
  - apply IH. intros k Hk. apply H. right. exact Hk.
  - discriminate.
  - exfalso. apply (H n); [left; reflexivity | exact Hn].
Qed.

Lemma checkEach_ok (fuel : nat) (roots : list nat) :
  checkEach fuel nodes roots = Some Ok ->
  forall n, In n roots -> checkNode fuel nodes n [] noContext = Some Ok.
Proof.
  induction roots as [|x rest IH]; intros H n Hin; [destruct Hin|].
  cbn [checkEach] in H.
  destruct (checkNode fuel nodes x [] noContext) as [[|m l]|] eqn:Hx; try discriminate.
  destruct Hin as [<- | Hin]; [exact Hx | exact (IH H n Hin)].
Qed.

Lemma checkEach_error (fuel : nat) (roots : list nat)
      (m : CompileMessage) (l : CodeLocation) :
  checkEach fuel nodes roots = Some (Error m l) ->
  exists n, In n roots /\ checkNode fuel nodes n [] noContext = Some (Error m l).
Proof.
  induction roots as [|x rest IH]; intros H; [discriminate|].
  cbn [checkEach] in H.
  destruct (checkNode fuel nodes x [] noContext) as [[|m' l']|] eqn:Hx; try discriminate.
  - destruct (IH H) as [n [Hin Hn]]. exists n. split; [right; exact Hin | exact Hn].
  - exists x. split; [left; reflexivity | congruence].
Qed.

Lemma readsFrom_in_range (j i : nat) :
  readsFrom nodes j i -> (j < List.length nodes)%nat.
Proof.
  intros [s [Hs _]]. unfold sourcesOf in Hs.
  destruct (nth_error nodes j) eqn:Hj; [|destruct Hs].
  apply nth_error_Some. congruence.
Qed.

Lemma last_default (A : Type) (x : A) (l : list A) (d d' : A) :
  last (x :: l) d = last (x :: l) d'.
Proof.
  revert x. induction l as [| y l IH]; intros x; [reflexivity |].
  change (last (y :: l) d = last (y :: l) d'). apply IH.
Qed.

Lemma chain_along (node : nat) (stack : list nat) :
  chain nodes node stack <-> along (fun a b => readsFrom nodes b a) (node :: stack).
Proof.
  revert node. induction stack as [| top rest IH]; intros node; cbn [chain along].
  - tauto.
  - rewrite (IH top). cbn [along]. tauto.
Qed.

Lemma chain_from_root (node : nat) (stack : list nat) (d : nat) :
  chain nodes node stack ->
  forall k, In k stack -> clos_refl_trans nat (readsFrom nodes) (last stack d) k.
Proof.
  revert node. induction stack as [| top rest IH]; intros node Hchain k Hin; [destruct Hin |].
  destruct Hchain as [_ Hrest].
  destruct rest as [| next rest'].
  - destruct Hin as [<- | []]. apply rt_refl.
  - change (last (top :: next :: rest') d) with (last (next :: rest') d).
    destruct Hin as [<- | Hin]; [| exact (IH top Hrest k Hin)].
    apply rt_trans with next.
    + apply (IH top Hrest next). left. reflexivity.
    + apply rt_step. exact (proj1 Hrest).
Qed.

(** A call that throws names the visited stack at the node it has come back
    to: the stack is a chain of distinct nodes that ends where the search
    began, the node come back to is on it, and the error is at the connection
    through which that node was entered again. *)
Lemma checkNode_trace (fuel : nat) :
  sourcesInRange nodes ->
  forall node stack errorContext m l root,
    chain nodes node stack ->
    NoDup stack ->
    (forall k, In k stack -> (k < List.length nodes)%nat) ->
    enteredThrough nodes node stack errorContext ->
    last (node :: stack) root = root ->
    checkNode fuel nodes node stack errorContext = Some (Error m l) ->
    exists closing visited,
      visited <> []
      /\ chain nodes closing visited
      /\ In closing visited
      /\ NoDup visited
      /\ (forall k, In k visited -> (k < List.length nodes)%nat)
      /\ enteredThrough nodes closing visited l
      /\ last visited root = root
      /\ m = feedbackInGraph (joinStrings (nodesInCycle nodes visited) " -> ").
Proof.
  intros Hrange.
  induction fuel as [| fuel IH];
    intros node stack errorContext m l root Hchain Hnodup Hbound Hentered Hlast H;
    [discriminate |].
  cbn [checkNode] in H.
  destruct (existsb (Nat.eqb node) stack) eqn:Hon.
  - apply existsb_eqb_In in Hon.
    unfold throwCycleError in H. injection H as <- <-.
    exists node, stack.
    assert (Hne : stack <> []) by (intros ->; destruct Hon).
    repeat match goal with |- _ /\ _ => split end; try assumption; try reflexivity.
    destruct stack as [| top rest]; [now destruct Hne |].
    exact Hlast.
  - destruct (eachSource_error _ _ _ _ H) as [s [Hs Hvisit]].
    assert (Hnode : (node < List.length nodes)%nat).
    { apply nth_error_Some. unfold sourcesOf in Hs.
      destruct (nth_error nodes node); [discriminate | destruct Hs]. }
    apply (IH (sourceNode s) (node :: stack)
              (connectionContext (sourceConnection s)) m l root); try assumption.
    + split; [exists s; split; [exact Hs | reflexivity] | exact Hchain].
    + constructor; [| exact Hnodup].
      intros Hin. apply existsb_eqb_In in Hin. congruence.
    + intros k [<- | Hk]; [exact Hnode | apply Hbound; exact Hk].
    + exists s. repeat split. exact Hs.
Qed.

(** A call that completes has completed on every node it reaches. *)
Lemma checkNode_ok_reaches (fuel : nat) :
  forall node stack errorContext,
    checkNode fuel nodes node stack errorContext = Some Ok ->
    forall k, clos_refl_trans_1n nat (readsFrom nodes) node k ->
    exists fuel' stack' errorContext',
      checkNode fuel' nodes k stack' errorContext' = Some Ok.
Proof.
  induction fuel as [| fuel IH]; intros node stack errorContext H k Hk; [discriminate |].
  destruct Hk as [| i k Hstep Hrest]; [eauto |].
  cbn [checkNode] in H.
  destruct (existsb (Nat.eqb node) stack); [discriminate |].
  destruct Hstep as [s [Hs <-]].
  exact (IH _ _ _ (eachSource_ok _ _ H s Hs) k Hrest).
Qed.

Lemma checkNode_ok_reaches_no_cycle (fuel : nat) (node : nat) (stack : list nat)
      (errorContext : CodeLocation) :
  checkNode fuel nodes node stack errorContext = Some Ok ->
  forall k, clos_refl_trans nat (readsFrom nodes) node k ->
            ~ clos_trans nat (readsFrom nodes) k k.
Proof.
  intros H k Hk Hcycle. apply clos_rt_rt1n in Hk.
  destruct (checkNode_ok_reaches _ _ _ _ H k Hk) as (fuel' & stack' & context' & Hok).
  apply (checkNode_ok_no_cycle _ _ _ _ Hok).
  apply clos_trans_t1n_iff. exact Hcycle.
Qed.

(** The loop of [check()] stops at the first root whose call throws. *)
Lemma checkEach_first_error (fuel : nat) (roots : list nat)
      (m : CompileMessage) (l : CodeLocation) :
  checkEach fuel nodes roots = Some (Error m l) ->
  exists before n after,
    roots = (before ++ n :: after)%list
    /\ (forall i, In i before -> checkNode fuel nodes i [] noContext = Some Ok)
    /\ checkNode fuel nodes n [] noContext = Some (Error m l).
Proof.
  induction roots as [| x rest IH]; intros H; [discriminate |].
  cbn [checkEach] in H.
  destruct (checkNode fuel nodes x [] noContext) as [[| m' l'] |] eqn:Hx; try discriminate.
  - destruct (IH H) as (before & n & after & -> & Hbefore & Hn).
    exists (x :: before), n, after. split; [reflexivity |]. split; [| exact Hn].
    intros i [<- | Hi]; [exact Hx | exact (Hbefore i Hi)].
  - exists [], x, rest. split; [reflexivity |]. split; [intros i [] | congruence].
Qed.

Lemma seq_split_at (len : nat) (before after : list nat) (n : nat) :
  seq 0 len = (before ++ n :: after)%list ->
  n = List.length before /\ forall i, (i < n)%nat -> In i before.
Proof.
  intros Hseq.
  assert (Hn : nth (List.length before) (seq 0 len) 0%nat = n).
  { rewrite Hseq, app_nth2, Nat.sub_diag by apply le_n. reflexivity. }
  assert (Hlen : (List.length before < len)%nat).
  { rewrite <- (length_seq len 0), Hseq, length_app. cbn [List.length]. lia. }
  rewrite seq_nth in Hn by exact Hlen. cbn in Hn. subst n.
  split; [reflexivity |]. intros i Hi.
  assert (Hi' : nth i (seq 0 len) 0%nat = i) by (rewrite seq_nth by lia; reflexivity).
  rewrite Hseq, app_nth1 in Hi' by exact Hi.
  rewrite <- Hi'. apply nth_In. exact Hi.
Qed.

(** [check()] on the nodes of a graph returns; it throws exactly when some
    node reads from itself through a chain of sources, and what it throws is
    the trace of the visited stack of the search: a chain of distinct nodes
    from the one entered last to the root of the search, with the node the
    search came back to on it, at the context of the connection that closes
    the cycle.  The root is the first node that reaches a cycle. *)
Lemma check_nodes_spec :
  sourcesInRange nodes ->
  exists result,
    check nodes = Some result
    /\ (isError result = true <-> exists i, clos_trans nat (readsFrom nodes) i i)
    /\ (forall m l, result = Error m l ->
        exists closing visited,
          visited <> []
          /\ chain nodes closing visited
          /\ In closing visited
          /\ NoDup visited
          /\ (forall k, In k visited -> (k < List.length nodes)%nat)
          /\ enteredThrough nodes closing visited l
          /\ clos_trans nat (readsFrom nodes) closing closing
          /\ clos_refl_trans nat (readsFrom nodes) (last visited O) closing
          /\ (forall i k, (i < last visited O)%nat ->
                          clos_refl_trans nat (readsFrom nodes) i k ->
                          ~ clos_trans nat (readsFrom nodes) k k)
          /\ m = feedbackInGraph (joinStrings (nodesInCycle nodes visited) " -> ")).
Proof.
  intros Hrange. unfold check.
  assert (Hret : checkEach (S (List.length nodes)) nodes (seq 0 (List.length nodes)) <> None).
  { apply checkEach_returns. intros n Hn. apply in_seq in Hn.
    apply checkNode_returns; try assumption.
    - lia.
    - constructor.
    - intros k [].
    - cbn [List.length]. lia. }
  destruct (checkEach (S (List.length nodes)) nodes (seq 0 (List.length nodes)))
    as [result|] eqn:Hcheck; [|congruence].
  exists result. split; [reflexivity|]. split; [split|].
  - destruct result as [|m l]; [discriminate|]. intros _.
    destruct (checkEach_error _ _ _ _ Hcheck) as [n [_ Hn]].
    apply (checkNode_error _ Hrange n [] noContext m l I (fun k (H : In k []) => match H with end) Hn).
  - intros [i Hcycle].
    destruct result as [|m l]; [|reflexivity]. exfalso.
    assert (Hi : (i < List.length nodes)%nat).
    { apply clos_trans_t1n_iff in Hcycle.
      inversion Hcycle as [y Hstep | y z Hstep _]; subst;
        apply (readsFrom_in_range _ _ Hstep). }
    assert (Hroot : In i (seq 0 (List.length nodes))) by (apply in_seq; lia).
    pose proof (checkEach_ok _ _ Hcheck i Hroot) as Hok.
    apply (checkNode_ok_no_cycle _ _ _ _ Hok).
    apply clos_trans_t1n_iff. exact Hcycle.
  - intros m l ->.
    destruct (checkEach_first_error _ _ _ _ Hcheck)
      as (before & n & after & Hseq & Hbefore & Hn).
    destruct (seq_split_at _ _ _ _ Hseq) as [_ Hsmaller].
    destruct (checkNode_trace _ Hrange n [] noContext m l n I (NoDup_nil nat)
                              (fun k (H : In k []) => match H with end) I eq_refl Hn)
      as (closing & visited & Hne & Hchain & Hclosing & Hnodup & Hbound & Hentered
          & Hlast & Hm).
    exists closing, visited.
    repeat match goal with |- _ /\ _ => split end; try assumption.
    + exact (chain_reaches closing visited Hchain closing Hclosing).
    + exact (chain_from_root closing visited O Hchain closing Hclosing).
    + intros i k Hi Hreach.
      assert (Hroot : last visited O = n).
      { destruct visited as [| v visited]; [now destruct Hne |].
        rewrite (last_default _ v visited O n). exact Hlast. }
      rewrite Hroot in Hi.
      exact (checkNode_ok_reaches_no_cycle _ _ _ _ (Hbefore i (Hsmaller i Hi)) k Hreach).
Qed.

End DepthFirstSearch.

Lemma clos_trans_reversed (R S : nat -> nat -> Prop) (x y : nat) :
  clos_trans nat R x y -> (forall a b, R a b -> S b a) -> clos_trans nat S y x.
Proof.
  intros H Hrev. induction H as [x y Hxy | x y z _ IH1 _ IH2].
  - apply t_step. apply Hrev. exact Hxy.
  - apply t_trans with y; assumption.
Qed.

Lemma clos_refl_trans_reversed (R S : nat -> nat -> Prop) (x y : nat) :
  clos_refl_trans nat R x y -> (forall a b, R a b -> S b a) -> clos_refl_trans nat S y x.
Proof.
  intros H Hrev. induction H as [x y Hxy | x | x y z _ IH1 _ IH2].
  - apply rt_step. apply Hrev. exact Hxy.
  - apply rt_refl.
  - apply rt_trans with y; assumption.
Qed.

Lemma along_impl (R S : nat -> nat -> Prop) (trace : list nat) :
  (forall a b, R a b -> S a b) ->
  CycleDetector.along R trace -> CycleDetector.along S trace.
Proof.
  intros Himpl. induction trace as [| a rest IH]; [exact (fun H => H) |].
  cbn [CycleDetector.along]. intros [Hstep Hrest]. split; [| exact (IH Hrest)].
  destruct rest as [| b rest']; [exact I | exact (Himpl a b Hstep)].
Qed.

Section GraphConstruction.
Import AST CycleDetector.

Lemma findIndex_processors (a b : list Node) (n : Name) (k : nat) :
  map processor a = map processor b -> findIndex a n k = findIndex b n k.
Proof.
  revert b k. induction a as [|x a IH]; intros [|y b] k H; try discriminate; [reflexivity|].
  cbn [map] in H. injection H as Hxy Hab.
  cbn [findIndex]. rewrite Hxy. rewrite (IH b (S k) Hab). reflexivity.
Qed.

Lemma findIndex_bound (nodes : list Node) (n : Name) (k i : nat) :
  findIndex nodes n k = Some i -> (k <= i < k + List.length nodes)%nat.
Proof.
  revert k. induction nodes as [|x nodes IH]; intros k H; [discriminate|].
  cbn [findIndex] in H. cbn [List.length].
  destruct (Name_eqb n (instanceName (processor x))).
  - injection H as <-. lia.
  - specialize (IH (S k) H). lia.
Qed.

Lemma addSource_processors (nodes : list Node) (d : nat) (s : Source) :
  map processor (addSource nodes d s) = map processor nodes.
Proof.
  revert d. induction nodes as [|x nodes IH]; intros [|d]; cbn; try reflexivity.
  rewrite IH. reflexivity.
Qed.

Lemma addSource_sources (nodes : list Node) (d : nat) (s : Source) (j : nat) :
  (d < List.length nodes)%nat ->
  sourcesOf (addSource nodes d s) j
  = if Nat.eqb j d then (sourcesOf nodes j ++ [s])%list else sourcesOf nodes j.
Proof.
  unfold sourcesOf. revert d j.
  induction nodes as [|x nodes IH]; intros d j Hd; [cbn in Hd; lia|].
  destruct d as [|d]; destruct j as [|j]; cbn; try reflexivity.
  apply IH. cbn in Hd. lia.
Qed.

Lemma connectionEdge_processors (a b : list Node) (c : Connection) :
  map processor a = map processor b -> connectionEdge a c = connectionEdge b c.
Proof.
  intros H. unfold connectionEdge, findNode.
  rewrite !(findIndex_processors a b) by exact H. reflexivity.
Qed.

Variable instances : list ProcessorInstance.
Local Abbreviation initial := (map (fun i => mkNode i []) instances).

Lemma initial_length : List.length initial = List.length instances.
Proof. apply length_map. Qed.

Lemma initial_sources (j : nat) : sourcesOf initial j = [].
Proof.
  unfold sourcesOf. rewrite nth_error_map.
  destruct (nth_error instances j); reflexivity.
Qed.

Lemma connectionEdge_feeds (c : Connection) (i j : nat) :
  connectionEdge initial c = Done (Some (i, j))
  <-> delayLength c = None
      /\ instanceIndex instances (processorName (source c)) = Some i
      /\ instanceIndex instances (processorName (dest c)) = Some j.
Proof.
  unfold connectionEdge, findNode, instanceIndex.
  destruct (delayLength c); [split; [discriminate | intros [H _]; discriminate]|].
  destruct (path (processorName (source c))) as [|a p].
  { split; [discriminate | intros (_ & H & _); discriminate]. }
  destruct (findIndex initial (processorName (source c)) 0) as [src|].
  2:{ split; [discriminate | intros (_ & H & _); discriminate]. }
  destruct (path (processorName (dest c))) as [|b q].
  { split; [discriminate | intros (_ & _ & H); discriminate]. }
  destruct (findIndex initial (processorName (dest c)) 0) as [dst|].
  2:{ split; [discriminate | intros (_ & _ & H); discriminate]. }
  split.
  - intros H. injection H as <- <-. repeat split.
  - intros (_ & H1 & H2). injection H1 as <-. injection H2 as <-. reflexivity.
Qed.

Lemma connectionEdge_thrown (c : Connection) :
  namesUnknownProcessor instances c = true
  <-> exists m l, connectionEdge initial c = Thrown m l.
Proof.
  unfold namesUnknownProcessor, isUnknownName, connectionEdge, findNode, instanceIndex.
  destruct (delayLength c).
  { split; [discriminate | intros (m & l & H); discriminate]. }
  destruct (path (processorName (source c))) as [|a p].
  { cbn. split; [discriminate | intros (m & l & H); discriminate]. }
  destruct (findIndex initial (processorName (source c)) 0) as [src|].
  2:{ cbn. split; [intros _; eauto | reflexivity]. }
  cbn [orb].
  destruct (path (processorName (dest c))) as [|b q].
  { split; [discriminate | intros (m & l & H); discriminate]. }
  destruct (findIndex initial (processorName (dest c)) 0) as [dst|].
  - split; [discriminate | intros (m & l & H); discriminate].
  - split; [intros _; eauto | reflexivity].
Qed.

Lemma connectionEdge_thrown_message (c : Connection) (m : CompileMessage) (l : CodeLocation) :
  connectionEdge initial c = Thrown m l -> exists p, m = cannotFindProcessor p.
Proof.
  unfold connectionEdge, findNode.
  destruct (delayLength c); [discriminate|].
  destruct (path (processorName (source c))) as [|a p]; [discriminate|].
  destruct (findIndex initial (processorName (source c)) 0) as [src|].
  2:{ intros H. injection H as <- _. eauto. }
  destruct (path (processorName (dest c))) as [|b q]; [discriminate|].
  destruct (findIndex initial (processorName (dest c)) 0) as [dst|]; [discriminate|].
  intros H. injection H as <- _. eauto.
Qed.

Lemma connectionEdge_in_range (c : Connection) (i j : nat) :
  connectionEdge initial c = Done (Some (i, j)) ->
  (i < List.length initial)%nat /\ (j < List.length initial)%nat.
Proof.
  unfold connectionEdge, findNode.
  destruct (delayLength c); [discriminate|].
  destruct (path (processorName (source c))) as [|a p]; [discriminate|].
  destruct (findIndex initial (processorName (source c)) 0) as [src|] eqn:Hs; [|discriminate].
  destruct (path (processorName (dest c))) as [|b q]; [discriminate|].
  destruct (findIndex initial (processorName (dest c)) 0) as [dst|] eqn:Hd; [|discriminate].
  intros H. injection H as <- <-.
  apply findIndex_bound in Hs. apply findIndex_bound in Hd. lia.
Qed.

(** What the loop of the constructor leaves in the nodes. *)
Lemma addConnections_done (connections : list Connection) :
  forall nodes built,
    map processor nodes = map processor initial ->
    addConnections connections nodes = Done built ->
    map processor built = map processor initial
    /\ forall j s,
        In s (sourcesOf built j)
        <-> In s (sourcesOf nodes j)
            \/ (In (sourceConnection s) connections
                /\ connectionEdge initial (sourceConnection s) = Done (Some (sourceNode s, j))).
Proof.
  induction connections as [|c rest IH]; intros nodes built Hproc H.
  - cbn in H. injection H as <-. split; [exact Hproc|].
    intros j s. split; [auto | intros [H | [[] _]]; exact H].
  - cbn [addConnections] in H.
    rewrite (connectionEdge_processors nodes initial c Hproc) in H.
    destruct (connectionEdge initial c) as [[[src dst]|]|m l] eqn:Hc; [| |discriminate].
    + assert (Hproc' : map processor (addSource nodes dst (mkSource src c))
                       = map processor initial)
        by (rewrite addSource_processors; exact Hproc).
      destruct (IH _ _ Hproc' H) as [Hbuilt Hsources].
      split; [exact Hbuilt|].
      intros j s. rewrite Hsources.
      destruct (connectionEdge_in_range c src dst Hc) as [_ Hdst].
      assert (Hlen : List.length nodes = List.length initial).
      { rewrite <- (length_map processor nodes), Hproc, length_map. reflexivity. }
      rewrite addSource_sources by lia.
      destruct (Nat.eqb j dst) eqn:Hj.
      * apply Nat.eqb_eq in Hj. subst j. rewrite in_app_iff. cbn [In].
        split.
        -- intros [[Hin | [<- | []]] | [Hin Hedge]].
           ++ left. exact Hin.
           ++ right. cbn. split; [left; reflexivity | exact Hc].
           ++ right. split; [right; exact Hin | exact Hedge].
        -- intros [Hin | [[Heq | Hin] Hedge]].
           ++ left. left. exact Hin.
           ++ left. right. left. destruct s as [sn sc]. cbn in *. subst sc.
              rewrite Hc in Hedge. injection Hedge as <-. reflexivity.
           ++ right. split; [exact Hin | exact Hedge].
      * apply Nat.eqb_neq in Hj.
        split.
        -- intros [Hin | [Hin Hedge]]; [left; exact Hin|].
           right. split; [right; exact Hin | exact Hedge].
        -- intros [Hin | [[Heq | Hin] Hedge]]; [left; exact Hin | |].
           ++ exfalso. rewrite <- Heq in Hedge. rewrite Hc in Hedge.
              injection Hedge as _ Hd. congruence.
           ++ right. split; [exact Hin | exact Hedge].
    + destruct (IH _ _ Hproc H) as [Hbuilt Hsources].
      split; [exact Hbuilt|].
      intros j s. rewrite Hsources.
      split.
      * intros [Hin | [Hin Hedge]]; [left; exact Hin|].
        right. split; [right; exact Hin | exact Hedge].
      * intros [Hin | [[Heq | Hin] Hedge]]; [left; exact Hin | |].
        -- exfalso. rewrite <- Heq in Hedge. congruence.
        -- right. split; [exact Hin | exact Hedge].
Qed.

Lemma addConnections_thrown (connections : list Connection) :
  forall nodes m l,
    map processor nodes = map processor initial ->
    addConnections connections nodes = Thrown m l ->
    exists c, In c connections /\ connectionEdge initial c = Thrown m l.
Proof.
  induction connections as [|c rest IH]; intros nodes m l Hproc H; [discriminate|].
  cbn [addConnections] in H.
  rewrite (connectionEdge_processors nodes initial c Hproc) in H.
  destruct (connectionEdge initial c) as [[[src dst]|]|m' l'] eqn:Hc.
  - assert (Hproc' : map processor (addSource nodes dst (mkSource src c))
                     = map processor initial)
      by (rewrite addSource_processors; exact Hproc).
    destruct (IH _ _ _ Hproc' H) as [c' [Hin Hc']].
    exists c'. split; [right; exact Hin | exact Hc'].
  - destruct (IH _ _ _ Hproc H) as [c' [Hin Hc']].
    exists c'. split; [right; exact Hin | exact Hc'].
  - exists c. split; [left; reflexivity | congruence].
Qed.

Lemma addConnections_completes (connections : list Connection) :
  forall nodes,
    map processor nodes = map processor initial ->
    (forall c, In c connections -> namesUnknownProcessor instances c = false) ->
    exists built, addConnections connections nodes = Done built.
Proof.
  induction connections as [|c rest IH]; intros nodes Hproc Hknown; [cbn; eauto|].
  cbn [addConnections].
  rewrite (connectionEdge_processors nodes initial c Hproc).
  destruct (connectionEdge initial c) as [[[src dst]|]|m l] eqn:Hc.
  - apply IH; [rewrite addSource_processors; exact Hproc|].
    intros c' Hc'. apply Hknown. right. exact Hc'.
  - apply IH; [exact Hproc|]. intros c' Hc'. apply Hknown. right. exact Hc'.
  - exfalso.
    assert (Hu : namesUnknownProcessor instances c = true)
      by (apply connectionEdge_thrown; eauto).
    rewrite (Hknown c (or_introl eq_refl)) in Hu. discriminate.
Qed.

Lemma addConnections_ignores_delays (connections : list Connection) :
  forall nodes,
    addConnections (filter hasNoDelay connections) nodes = addConnections connections nodes.
Proof.
  induction connections as [|c rest IH]; intros nodes; [reflexivity|].
  cbn [filter addConnections]. unfold hasNoDelay at 1.
  destruct (delayLength c) as [d|] eqn:Hd.
  - unfold connectionEdge. rewrite Hd. apply IH.
  - cbn [addConnections].
    destruct (connectionEdge nodes c) as [[[src dst]|]|m l]; [apply IH | apply IH | reflexivity].
Qed.

Lemma built_nameOf (built : list Node) (k : nat) :
  map processor built = map processor initial ->
  nameOf built k = instanceNameAt instances k.
Proof.
  intros Hproc. rewrite map_map in Hproc. cbn in Hproc. rewrite map_id in Hproc.
  unfold nameOf, instanceNameAt. rewrite <- Hproc, nth_error_map.
  destruct (nth_error built k); reflexivity.
Qed.

Lemma connectionEdge_thrown_exact (c : Connection) :
  namesUnknownProcessor instances c = true ->
  connectionEdge initial c
  = Thrown (cannotFindProcessor (path (unknownName instances c)))
           (nameLocation (unknownName instances c)).
Proof.
  unfold namesUnknownProcessor, unknownName, connectionEdge, findNode.
  destruct (delayLength c); [discriminate |].
  unfold isUnknownName, instanceIndex.
  destruct (path (processorName (source c))) as [| a p] eqn:Hsource; [discriminate |].
  destruct (findIndex initial (processorName (source c)) 0) as [src |].
  2:{ intros _. now rewrite Hsource. }
  cbn [orb].
  destruct (path (processorName (dest c))) as [| b q] eqn:Hdest; [discriminate |].
  destruct (findIndex initial (processorName (dest c)) 0) as [dst |]; [discriminate |].
  intros _. reflexivity.
Qed.

Lemma addConnections_first_unknown (before : list Connection) (c : Connection)
      (after : list Connection) :
  forall nodes,
    map processor nodes = map processor initial ->
    (forall x, In x before -> namesUnknownProcessor instances x = false) ->
    namesUnknownProcessor instances c = true ->
    addConnections (before ++ c :: after) nodes
    = Thrown (cannotFindProcessor (path (unknownName instances c)))
             (nameLocation (unknownName instances c)).
Proof.
  induction before as [| x before IH]; intros nodes Hproc Hbefore Hc; cbn [app addConnections].
  - rewrite (connectionEdge_processors nodes initial c Hproc).
    now rewrite (connectionEdge_thrown_exact c Hc).
  - rewrite (connectionEdge_processors nodes initial x Hproc).
    destruct (connectionEdge initial x) as [[[src dst] |] | m l] eqn:Hx.
    + apply IH; [rewrite addSource_processors; exact Hproc | | exact Hc].
      intros y Hy. apply Hbefore. right. exact Hy.
    + apply IH; [exact Hproc | | exact Hc].
      intros y Hy. apply Hbefore. right. exact Hy.
    + exfalso.
      assert (Hu : namesUnknownProcessor instances x = true)
        by (apply connectionEdge_thrown; eauto).
      rewrite (Hbefore x (or_introl eq_refl)) in Hu. discriminate.
Qed.

Lemma first_unknown (connections : list Connection) :
  forallb (fun c => negb (namesUnknownProcessor instances c)) connections = false ->
  exists before c after,
    connections = (before ++ c :: after)%list
    /\ forallb (fun c => negb (namesUnknownProcessor instances c)) before = true
    /\ namesUnknownProcessor instances c = true.
Proof.
  induction connections as [| x rest IH]; [discriminate |].
  cbn [forallb]. destruct (namesUnknownProcessor instances x) eqn:Hx; cbn [negb andb].
  - intros _. exists [], x, rest. repeat split. exact Hx.
  - intros H. destruct (IH H) as (before & c & after & -> & Hbefore & Hc).
    exists (x :: before), c, after. split; [reflexivity |]. split; [| exact Hc].
    cbn [forallb]. now rewrite Hx.
Qed.

(** C6 (amended).  A connection without a delay is looked up by the names of
    its two ends: it names an unknown processor when its source is a name
    that no instance has, or when its source is an instance and its
    destination a name that no instance has; the destination of a connection
    from the graph itself (an empty name) is not looked up.

    When no connection names an unknown processor, the cycle detector
    returns, and it raises an error exactly when some instance feeds itself
    through a chain of connections without a delay.  The error is
    [feedbackInGraph] with the trace of the search: the names, joined by
    arrows, of distinct instances of which each feeds the next through a
    connection without a delay, and the first name again at the end.  An
    instance of the trace feeds its first instance, which closes a cycle, and
    the error is at that connection; the last instance of the trace is where
    the search began, the first instance of the graph that is fed from a
    cycle, so that the instances of the trace after the one that closes the
    cycle need not be on a cycle.

    When some connection names an unknown processor, the detector raises
    [cannotFindProcessor] for the unknown name of the first such connection,
    whatever the cycles.  Connections with a delay never matter: dropping
    them changes nothing. *)
Theorem cycle_detector_spec (connections : list Connection) :
  (forallb (fun c => negb (namesUnknownProcessor instances c)) connections = true ->
   exists result,
     run instances connections = Some result
     /\ (isError result = true
         <-> exists i, clos_trans nat (feeds instances connections) i i)
     /\ (forall m l, result = Error m l ->
         exists first rest closing c,
           m = feedbackInGraph
                 (joinStrings (map (instanceNameAt instances) (first :: rest ++ [first]))
                              " -> ")
           /\ NoDup (first :: rest)
           /\ (forall k, In k (first :: rest) -> (k < List.length instances)%nat)
           /\ along (feeds instances connections) (first :: rest)
           /\ In closing (first :: rest)
           /\ In c connections
           /\ delayLength c = None
           /\ instanceIndex instances (processorName (source c)) = Some closing
           /\ instanceIndex instances (processorName (dest c)) = Some first
           /\ l = connectionContext c
           /\ clos_trans nat (feeds instances connections) closing closing
           /\ clos_refl_trans nat (feeds instances connections)
                              closing (last (first :: rest) O)
           /\ (forall i k, (i < last (first :: rest) O)%nat ->
                 clos_refl_trans nat (feeds instances connections) k i ->
                 ~ clos_trans nat (feeds instances connections) k k)))
  /\ (forallb (fun c => negb (namesUnknownProcessor instances c)) connections = false ->
      exists before c after,
        connections = (before ++ c :: after)%list
        /\ forallb (fun c => negb (namesUnknownProcessor instances c)) before = true
        /\ namesUnknownProcessor instances c = true
        /\ run instances connections
           = Some (Error (cannotFindProcessor (path (unknownName instances c)))
                         (nameLocation (unknownName instances c))))
  /\ run instances (filter hasNoDelay connections) = run instances connections.
Proof.
  split; [|split].
  - intros Hknown. rewrite forallb_forall in Hknown.
    assert (Hknown' : forall c, In c connections -> namesUnknownProcessor instances c = false).
    { intros c Hc. specialize (Hknown c Hc). destruct (namesUnknownProcessor instances c);
        [discriminate | reflexivity]. }
    destruct (addConnections_completes connections initial eq_refl Hknown') as [built Hbuilt].
    destruct (addConnections_done connections initial built eq_refl Hbuilt)
      as [Hproc Hsources].
    assert (Hlen : List.length built = List.length initial).
    { rewrite <- (length_map processor built), Hproc, length_map. reflexivity. }
    assert (Hedge : forall j s,
               In s (sourcesOf built j) ->
               In (sourceConnection s) connections
               /\ delayLength (sourceConnection s) = None
               /\ instanceIndex instances (processorName (source (sourceConnection s)))
                  = Some (sourceNode s)
               /\ instanceIndex instances (processorName (dest (sourceConnection s)))
                  = Some j).
    { intros j s Hs. apply Hsources in Hs.
      destruct Hs as [Hs | [Hin Hdone]]; [rewrite initial_sources in Hs; destruct Hs |].
      split; [exact Hin |]. apply connectionEdge_feeds. exact Hdone. }
    assert (Hreads : forall j i, readsFrom built j i <-> feeds instances connections i j).
    { intros j i. unfold readsFrom, feeds. split.
      - intros [s [Hs <-]]. exists (sourceConnection s). exact (Hedge j s Hs).
      - intros [c (Hin & Hd & Hi & Hj)].
        exists (mkSource i c). split; [|reflexivity].
        apply Hsources. right. cbn. split; [exact Hin|].
        apply connectionEdge_feeds. auto. }
    assert (Hrange : sourcesInRange built).
    { intros j s Hs. apply Hsources in Hs.
      destruct Hs as [Hs | [_ Hdone]]; [rewrite initial_sources in Hs; destruct Hs|].
      rewrite Hlen. apply (connectionEdge_in_range _ _ _ Hdone). }
    destruct (check_nodes_spec built Hrange) as (result & Hcheck & Hiff & Htrace).
    exists result. unfold run, create. rewrite Hbuilt.
    split; [exact Hcheck|]. split.
    + rewrite Hiff. split; intros [i Hi]; exists i.
      * apply (clos_trans_reversed _ _ i i Hi). intros a b. apply Hreads.
      * apply (clos_trans_reversed _ _ i i Hi). intros a b. apply Hreads.
    + intros m l Hr.
      destruct (Htrace m l Hr)
        as (closing & visited & Hne & Hchain & Hclosing & Hnodup & Hbound & Hentered
            & Hcycle & Hfed & Hroot & ->).
      destruct visited as [| first rest]; [now destruct Hne |].
      cbn [enteredThrough] in Hentered. destruct Hentered as (s & Hs & Hsource & ->).
      destruct (Hedge first s Hs) as (Hin & Hdelay & Hfrom & Hto).
      rewrite Hsource in Hfrom.
      exists first, rest, closing, (sourceConnection s).
      repeat match goal with |- _ /\ _ => split end; try assumption; try reflexivity.
      * unfold nodesInCycle. cbn [map]. rewrite map_app. cbn [map app].
        rewrite !(built_nameOf built _ Hproc).
        rewrite (map_ext (nameOf built) (instanceNameAt instances)
                         (fun k => built_nameOf built k Hproc)).
        reflexivity.
      * intros k Hk. rewrite <- initial_length, <- Hlen. exact (Hbound k Hk).
      * apply chain_along in Hchain.
        assert (Htail : along (fun a b => readsFrom built b a) (first :: rest))
          by exact (proj2 Hchain).
        revert Htail. apply along_impl. intros a b. apply Hreads.
      * apply (clos_trans_reversed _ _ closing closing Hcycle). intros a b. apply Hreads.
      * apply (clos_refl_trans_reversed _ _ _ _ Hfed). intros a b. apply Hreads.
      * intros i k Hi Hreach Hloop.
        apply (Hroot i k Hi).
        -- apply (clos_refl_trans_reversed _ _ k i Hreach). intros a b. apply Hreads.
        -- apply (clos_trans_reversed _ _ k k Hloop). intros a b. apply Hreads.
  - intros Hunknown.
    destruct (first_unknown connections Hunknown) as (before & c & after & -> & Hbefore & Hc).
    exists before, c, after. split; [reflexivity |]. split; [exact Hbefore |].
    split; [exact Hc |].
    unfold run, create.
    rewrite (addConnections_first_unknown before c after initial eq_refl); [reflexivity | | exact Hc].
    intros x Hx. rewrite forallb_forall in Hbefore. specialize (Hbefore x Hx).
    now destruct (namesUnknownProcessor instances x).
  - unfold run, create. rewrite addConnections_ignores_delays. reflexivity.
Qed.

End GraphConstruction.

Lemma cycle_detector_spec_witness :
  CycleDetector.run Examples.abc Examples.ring
  = Some (Error (feedbackInGraph "b -> c -> a -> b") 1%nat)
  /\ (exists i, clos_trans nat (CycleDetector.feeds Examples.abc Examples.ring) i i)
  /\ CycleDetector.run Examples.abc Examples.delayedRing = Some Ok
  /\ ~ (exists i, clos_trans nat (CycleDetector.feeds Examples.abc Examples.delayedRing) i i)
  /\ CycleDetector.run [Examples.instance "a"] Examples.fromGraphToUnknown = Some Ok.
Proof.
  destruct (proj1 (cycle_detector_spec Examples.abc Examples.ring) eq_refl)
    as (ringResult & HringRun & HringIff & _).
  destruct (proj1 (cycle_detector_spec Examples.abc Examples.delayedRing) eq_refl)
    as (delayedResult & HdelayedRun & HdelayedIff & _).
  destruct (proj1 (cycle_detector_spec [Examples.instance "a"] Examples.fromGraphToUnknown)
                  eq_refl)
    as (skippedResult & HskippedRun & _).
  vm_compute in HringRun. injection HringRun as <-.
  vm_compute in HdelayedRun. injection HdelayedRun as <-.
  split; [vm_compute; reflexivity|].
  split; [apply HringIff; reflexivity|].
  split; [vm_compute; reflexivity|].
  split; [| rewrite HskippedRun; vm_compute in HskippedRun; symmetry; exact HskippedRun].
  intros Hcycle. apply HdelayedIff in Hcycle. discriminate.
Defined.

(** C6, as stated, fails: a connection without a delay from a processor that
    the graph does not have makes the detector raise an error, and the graph
    has no cycle. *)
Lemma unknown_processor_is_not_a_cycle :
  CycleDetector.run [Examples.instance "a"] Examples.dangling
  = Some (Error (cannotFindProcessor ["x"%string]) 1%nat)
  /\ ~ (exists i, clos_trans nat
                    (CycleDetector.feeds [Examples.instance "a"] Examples.dangling) i i).
Proof.
  split; [vm_compute; reflexivity|].
  intros [i Hcycle]. apply clos_trans_t1n in Hcycle.
  assert (Hstep : exists y, CycleDetector.feeds [Examples.instance "a"] Examples.dangling i y).
  { inversion Hcycle; subst; eauto. }
  destruct Hstep as [y [c (Hin & _ & Hsrc & _)]].
  destruct Hin as [<- | []]. vm_compute in Hsrc. discriminate.
Qed.

(** C5, as stated, fails: a processor with two run functions and no output
    raises [processorNeedsAnOutput], not [multipleRunFunctions]; and a
    processor with no run function, no output and only an event endpoint
    raises an error although it declares no endpoint that is not an event
    endpoint. *)
Lemma structure_errors_in_order :
  SanityCheckPass.numberOfRunFunctions [Examples.runFunction 10%nat; Examples.runFunction 11%nat]
  = 2%nat
  /\ (forall TY : AST.Typing,
        @SanityCheckPass.checkOverallStructureOfProcessor TY Examples.twoRunsNoOutput
        = Error processorNeedsAnOutput 0%nat)
  /\ Error processorNeedsAnOutput 0%nat <> Error multipleRunFunctions 0%nat
  /\ SanityCheckPass.hasNonEventEndpoint [Examples.eventInput] = false
  /\ (forall TY : AST.Typing,
        isError (@SanityCheckPass.checkOverallStructureOfProcessor
                   TY Examples.eventsOnlyNoOutput) = true).
Proof.
  split; [reflexivity|]. split; [intros TY; reflexivity|].
  split; [discriminate|]. split; [reflexivity | intros TY; reflexivity].
Qed.

Lemma checkOverallStructureOfProcessor_spec_witness :
  @SanityCheckPass.checkOverallStructureOfProcessor Examples.typing Examples.twoRuns
  = Error multipleRunFunctions 0%nat
  /\ @SanityCheckPass.checkOverallStructureOfProcessor
       Examples.typing (AST.Processor 0%nat [Examples.eventOutput] [])
     = Ok
  /\ @SanityCheckPass.checkOverallStructureOfProcessor
       Examples.typing (AST.Processor 0%nat [Examples.streamOutput] [])
     = Error processorNeedsRunFunction 0%nat.
Proof.
  pose proof (@checkOverallStructureOfProcessor_spec Examples.typing 0%nat
                [Examples.streamOutput]
                [Examples.runFunction 10%nat; Examples.runFunction 11%nat] [] []) as Htwo.
  pose proof (@checkOverallStructureOfProcessor_spec Examples.typing 0%nat
                [Examples.eventOutput] [] [] []) as Hevents.
  pose proof (@checkOverallStructureOfProcessor_spec Examples.typing 0%nat
                [Examples.streamOutput] [] [] []) as Hstream.
  cbv zeta in Htwo, Hevents, Hstream.
  destruct Htwo as (_ & _ & _ & Htwo).
  destruct Hevents as (_ & _ & _ & Hevents).
  destruct Hstream as (_ & _ & _ & Hstream).
  split; [|split].
  - refine (proj1 (Htwo _ _) _).
    + discriminate.
    + intros f [<- | [<- | []]] _; reflexivity.
    + vm_compute. lia.
  - refine (proj1 (proj2 (Hevents _ _)) _).
    + discriminate.
    + intros f [].
    + reflexivity.
  - refine (proj1 (proj2 (Hstream _ _)) _).
    + discriminate.
    + intros f [].
    + reflexivity.
Defined.

(** The candidates of C2 on examples: two silent candidates are ambiguous, one
    is accepted, an exact candidate wins over two silent ones, and none is the
    implicit-cast error. *)
Example expectSilentCastPossible_examples :
  let one := AST.Constant (Value.createInt32 1) in
  let expect := @SanityCheckPass.expectSilentCastPossible
                  Examples.typing SpecTypeRules.oracle 7%nat in
  expect [Examples.int64Type; Examples.float64Type] one
  = Error (ambiguousCastBetween Examples.int32Type
                                [Examples.int64Type; Examples.float64Type]) 7%nat
  /\ expect [Examples.int64Type; Examples.boolType] one = Ok
  /\ expect [Examples.int64Type; Examples.float64Type; Examples.int32Type] one = Ok
  /\ expect [Examples.boolType] one
     = Error (cannotImplicitlyCastType Examples.int32Type [Examples.boolType]) 7%nat.
Proof. repeat split. Qed.

(* ================================================================== *)
(** ** The recursion stack of type declarations *)

Section RecursionStack.
Import TypeDeclarations.
Local Open Scope nat_scope.

Lemma existsb_eqb_stack (t : nat) (stack : list nat) :
  existsb (Nat.eqb t) stack = true <-> In t stack.
Proof.
  rewrite existsb_exists. split.
  - intros [x [Hin Heq]]. apply Nat.eqb_eq in Heq. now subst.
  - intros Hin. exists t. split; [assumption | apply Nat.eqb_refl].
Qed.

Lemma push_on_top (arena : list TypeDeclaration) (stack : list nat) (t : nat) :
  In t stack -> last stack O = t ->
  push arena stack t = Refused (typeContainsItself (nameAt arena t)) (contextAt arena t).
Proof.
  intros Hin Htop. unfold push.
  rewrite (proj2 (existsb_eqb_stack t stack) Hin), (proj2 (Nat.eqb_eq _ _) Htop).
  reflexivity.
Qed.

Lemma push_below_top (arena : list TypeDeclaration) (stack : list nat) (t : nat) :
  In t stack -> last stack O <> t ->
  push arena stack t =
  Refused (typesReferToEachOther (nameAt arena t) (nameAt arena (last stack O)))
          (contextAt arena t).
Proof.
  intros Hin Htop. unfold push.
  rewrite (proj2 (existsb_eqb_stack t stack) Hin), (proj2 (Nat.eqb_neq _ _) Htop).
  reflexivity.
Qed.

Lemma push_new (arena : list TypeDeclaration) (stack : list nat) (t : nat) :
  ~ In t stack -> push arena stack t = Entered (stack ++ [t]).
Proof.
  intros Hin. unfold push.
  destruct (existsb (Nat.eqb t) stack) eqn:H; [| reflexivity].
  apply existsb_eqb_stack in H. contradiction.
Qed.

Lemma pop_push (stack : list nat) (t : nat) : pop (stack ++ [t]) = stack.
Proof. apply removelast_last. Qed.

(** C7. A declaration that is pushed while it is on the recursion stack is
    refused: with [typeContainsItself] when it is the top of the stack, with
    [typesReferToEachOther], naming it and the top of the stack, when it is
    below the top; both at the declaration's own location, and so is the
    visit of such a declaration refused, whatever is left to visit.  A
    declaration that is not on the stack is pushed at its back.  The visit of
    [struct S { S s; }] ends in the first error, and the visit of
    [struct A { B b; }] and [struct B { A a; }] in the second, naming A and
    B. *)
Theorem recursive_type_declarations
        (arena : list TypeDeclaration) (stack : list nat) (t : nat) :
  (In t stack -> last stack O = t ->
     push arena stack t
     = Refused (typeContainsItself (nameAt arena t)) (contextAt arena t)
     /\ forall fuel, visitDeclaration (S fuel) arena stack t
                     = Some (Error (typeContainsItself (nameAt arena t))
                                   (contextAt arena t)))
  /\ (In t stack -> last stack O <> t ->
        push arena stack t
        = Refused (typesReferToEachOther (nameAt arena t) (nameAt arena (last stack O)))
                  (contextAt arena t)
        /\ forall fuel, visitDeclaration (S fuel) arena stack t
                        = Some (Error (typesReferToEachOther
                                         (nameAt arena t) (nameAt arena (last stack O)))
                                      (contextAt arena t)))
  /\ (~ In t stack ->
        push arena stack t = Entered (stack ++ [t]) /\ pop (stack ++ [t]) = stack)
  /\ (forall fuel, visitAll (2 + fuel) Examples.selfContaining
                   = Some (Error (typeContainsItself "S"%string) 1))
  /\ (forall fuel, visitAll (3 + fuel) Examples.mutuallyReferring
                   = Some (Error (typesReferToEachOther "A"%string "B"%string) 1)).
Proof.
  repeat apply conj.
  - intros Hin Htop. split; [now apply push_on_top |].
    intros fuel. cbn [visitDeclaration]. now rewrite push_on_top.
  - intros Hin Htop. split; [now apply push_below_top |].
    intros fuel. cbn [visitDeclaration]. now rewrite push_below_top.
  - intros Hin. split; [now apply push_new | apply pop_push].
  - intros fuel. reflexivity.
  - intros fuel. reflexivity.
Qed.

End RecursionStack.

Lemma recursive_type_declarations_witness :
  TypeDeclarations.push Examples.selfContaining [0%nat] 0%nat
  = TypeDeclarations.Refused (typeContainsItself "S"%string) 1%nat
  /\ TypeDeclarations.push Examples.mutuallyReferring [0%nat; 1%nat] 0%nat
     = TypeDeclarations.Refused (typesReferToEachOther "A"%string "B"%string) 1%nat
  /\ TypeDeclarations.push Examples.mutuallyReferring [0%nat] 1%nat
     = TypeDeclarations.Entered [0%nat; 1%nat].
Proof.
  split; [| split].
  - refine (proj1 (proj1 (recursive_type_declarations
                            Examples.selfContaining [0%nat] 0%nat) _ _)).
    + left. reflexivity.
    + reflexivity.
  - refine (proj1 (proj1 (proj2 (recursive_type_declarations
                                   Examples.mutuallyReferring [0%nat; 1%nat] 0%nat)) _ _)).
    + left. reflexivity.
    + discriminate.
  - refine (proj1 (proj1 (proj2 (proj2 (recursive_type_declarations
                                          Examples.mutuallyReferring [0%nat] 1%nat))) _)).
    intros [H | []]. discriminate.
Defined.

(* ================================================================== *)
(** ** Increments and decrements within a statement *)

Section IncrementsPerStatement.
Import PreAndPostIncOperatorCheck.
Local Open Scope nat_scope.

Lemma Expression_nested_ind (P : Expression -> Prop) :
  (forall v c, P (VariableRef v c)) ->
  (forall t a b, P t -> P (PreOrPostIncOrDec t a b)) ->
  (forall subs, Forall P subs -> P (OtherExpression subs)) ->
  forall e, P e.
Proof.
  intros HV HI HO. fix IH 1. intros [v c | t a b | subs].
  - apply HV.
  - apply HI, IH.
  - apply HO. revert subs. fix IHs 1. intros [| x xs]; constructor.
    + apply IH.
    + apply IHs.
Qed.

Lemma scan_app (run1 run2 : list Access) : forall lists,
  scan lists (run1 ++ run2) =
  match scan lists run1 with
  | Continue (Some lists') => scan lists' run2
  | other => other
  end.
Proof.
  induction run1 as [| [v c | v c] rest IH]; intros lists; cbn [scan app].
  - reflexivity.
  - destruct (contains (variablesModified lists) v); [reflexivity | apply IH].
  - destruct (contains (variablesReferenced lists) v); [reflexivity | apply IH].
Qed.

Lemma scan_continues (run : list Access) : forall lists lists',
  scan lists run = Continue lists' -> exists l, lists' = Some l.
Proof.
  induction run as [| [v c | v c] rest IH]; intros lists lists'; cbn [scan].
  - intros [= <-]. eauto.
  - destruct (contains _ v); [discriminate | apply IH].
  - destruct (contains _ v); [discriminate | apply IH].
Qed.

Lemma visitExpression_scan (e : Expression) : forall lists,
  visitExpression (Some lists) e = scan lists (accesses e).
Proof.
  induction e as [v c | t a b IH | subs IH] using Expression_nested_ind; intros [modified referenced].
  - reflexivity.
  - destruct t as [v c | t' a' b' | subs'].
    + reflexivity.
    + apply IH.
    + apply IH.
  - cbn [visitExpression accesses].
    revert modified referenced.
    induction IH as [| x xs Hx _ IHxs]; intros modified referenced.
    + reflexivity.
    + cbn [visitExpressions flat_map]. rewrite scan_app, Hx.
      destruct (scan _ (accesses x)) as [[l |] | m loc] eqn:Hscan.
      * destruct l. apply IHxs.
      * apply scan_continues in Hscan. destruct Hscan; discriminate.
      * reflexivity.
Qed.

Lemma scan_message (run : list Access) : forall lists m loc,
  scan lists run = Stop m loc -> m = preIncDecCollision.
Proof.
  induction run as [| [v c | v c] rest IH]; intros lists m loc; cbn [scan].
  - discriminate.
  - destruct (contains _ v); [intros [= <- _]; reflexivity | apply IH].
  - destruct (contains _ v); [intros [= <- _]; reflexivity | apply IH].
Qed.

Lemma contains_app (l : list nat) (v w : nat) :
  contains (l ++ [w]) v = contains l v || Nat.eqb v w.
Proof.
  unfold contains. rewrite existsb_app. cbn. now rewrite orb_false_r.
Qed.

Lemma existsb_or {A : Type} (f g h : A -> bool) (l : list A) :
  (forall x, f x = g x || h x) -> existsb f l = existsb g l || existsb h l.
Proof.
  intros H. induction l as [| x l IH]; [reflexivity |].
  cbn [existsb]. rewrite H, IH.
  destruct (g x), (h x), (existsb g l), (existsb h l); reflexivity.
Qed.

(** Where a scan stops. *)
Lemma scan_stopped (run : list Access) : forall lists,
  stopped (scan lists run) = existsb (clashesWithLists lists) run || collides run.
Proof.
  induction run as [| a rest IH]; intros lists.
  - reflexivity.
  - destruct a as [v c | v c]; cbn [scan existsb collides];
      unfold clashesWithLists at 1; cbn [isIncDec accessed].
    + destruct (contains (variablesModified lists) v) eqn:Hm; [reflexivity |].
      rewrite IH, (existsb_or _ (clashesWithLists lists) (clash (Read v c))).
      * cbn [orb]. destruct (existsb (clashesWithLists lists) rest),
          (existsb (clash (Read v c)) rest), (collides rest); reflexivity.
      * intros b. unfold clashesWithLists, clash.
        cbn [variablesModified variablesReferenced isIncDec accessed].
        destruct (isIncDec b).
        -- rewrite contains_app, (Nat.eqb_sym v). cbn. now rewrite andb_true_r.
        -- cbn. now rewrite andb_false_r, orb_false_r.
    + destruct (contains (variablesReferenced lists) v) eqn:Hm; [reflexivity |].
      rewrite IH, (existsb_or _ (clashesWithLists lists) (clash (IncDec v c))).
      * cbn [orb]. destruct (existsb (clashesWithLists lists) rest),
          (existsb (clash (IncDec v c)) rest), (collides rest); reflexivity.
      * intros b. unfold clashesWithLists, clash.
        cbn [variablesModified variablesReferenced isIncDec accessed].
        rewrite (Nat.eqb_sym v). cbn [orb]. rewrite andb_true_r.
        destruct (isIncDec b); apply contains_app.
Qed.

Lemma scan_fresh (run : list Access) :
  stopped (scan (mkLists [] []) run) = collides run.
Proof.
  rewrite scan_stopped.
  replace (existsb (clashesWithLists (mkLists [] [])) run) with false; [reflexivity |].
  induction run as [| a rest IH]; [reflexivity |].
  cbn [existsb]. rewrite <- IH. unfold clashesWithLists. now destruct (isIncDec a).
Qed.

Lemma collides_collide (run : list Access) : collides run = true <-> collide run.
Proof.
  split.
  - induction run as [| a rest IH]; [discriminate |].
    cbn [collides]. intros H. apply orb_true_iff in H. destruct H as [H | H].
    + apply existsb_exists in H. destruct H as [b [Hin Hab]].
      apply in_split in Hin. destruct Hin as [between [after ->]].
      exists [], a, between, b, after. split; [reflexivity | assumption].
    + destruct (IH H) as [before [x [between [y [after [-> Hxy]]]]]].
      exists (a :: before), x, between, y, after. split; [reflexivity | assumption].
  - intros [before [a [between [b [after [-> Hab]]]]]].
    induction before as [| x before IH]; cbn [app collides].
    + apply orb_true_iff. left. apply existsb_exists. exists b. split; [| assumption].
      apply in_or_app. right. left. reflexivity.
    + rewrite IH. apply orb_true_r.
Qed.

Lemma visitParts_isError (visit : Statement -> Result) (parts : list Part) : forall lists,
  isError (visitParts visit (Some lists) parts) =
  stopped (scan lists (partAccesses parts)) ||
  existsb (fun sub => isError (visit sub)) (partStatements parts).
Proof.
  induction parts as [| [e | sub] rest IH]; intros lists.
  - reflexivity.
  - cbn [visitParts partAccesses partStatements flat_map app].
    fold (partAccesses rest). fold (partStatements rest).
    rewrite visitExpression_scan, scan_app.
    destruct (scan lists (accesses e)) as [[l |] | m loc] eqn:Hscan.
    + apply IH.
    + apply scan_continues in Hscan. destruct Hscan; discriminate.
    + reflexivity.
  - cbn [visitParts partAccesses partStatements flat_map app existsb].
    fold (partAccesses rest). fold (partStatements rest).
    destruct (visit sub) as [| m loc]; cbn [isError].
    + rewrite IH. reflexivity.
    + now rewrite orb_true_r.
Qed.

Lemma visitStatement_isError (s : Statement) :
  isError (visitStatement s) =
  collides (ownAccesses s) || existsb (fun sub => isError (visitStatement sub)) (subStatements s).
Proof.
  destruct s as [e | parts]; cbn [visitStatement ownAccesses subStatements existsb].
  - rewrite visitExpression_scan, orb_false_r, <- scan_fresh.
    now destruct (scan _ _).
  - rewrite visitParts_isError, scan_fresh. reflexivity.
Qed.

Lemma Statement_nested_ind (P : Statement -> Prop) :
  (forall e, P (ExpressionStatement e)) ->
  (forall parts, Forall P (partStatements parts) -> P (OtherStatement parts)) ->
  forall s, P s.
Proof.
  intros HE HO. fix IH 1. intros [e | parts].
  - apply HE.
  - apply HO. revert parts. fix IHs 1. intros [| [e | sub] rest].
    + constructor.
    + exact (IHs rest).
    + exact (Forall_cons sub (IH sub) (IHs rest)).
Qed.

Lemma visitParts_message (visit : Statement -> Result) (parts : list Part) :
  Forall (fun sub => forall m loc, visit sub = Error m loc -> m = preIncDecCollision)
         (partStatements parts) ->
  forall lists m loc,
  visitParts visit (Some lists) parts = Error m loc -> m = preIncDecCollision.
Proof.
  induction parts as [| [e | sub] rest IH]; intros Hsubs lists m loc.
  - discriminate.
  - cbn [visitParts]. rewrite visitExpression_scan.
    destruct (scan lists (accesses e)) as [[l |] | m' loc'] eqn:Hscan.
    + apply IH, Hsubs.
    + apply scan_continues in Hscan. destruct Hscan; discriminate.
    + intros [= <- _]. eapply scan_message, Hscan.
  - cbn [visitParts]. cbn [partStatements flat_map app] in Hsubs.
    fold (partStatements rest) in Hsubs. inversion Hsubs as [| ? ? Hsub Hrest]; subst.
    destruct (visit sub) as [| m' loc'] eqn:Hv.
    + apply IH, Hrest.
    + intros [= <- <-]. eapply Hsub. reflexivity.
Qed.

Lemma visitStatement_message (s : Statement) : forall m loc,
  visitStatement s = Error m loc -> m = preIncDecCollision.
Proof.
  induction s as [e | parts IH] using Statement_nested_ind; intros m loc.
  - cbn [visitStatement]. rewrite visitExpression_scan.
    destruct (scan _ _) as [| m' loc'] eqn:Hscan; [discriminate |].
    intros [= <- _]. eapply scan_message, Hscan.
  - cbn [visitStatement]. apply visitParts_message. exact IH.
Qed.

Lemma clash_sym (a b : Access) : clash a b = clash b a.
Proof.
  unfold clash. rewrite Nat.eqb_sym, (orb_comm (isIncDec a)). reflexivity.
Qed.

Lemma collides_two (run : list Access) (a b : Access) :
  In a run -> In b run -> a <> b -> clash a b = true -> collides run = true.
Proof.
  intros Ha Hb Hab Hclash. induction run as [| x rest IH]; [contradiction |].
  cbn [collides]. apply orb_true_iff.
  destruct Ha as [-> | Ha], Hb as [Hb | Hb].
  - congruence.
  - left. apply existsb_exists. exists b. split; assumption.
  - subst x. left. apply existsb_exists. exists a. split; [assumption |].
    now rewrite clash_sym.
  - right. now apply IH.
Qed.

(** C8 (amended). A statement is visited with two lists of its own.  If
    among the accesses of its own expressions (those outside the statements
    nested in it) a variable is the operand of an increment or decrement and
    is also read, the visit stops with [preIncDecCollision]; the visit stops
    exactly when two of these accesses to one variable, one of them an
    increment or decrement, are found, or when the visit of a nested statement
    stops, and never with another diagnostic.  An increment or decrement
    whose operand is not a variable itself is visited as its operand is: it
    modifies nothing.  The lists are fresh for each statement: a block of two
    statements is checked as the first and then the second, each on its own.
    [i = i++ + i] stops with the diagnostic; the block of [i++;] and
    [j = i + 1;] is accepted. *)
Theorem preIncDecCollision_per_statement (s : Statement) :
  (forall v modifiedAt readAt,
      In (IncDec v modifiedAt) (ownAccesses s) ->
      In (Read v readAt) (ownAccesses s) ->
      exists location, visitStatement s = Error preIncDecCollision location)
  /\ isError (visitStatement s)
     = collides (ownAccesses s)
       || existsb (fun sub => isError (visitStatement sub)) (subStatements s)
  /\ (collides (ownAccesses s) = true <-> collide (ownAccesses s))
  /\ (forall message location,
        visitStatement s = Error message location -> message = preIncDecCollision)
  /\ (forall lists target isIncrement isPost,
        (forall v context, target <> VariableRef v context) ->
        visitExpression lists (PreOrPostIncOrDec target isIncrement isPost)
        = visitExpression lists target)
  /\ (forall next,
        visitStatement (OtherStatement [SubStatement s; SubStatement next])
        = andThen (visitStatement s) (visitStatement next))
  /\ visitStatement Examples.assignIncrementPlusRead = Error preIncDecCollision 2
  /\ visitStatement Examples.incrementThenRead = Ok.
Proof.
  repeat apply conj.
  - intros v modifiedAt readAt Hinc Hread.
    assert (Herr : isError (visitStatement s) = true).
    { rewrite visitStatement_isError.
      rewrite (collides_two (ownAccesses s) _ _ Hinc Hread); [reflexivity | discriminate |].
      unfold clash. cbn. now rewrite Nat.eqb_refl. }
    destruct (visitStatement s) as [| m loc] eqn:Hvisit; [discriminate |].
    exists loc. now rewrite (visitStatement_message s m loc Hvisit).
  - apply visitStatement_isError.
  - apply collides_collide.
  - apply collides_collide.
  - apply visitStatement_message.
  - intros lists target isIncrement isPost Hnot.
    destruct target as [v context | |]; [now destruct (Hnot v context) | |]; reflexivity.
  - intros next. cbn [visitStatement visitParts].
    destruct (visitStatement s); [| reflexivity].
    cbn [andThen]. now destruct (visitStatement next).
  - reflexivity.
  - reflexivity.
Qed.

End IncrementsPerStatement.

Lemma preIncDecCollision_per_statement_witness :
  exists location,
    PreAndPostIncOperatorCheck.visitStatement Examples.assignIncrementPlusRead
    = Error preIncDecCollision location.
Proof.
  refine (proj1 (preIncDecCollision_per_statement Examples.assignIncrementPlusRead)
                0%nat 2%nat 3%nat _ _).
  - right. left. reflexivity.
  - right. right. left. reflexivity.
Defined.

(** C8, as stated, fails: in [if (i++ > 0) j = i;] the variable [i] is
    incremented and read within one statement, the read being in the nested
    statement of the branch; and in [a[0]++ + a[0]] the operand of the
    increment is an element of [a], which is read again.  Neither raises a
    diagnostic. *)
Lemma increment_and_read_without_collision :
  In (PreAndPostIncOperatorCheck.IncDec 0%nat 1%nat)
     (PreAndPostIncOperatorCheck.allAccesses Examples.incrementInConditionReadInBranch)
  /\ In (PreAndPostIncOperatorCheck.Read 0%nat 3%nat)
        (PreAndPostIncOperatorCheck.allAccesses Examples.incrementInConditionReadInBranch)
  /\ PreAndPostIncOperatorCheck.visitStatement Examples.incrementInConditionReadInBranch = Ok
  /\ PreAndPostIncOperatorCheck.visitStatement Examples.incrementOfElementPlusRead = Ok.
Proof.
  split; [left; reflexivity |]. split; [right; right; left; reflexivity |].
  split; reflexivity.
Qed.

(* ================================================================== *)
(** ** Annotations, imports and the string utilities *)

Lemma IdentifierPath_eqb_eq (a b : IdentifierPath) :
  AST.IdentifierPath_eqb a b = true <-> a = b.
Proof.
  revert b. induction a as [| x a IH]; intros [| y b]; cbn; split; intros H;
    try reflexivity; try discriminate.
  - apply andb_true_iff in H. destruct H as [Hxy Hab].
    apply String.eqb_eq in Hxy. apply IH in Hab. now subst.
  - injection H as -> ->. apply andb_true_iff. split.
    + apply String.eqb_refl.
    + now apply IH.
Qed.

Lemma IdentifierPath_eqb_neq (a b : IdentifierPath) :
  AST.IdentifierPath_eqb a b = false <-> a <> b.
Proof.
  split.
  - intros H Heq. apply IdentifierPath_eqb_eq in Heq. congruence.
  - intros H. destruct (AST.IdentifierPath_eqb a b) eqn:E; [| reflexivity].
    apply IdentifierPath_eqb_eq in E. contradiction.
Qed.

Section AnnotationProperties.
Import AST Annotation.

Lemma replaceFirst_none (properties : list Property) (p : Property) :
  replaceFirst properties p = None <-> findProperty properties (path (propertyName p)) = None.
Proof.
  induction properties as [| q rest IH]; cbn; [tauto |].
  destruct (IdentifierPath_eqb (path (propertyName q)) (path (propertyName p))).
  - split; discriminate.
  - destruct (replaceFirst rest p); cbn.
    + split; [discriminate |]. intros H. apply IH in H. discriminate.
    + split; [intros _; now apply IH | reflexivity].
Qed.

Lemma replaceFirst_paths (properties replaced : list Property) (p : Property) :
  replaceFirst properties p = Some replaced -> paths replaced = paths properties.
Proof.
  revert replaced. induction properties as [| q rest IH]; intros replaced; cbn.
  - discriminate.
  - destruct (IdentifierPath_eqb (path (propertyName q)) (path (propertyName p))).
    + intros [= <-]. reflexivity.
    + destruct (replaceFirst rest p) as [l |]; cbn; [| discriminate].
      intros [= <-]. cbn. f_equal. now apply IH.
Qed.

Lemma replaceFirst_find (properties replaced : list Property) (p : Property)
      (target : IdentifierPath) :
  replaceFirst properties p = Some replaced ->
  option_map propertyValue (findProperty replaced target)
  = if IdentifierPath_eqb (path (propertyName p)) target
    then Some (propertyValue p)
    else option_map propertyValue (findProperty properties target).
Proof.
  revert replaced. induction properties as [| q rest IH]; intros replaced; cbn.
  - discriminate.
  - destruct (IdentifierPath_eqb (path (propertyName q)) (path (propertyName p))) eqn:Hq.
    + intros [= <-]. cbn. apply IdentifierPath_eqb_eq in Hq. rewrite Hq.
      destruct (IdentifierPath_eqb (path (propertyName p)) target); reflexivity.
    + destruct (replaceFirst rest p) as [l |]; cbn; [| discriminate].
      intros [= <-]. cbn.
      destruct (IdentifierPath_eqb (path (propertyName q)) target) eqn:Ht.
      * apply IdentifierPath_eqb_eq in Ht. subst target.
        apply IdentifierPath_eqb_neq in Hq.
        destruct (IdentifierPath_eqb (path (propertyName p)) (path (propertyName q))) eqn:Hp;
          [| reflexivity].
        apply IdentifierPath_eqb_eq in Hp. congruence.
      * now apply IH.
Qed.

Lemma findProperty_app (xs ys : list Property) (target : IdentifierPath) :
  findProperty (xs ++ ys) target
  = match findProperty xs target with
    | Some p => Some p
    | None => findProperty ys target
    end.
Proof.
  induction xs as [| x xs IH]; cbn; [reflexivity |].
  destruct (IdentifierPath_eqb (path (propertyName x)) target); [reflexivity | exact IH].
Qed.

Lemma setProperty_find (properties : list Property) (p : Property)
      (target : IdentifierPath) :
  option_map propertyValue (findProperty (setProperty properties p) target)
  = if IdentifierPath_eqb (path (propertyName p)) target
    then Some (propertyValue p)
    else option_map propertyValue (findProperty properties target).
Proof.
  unfold setProperty.
  destruct (replaceFirst properties p) as [replaced |] eqn:Hr.
  - now apply replaceFirst_find.
  - apply replaceFirst_none in Hr. unfold addProperty. rewrite findProperty_app. cbn.
    destruct (IdentifierPath_eqb (path (propertyName p)) target) eqn:Ht.
    + apply IdentifierPath_eqb_eq in Ht. subst target. rewrite Hr. reflexivity.
    + destruct (findProperty properties target); reflexivity.
Qed.

Lemma findProperty_none (properties : list Property) (target : IdentifierPath) :
  findProperty properties target = None <-> ~ In target (paths properties).
Proof.
  induction properties as [| q rest IH]; cbn; [tauto |].
  destruct (IdentifierPath_eqb (path (propertyName q)) target) eqn:Hq.
  - apply IdentifierPath_eqb_eq in Hq. split; [discriminate | intros H; exfalso; auto].
  - apply IdentifierPath_eqb_neq in Hq. rewrite IH. tauto.
Qed.

Lemma setProperty_NoDup (properties : list Property) (p : Property) :
  NoDup (paths properties) -> NoDup (paths (setProperty properties p)).
Proof.
  intros Hnd. unfold setProperty.
  destruct (replaceFirst properties p) as [replaced |] eqn:Hr.
  - now rewrite (replaceFirst_paths _ _ _ Hr).
  - apply replaceFirst_none, findProperty_none in Hr.
    unfold addProperty, paths. rewrite map_app. cbn.
    apply NoDup_app; [assumption | repeat constructor; intros [] | ].
    intros x Hx [<- | []]. contradiction.
Qed.

(** X1. In an annotation, [findProperty] after [setProperty] finds the value
    that was set, under the path it was set for; the lookups of the other
    paths are as before.  A property whose path was absent is appended;
    otherwise the number and the order of the paths are unchanged. *)
Theorem Annotation_setProperty_then_findProperty
        (properties : list Property) (p : Property) (other : IdentifierPath) :
  (exists found,
      findProperty (setProperty properties p) (path (propertyName p)) = Some found
      /\ propertyValue found = propertyValue p)
  /\ (other <> path (propertyName p) ->
      option_map propertyValue (findProperty (setProperty properties p) other)
      = option_map propertyValue (findProperty properties other))
  /\ (findProperty properties (path (propertyName p)) = None ->
      setProperty properties p = addProperty properties p)
  /\ (findProperty properties (path (propertyName p)) <> None ->
      paths (setProperty properties p) = paths properties).
Proof.
  repeat apply conj.
  - pose proof (setProperty_find properties p (path (propertyName p))) as H.
    rewrite (proj2 (IdentifierPath_eqb_eq _ _) eq_refl) in H.
    destruct (findProperty (setProperty properties p) (path (propertyName p))) as [found |];
      [| discriminate].
    exists found. split; [reflexivity |]. now injection H.
  - intros Hother. rewrite setProperty_find.
    destruct (IdentifierPath_eqb (path (propertyName p)) other) eqn:E; [| reflexivity].
    apply IdentifierPath_eqb_eq in E. congruence.
  - intros Hnone. unfold setProperty.
    now rewrite (proj2 (replaceFirst_none properties p) Hnone).
  - intros Hsome. unfold setProperty.
    destruct (replaceFirst properties p) as [replaced |] eqn:Hr.
    + now apply replaceFirst_paths in Hr.
    + apply replaceFirst_none in Hr. contradiction.
Qed.

Lemma setProperties_find (other properties : list Property) (target : IdentifierPath) :
  option_map propertyValue (findProperty (setProperties properties other) target)
  = match findProperty (rev other) target with
    | Some q => Some (propertyValue q)
    | None => option_map propertyValue (findProperty properties target)
    end.
Proof.
  revert properties. induction other as [| p rest IH]; intros properties.
  - reflexivity.
  - cbn [setProperties fold_left rev]. fold (setProperties (setProperty properties p) rest).
    rewrite IH, findProperty_app. cbn.
    destruct (findProperty (rev rest) target) as [q |]; [reflexivity |].
    rewrite setProperty_find.
    destruct (IdentifierPath_eqb (path (propertyName p)) target); reflexivity.
Qed.

(** X2. [setProperties] merges an annotation into another: afterwards the
    value found under a path is the one of the last property of that path in
    the merged annotation, and the value found before when it has none.  Paths
    that were distinct before the merge are distinct after it. *)
Theorem Annotation_setProperties_merges
        (properties other : list Property) (target : IdentifierPath) :
  option_map propertyValue (findProperty (setProperties properties other) target)
  = match findProperty (rev other) target with
    | Some q => Some (propertyValue q)
    | None => option_map propertyValue (findProperty properties target)
    end
  /\ (NoDup (paths properties) -> NoDup (paths (setProperties properties other))).
Proof.
  split; [apply setProperties_find |].
  revert properties. induction other as [| p rest IH]; intros properties Hnd.
  - exact Hnd.
  - cbn [setProperties fold_left]. apply IH, setProperty_NoDup, Hnd.
Qed.

End AnnotationProperties.

Section ImportsListProperties.
Import ImportsList.

Lemma contains_In (imports : list string) (item : string) :
  contains imports item = true <-> In item imports.
Proof.
  unfold contains. rewrite existsb_exists. split.
  - intros [x [Hin Heq]]. apply String.eqb_eq in Heq. now subst.
  - intros Hin. exists item. split; [assumption | apply String.eqb_refl].
Qed.

Lemma mergeList_In (other imports : list string) (x : string) :
  In x (mergeList imports other) <-> In x imports \/ In x other.
Proof.
  revert imports. induction other as [| i rest IH]; intros imports; cbn [mergeList].
  - cbn. tauto.
  - rewrite IH. destruct (contains imports i) eqn:Hc; cbn [negb].
    + apply contains_In in Hc. cbn. split; [tauto |].
      intros [H | [<- | H]]; tauto.
    + rewrite in_app_iff. cbn. tauto.
Qed.

Lemma mergeList_NoDup (other imports : list string) :
  NoDup imports -> NoDup (mergeList imports other).
Proof.
  revert imports. induction other as [| i rest IH]; intros imports Hnd; cbn [mergeList].
  - exact Hnd.
  - apply IH. destruct (contains imports i) eqn:Hc; cbn [negb]; [exact Hnd |].
    apply NoDup_app; [assumption | repeat constructor; intros [] |].
    intros x Hx [<- | []]. apply contains_In in Hx. congruence.
Qed.

Lemma mergeList_prefix (other imports : list string) :
  exists added, mergeList imports other = (imports ++ added)%list /\ incl added other.
Proof.
  revert imports. induction other as [| i rest IH]; intros imports; cbn [mergeList].
  - exists []. split; [now rewrite app_nil_r | intros x []].
  - destruct (contains imports i); cbn [negb].
    + destruct (IH imports) as [added [-> Hincl]].
      exists added. split; [reflexivity |]. intros x Hx. right. now apply Hincl.
    + destruct (IH (imports ++ [i])%list) as [added [-> Hincl]].
      exists (i :: added). split; [now rewrite <- app_assoc |].
      intros x [<- | Hx]; [now left | right; now apply Hincl].
Qed.

Lemma mergeList_present (other imports : list string) :
  incl other imports -> mergeList imports other = imports.
Proof.
  revert imports. induction other as [| i rest IH]; intros imports Hincl; cbn [mergeList].
  - reflexivity.
  - rewrite (proj2 (contains_In imports i)) by (apply Hincl; now left). cbn [negb].
    apply IH. intros x Hx. apply Hincl. now right.
Qed.

(** X3. [mergeList] keeps the imports it had, in their order, and appends
    those of the other list that are new, each once: afterwards the list holds
    exactly the imports of both, it has no duplicate when it had none, and
    merging the same list again changes nothing.  [addIfNotAlreadyThere] is
    the merge of the one trimmed name. *)
Theorem ImportsList_mergeList_spec (imports other : list string) :
  (exists added, mergeList imports other = (imports ++ added)%list /\ incl added other)
  /\ (forall x, In x (mergeList imports other) <-> In x imports \/ In x other)
  /\ (NoDup imports -> NoDup (mergeList imports other))
  /\ mergeList (mergeList imports other) other = mergeList imports other
  /\ (forall (trim : string -> string) (newImport : string),
        addIfNotAlreadyThere trim imports newImport = mergeList imports [trim newImport]).
Proof.
  repeat apply conj.
  - apply mergeList_prefix.
  - intros x. apply mergeList_In.
  - apply mergeList_NoDup.
  - apply mergeList_present. intros x Hx. apply mergeList_In. now right.
  - intros trim newImport. reflexivity.
Qed.

End ImportsListProperties.

Lemma string_append_assoc (a b c : string) :
  ((a ++ b) ++ c)%string = (a ++ b ++ c)%string.
Proof. induction a as [| x a IH]; cbn; [reflexivity | now rewrite IH]. Qed.

Lemma joinStrings_loop_cons (rest : list string) (s x separator : string) :
  joinStrings_loop s (x :: rest) separator
  = (s ++ separator ++ joinStrings_loop x rest separator)%string.
Proof.
  revert s x. induction rest as [| y rest IH]; intros s x.
  - reflexivity.
  - cbn [joinStrings_loop] in *. rewrite (IH (s ++ separator ++ x)%string y), (IH x y).
    now rewrite !string_append_assoc.
Qed.

Lemma joinStrings_concat (strings : list string) (separator : string) :
  joinStrings strings separator = String.concat separator strings.
Proof.
  destruct strings as [| front rest]; [reflexivity |].
  cbn [joinStrings]. revert front. induction rest as [| x rest IH]; intros front.
  - reflexivity.
  - rewrite joinStrings_loop_cons, IH. reflexivity.
Qed.

Lemma concat_app (separator : string) (a b : list string) :
  a <> [] -> b <> [] ->
  String.concat separator (a ++ b)
  = (String.concat separator a ++ separator ++ String.concat separator b)%string.
Proof.
  intros Ha Hb. induction a as [| x a IH]; [contradiction |].
  destruct a as [| y a'].
  - cbn. destruct b; [contradiction | reflexivity].
  - change ((x :: y :: a') ++ b)%list with (x :: (y :: a') ++ b)%list.
    cbn [String.concat app]. cbn [String.concat app] in IH.
    rewrite IH by discriminate. now rewrite !string_append_assoc.
Qed.

Lemma joinStringified_loop_map {A : Type} (stringify : A -> string) (rest : list A)
      (s separator : string) :
  joinStringified_loop s rest separator stringify
  = joinStrings_loop s (map stringify rest) separator.
Proof.
  revert s. induction rest as [| x rest IH]; intros s; cbn; [reflexivity | apply IH].
Qed.

(** X4. [joinStrings] writes the strings in order with the separator between
    each two of them and nowhere else: the join of two non-empty lists, one
    after the other, is the two joins with one separator between them, a
    single string is joined to itself and no string to the empty string.  The
    overload with a stringifier is the join of the stringified items. *)
Theorem joinStrings_laws (a b : list string) (separator : string) :
  joinStrings a separator = String.concat separator a
  /\ joinStrings [] separator = EmptyString
  /\ (forall s, joinStrings [s] separator = s)
  /\ (a <> [] -> b <> [] ->
      joinStrings (a ++ b) separator
      = (joinStrings a separator ++ separator ++ joinStrings b separator)%string)
  /\ (forall (A : Type) (stringify : A -> string) (items : list A),
        joinStringified items separator stringify
        = joinStrings (map stringify items) separator).
Proof.
  repeat apply conj.
  - apply joinStrings_concat.
  - reflexivity.
  - reflexivity.
  - intros Ha Hb. rewrite !joinStrings_concat. now apply concat_app.
  - intros A stringify [| front rest]; [reflexivity |].
    cbn [joinStringified joinStrings map]. apply joinStringified_loop_map.
Qed.

Section UniqueNames.
Local Open Scope Z_scope.

Lemma to_string_inj (a b : Z) : to_string a = to_string b -> a = b.
Proof.
  unfold to_string. intros H.
  assert (Hnil : forall z, Z.to_int z <> Decimal.Pos Decimal.Nil
                           /\ Z.to_int z <> Decimal.Neg Decimal.Nil).
  { intros [| p | p]; cbn; split; try discriminate;
      intros [= Hp]; now apply DecimalPos.Unsigned.to_uint_nonnil in Hp. }
  apply (f_equal NilZero.int_of_string) in H.
  rewrite !NilZero.isi in H by apply Hnil.
  injection H as H. now apply DecimalZ.to_int_inj.
Qed.

Lemma string_append_cancel_l (s a b : string) :
  (s ++ a)%string = (s ++ b)%string -> a = b.
Proof. induction s as [| x s IH]; cbn; [auto | intros [= H]; auto]. Qed.

Lemma withSuffix_inj (name : string) (a b : Z) :
  withSuffix name a = withSuffix name b -> a = b.
Proof.
  unfold withSuffix. intros H.
  apply string_append_cancel_l, string_append_cancel_l in H. now apply to_string_inj.
Qed.

Lemma to_int32_small (z : Z) : - 2 ^ 31 <= z <= INT32_MAX -> to_int32 z = z.
Proof.
  unfold to_int32, wrapSigned, INT32_MAX. intros H. rewrite Z.mod_small; lia.
Qed.

Lemma addSuffix_loop_result (name : string) (isUsed : string -> bool) :
  forall fuel nameToUse suffix r,
    addSuffix_loop fuel name isUsed nameToUse suffix = Some r ->
    isUsed r = false /\ (r = nameToUse \/ exists k, r = withSuffix name k).
Proof.
  induction fuel as [| fuel IH]; intros nameToUse suffix r; cbn [addSuffix_loop].
  - discriminate.
  - destruct (isUsed nameToUse) eqn:Hused.
    + intros H. apply IH in H. destruct H as [Hr [-> | [k ->]]]; split; eauto.
    + intros [= <-]. auto.
Qed.

(** The loop tries the suffixes in order, from the one after [suffix] on. *)
Lemma addSuffix_loop_finds (name : string) (isUsed : string -> bool) :
  forall (d : nat) (s k : Z) (fuel : nat),
    1 <= s -> k <= INT32_MAX -> s <= k < s + Z.of_nat d ->
    (forall j, s <= j < k -> isUsed (withSuffix name j) = true) ->
    isUsed (withSuffix name k) = false ->
    (d <= fuel)%nat ->
    addSuffix_loop fuel name isUsed (withSuffix name s) s = Some (withSuffix name k).
Proof.
  induction d as [| d IH]; intros s k fuel Hs Hk Hrange Hbefore Hfree Hfuel; [lia |].
  destruct fuel as [| fuel]; [lia |]. cbn [addSuffix_loop].
  destruct (Z.eq_dec s k) as [-> | Hne].
  - now rewrite Hfree.
  - rewrite (Hbefore s) by lia.
    rewrite to_int32_small by (unfold INT32_MAX in *; lia).
    apply (IH (s + 1) k fuel); try lia; [| assumption].
    intros j Hj. apply Hbefore. lia.
Qed.

Lemma addSuffixToMakeUnique_finds (name : string) (isUsed : string -> bool)
      (fuel : nat) (k : Z) :
  isUsed name = true -> 2 <= k <= INT32_MAX ->
  (forall j, 2 <= j < k -> isUsed (withSuffix name j) = true) ->
  isUsed (withSuffix name k) = false ->
  (Z.to_nat k <= fuel)%nat ->
  addSuffixToMakeUnique fuel name isUsed = Some (withSuffix name k).
Proof.
  intros Hused Hk Hbefore Hfree Hfuel. unfold addSuffixToMakeUnique.
  destruct fuel as [| fuel']; [lia |]. cbn [addSuffix_loop]. rewrite Hused.
  change (to_int32 (1 + 1)) with 2.
  apply (addSuffix_loop_finds name isUsed (Z.to_nat k - 1) 2 k fuel'); try lia; assumption.
Qed.

(** X5. [addSuffixToMakeUnique] returns the name itself when it is not in
    use, and otherwise the name with the first suffix, counted from 2, that
    makes a name not in use; whatever it returns is not in use. *)
Theorem addSuffixToMakeUnique_first_free
        (name : string) (isUsed : string -> bool) (fuel : nat) :
  (isUsed name = false -> addSuffixToMakeUnique (S fuel) name isUsed = Some name)
  /\ (forall k,
        isUsed name = true -> 2 <= k <= INT32_MAX ->
        (forall j, 2 <= j < k -> isUsed (withSuffix name j) = true) ->
        isUsed (withSuffix name k) = false ->
        (Z.to_nat k <= fuel)%nat ->
        addSuffixToMakeUnique fuel name isUsed = Some (withSuffix name k))
  /\ (forall r,
        addSuffixToMakeUnique fuel name isUsed = Some r ->
        isUsed r = false /\ (r = name \/ exists k, r = withSuffix name k)).
Proof.
  repeat apply conj.
  - intros Hfree. unfold addSuffixToMakeUnique. cbn. now rewrite Hfree.
  - intros k. apply addSuffixToMakeUnique_finds.
  - intros r H. now apply addSuffix_loop_result in H.
Qed.

Lemma hasName_In (names : list Identifier) (name : string) :
  hasName names name = true <-> In name names.
Proof.
  unfold hasName. rewrite existsb_exists. split.
  - intros [x [Hin Heq]]. apply String.eqb_eq in Heq. now subst.
  - intros Hin. exists name. split; [assumption | apply String.eqb_refl].
Qed.

Lemma isNameUsed_In (scope : ScopeNames) (name : string) :
  isNameUsed scope name = true <-> In name (allNames scope).
Proof.
  unfold isNameUsed, allNames. rewrite !in_app_iff, <- !hasName_In.
  destruct (hasName (functionNames scope) name), (hasName (structNames scope) name),
    (hasName (usingNames scope) name), (hasName (subModuleNames scope) name),
    (hasName (processorAliasNames scope) name); intuition discriminate.
Qed.

(** Among the suffixes [s .. s + d) one gives a name that is not in a list
    of fewer than [d] names, and so does a first one. *)
Lemma first_free_suffix (root : string) (isUsed : string -> bool) :
  forall (d : nat) (s : Z),
    (exists k, s <= k < s + Z.of_nat d /\ isUsed (withSuffix root k) = false) ->
    exists k, s <= k < s + Z.of_nat d
              /\ isUsed (withSuffix root k) = false
              /\ forall j, s <= j < k -> isUsed (withSuffix root j) = true.
Proof.
  induction d as [| d IH]; intros s [k [Hk Hfree]]; [lia |].
  destruct (isUsed (withSuffix root s)) eqn:Hs.
  - destruct (IH (s + 1)) as [k' [Hk' [Hfree' Hbefore]]].
    { exists k. split; [| assumption]. destruct (Z.eq_dec k s); [congruence | lia]. }
    exists k'. split; [lia |]. split; [assumption |].
    intros j Hj. destruct (Z.eq_dec j s) as [-> | Hne]; [assumption | apply Hbefore; lia].
  - exists s. split; [lia |]. split; [assumption |]. intros j Hj. lia.
Qed.

Lemma some_free_suffix (root : string) (names : list Identifier) :
  exists k, 2 <= k < 2 + Z.of_nat (S (List.length names))
            /\ ~ In (withSuffix root k) names.
Proof.
  set (candidates := map (fun i => withSuffix root (2 + Z.of_nat i))
                         (seq 0 (S (List.length names)))).
  destruct (Forall_dec (fun c => In c names)
              (fun c => in_dec string_dec c names) candidates) as [Hall | Hsome].
  - exfalso.
    assert (Hnd : NoDup candidates).
    { unfold candidates. apply Injective_map_NoDup; [| apply seq_NoDup].
      intros a b H. apply withSuffix_inj in H. lia. }
    assert (Hincl : incl candidates names).
    { intros c Hc. rewrite Forall_forall in Hall. now apply Hall. }
    pose proof (NoDup_incl_length Hnd Hincl) as Hlen.
    unfold candidates in Hlen. rewrite length_map, length_seq in Hlen. exact (Nat.nle_succ_diag_l _ Hlen).
  - apply Exists_Forall_neg in Hsome; [| intros c; destruct (in_dec string_dec c names); auto].
    apply Exists_exists in Hsome. destruct Hsome as [c [Hc Hnot]].
    unfold candidates in Hc. apply in_map_iff in Hc. destruct Hc as [i [<- Hi]].
    apply in_seq in Hi. exists (2 + Z.of_nat i). split; [lia | assumption].
Qed.

(** X6. [makeUniqueName] ends: in a scope with [n] names it returns within
    [n + 2] rounds of its loop.  The name it returns is the root, or the root
    with a suffix between 2 and [n + 2], and no function, struct, using
    declaration, sub-module or processor alias of the scope has it. *)
Theorem makeUniqueName_ends (scope : ScopeNames) (root : string) :
  Z.of_nat (List.length (allNames scope)) + 2 <= INT32_MAX ->
  exists r,
    makeUniqueName (List.length (allNames scope) + 2) scope root = Some r
    /\ (r = root
        \/ exists k, 2 <= k <= Z.of_nat (List.length (allNames scope)) + 2
                     /\ r = withSuffix root k)
    /\ ~ In r (functionNames scope) /\ ~ In r (structNames scope)
    /\ ~ In r (usingNames scope) /\ ~ In r (subModuleNames scope)
    /\ ~ In r (processorAliasNames scope).
Proof.
  intros Hbound. set (n := List.length (allNames scope)) in *.
  assert (Hfree : forall r, isNameUsed scope r = false ->
            ~ In r (functionNames scope) /\ ~ In r (structNames scope)
            /\ ~ In r (usingNames scope) /\ ~ In r (subModuleNames scope)
            /\ ~ In r (processorAliasNames scope)).
  { intros r Hr.
    assert (Hnot : ~ In r (allNames scope)).
    { intros Hin. apply isNameUsed_In in Hin. congruence. }
    unfold allNames in Hnot. rewrite !in_app_iff in Hnot. tauto. }
  unfold makeUniqueName.
  destruct (isNameUsed scope root) eqn:Hroot.
  - destruct (some_free_suffix root (allNames scope)) as [k0 [Hk0 Hnot0]].
    destruct (first_free_suffix root (isNameUsed scope) (S n) 2) as [k [Hk [Hk_free Hbefore]]].
    { exists k0. split; [exact Hk0 |].
      destruct (isNameUsed scope (withSuffix root k0)) eqn:E; [| reflexivity].
      apply isNameUsed_In in E. contradiction. }
    exists (withSuffix root k). split; [| split; [| now apply Hfree]].
    + apply addSuffixToMakeUnique_finds; try assumption; lia.
    + right. exists k. split; [lia | reflexivity].
  - exists root. split; [| split; [now left | now apply Hfree]].
    + replace (n + 2)%nat with (S (n + 1)) by lia.
      unfold addSuffixToMakeUnique. cbn [addSuffix_loop]. now rewrite Hroot.
Qed.

End UniqueNames.

Lemma makeUniqueName_ends_witness :
  exists r,
    makeUniqueName (List.length (allNames (mkScopeNames ["x"; "x_2"]%string ["y"]%string [] [] [])) + 2)
                   (mkScopeNames ["x"; "x_2"]%string ["y"]%string [] [] []) "x"%string = Some r
    /\ ~ In r ["x"; "x_2"]%string.
Proof.
  destruct (makeUniqueName_ends (mkScopeNames ["x"; "x_2"]%string ["y"]%string [] [] []) "x"%string)
    as (r & Hr & _ & Hfree & _).
  - vm_compute. discriminate.
  - exists r. split; [exact Hr | exact Hfree].
Defined.

(* ================================================================== *)
(** ** Values: reading back, casting, comparing *)

Lemma byteValue_byteOfZ (z : Z) : byteValue (byteOfZ z) = z mod 256.
Proof.
  unfold byteValue, byteOfZ.
  pose proof (Z.mod_pos_bound z 256 ltac:(lia)) as Hb.
  destruct (Byte.of_N (Z.to_N (z mod 256))) as [b |] eqn:Hof.
  - apply Byte.to_of_N in Hof. rewrite Hof. lia.
  - apply Byte.of_N_None_iff in Hof. lia.
Qed.

Lemma readUnaligned_writeUnaligned (n : nat) (z : Z) :
  readUnaligned (writeUnaligned n z) = z mod 2 ^ (8 * Z.of_nat n).
Proof.
  revert z. induction n as [| n IH]; intros z.
  - cbn. now rewrite Z.mod_1_r.
  - cbn [writeUnaligned readUnaligned]. rewrite byteValue_byteOfZ, IH.
    replace (8 * Z.of_nat (S n)) with (8 + 8 * Z.of_nat n) by lia.
    rewrite Z.pow_add_r by lia. change (2 ^ 8) with 256.
    rewrite Z.rem_mul_r by lia. reflexivity.
Qed.

Lemma length_writeUnaligned (n : nat) (z : Z) : List.length (writeUnaligned n z) = n.
Proof. revert z. induction n as [| n IH]; intros z; cbn; [reflexivity | now rewrite IH]. Qed.

Lemma wrapSigned_mod (bits z : Z) :
  0 < bits -> wrapSigned bits (z mod 2 ^ bits) = wrapSigned bits z.
Proof.
  intros Hb. unfold wrapSigned. f_equal.
  rewrite Zplus_mod_idemp_l. reflexivity.
Qed.

Lemma wrapSigned_small (bits z : Z) :
  0 < bits -> - 2 ^ (bits - 1) <= z < 2 ^ (bits - 1) -> wrapSigned bits z = z.
Proof.
  intros Hb Hz. unfold wrapSigned.
  assert (H2 : 2 ^ bits = 2 * 2 ^ (bits - 1)).
  { replace bits with (1 + (bits - 1)) at 1 by lia. rewrite Z.pow_add_r by lia. reflexivity. }
  rewrite Z.mod_small; lia.
Qed.

Lemma writeUnaligned_mod (n : nat) (z : Z) :
  writeUnaligned n (z mod 2 ^ (8 * Z.of_nat n)) = writeUnaligned n z.
Proof.
  revert z. induction n as [| n IH]; intros z; [reflexivity |].
  cbn [writeUnaligned].
  replace (8 * Z.of_nat (S n)) with (8 + 8 * Z.of_nat n) by lia.
  rewrite Z.pow_add_r by lia. change (2 ^ 8) with 256.
  assert (Hp : 0 < 2 ^ (8 * Z.of_nat n)) by (apply Z.pow_pos_nonneg; lia).
  f_equal.
  - unfold byteOfZ. rewrite Z.rem_mul_r by lia.
    rewrite (Z.mul_comm 256), Z_mod_plus_full, Z.mod_mod by lia. reflexivity.
  - rewrite Z.rem_mul_r by lia.
    rewrite (Z.mul_comm 256), Z.div_add by lia.
    rewrite (Z.div_small (z mod 256)) by (apply Z.mod_pos_bound; lia).
    cbn [Z.add]. apply IH.
Qed.

Lemma writeUnaligned_wrapSigned (n : nat) (z : Z) :
  (0 < n)%nat -> writeUnaligned n (wrapSigned (8 * Z.of_nat n) z) = writeUnaligned n z.
Proof.
  intros Hn. rewrite <- (writeUnaligned_mod n (wrapSigned _ _)), <- (writeUnaligned_mod n z).
  f_equal. unfold wrapSigned.
  assert (Hp : 0 < 2 ^ (8 * Z.of_nat n)) by (apply Z.pow_pos_nonneg; lia).
  assert (H2 : 2 ^ (8 * Z.of_nat n) = 2 * 2 ^ (8 * Z.of_nat n - 1)).
  { replace (8 * Z.of_nat n) with (1 + (8 * Z.of_nat n - 1)) at 1 by lia.
    rewrite Z.pow_add_r by lia. reflexivity. }
  rewrite Zminus_mod_idemp_l.
  replace (z + 2 ^ (8 * Z.of_nat n - 1) - 2 ^ (8 * Z.of_nat n - 1)) with z by lia.
  reflexivity.
Qed.

Lemma writeUnaligned_zero (n : nat) : writeUnaligned n 0 = repeat x00 n.
Proof. induction n as [| n IH]; cbn; [reflexivity | now rewrite IH]. Qed.

Lemma allZero_repeat (n : nat) : allZero (repeat x00 n) = true.
Proof. induction n as [| n IH]; cbn; [reflexivity | exact IH]. Qed.

Lemma allZero_iff (bytes : list byte) :
  allZero bytes = true <-> bytes = repeat x00 (List.length bytes).
Proof.
  induction bytes as [| b bytes IH]; cbn; [tauto |].
  rewrite andb_true_iff, IH. split.
  - intros [Hb ->]. apply byte_dec_bl in Hb. subst. now rewrite repeat_length.
  - intros [= -> H]. split; [reflexivity | exact H].
Qed.

Lemma readUnaligned_zero (bytes : list byte) :
  allZero bytes = true -> readUnaligned bytes = 0.
Proof.
  induction bytes as [| b bytes IH]; cbn; [reflexivity |].
  rewrite andb_true_iff. intros [Hb Hrest]. apply byte_dec_bl in Hb. subst.
  rewrite (IH Hrest). reflexivity.
Qed.

Lemma readUnaligned_bound (bytes : list byte) :
  0 <= readUnaligned bytes < 2 ^ (8 * Z.of_nat (List.length bytes)).
Proof.
  induction bytes as [| b bytes IH]; [cbn; lia |].
  cbn [readUnaligned List.length].
  replace (8 * Z.of_nat (S (List.length bytes))) with (8 + 8 * Z.of_nat (List.length bytes)) by lia.
  rewrite Z.pow_add_r by lia. change (2 ^ 8) with 256.
  assert (Hb : 0 <= byteValue b <= 255).
  { unfold byteValue. pose proof (Byte.to_N_bounded b). lia. }
  nia.
Qed.

(** A number read from bytes that are not all zero is not zero. *)
Lemma readUnaligned_nonzero (bytes : list byte) :
  allZero bytes = false -> readUnaligned bytes <> 0.
Proof.
  induction bytes as [| b bytes IH]; [discriminate |].
  unfold allZero in *. cbn [forallb readUnaligned].
  intros H. apply andb_false_iff in H.
  assert (Hb : 0 <= byteValue b <= 255).
  { unfold byteValue. pose proof (Byte.to_N_bounded b). lia. }
  pose proof (readUnaligned_bound bytes) as Hr.
  destruct H as [H | H].
  - assert (byteValue b <> 0).
    { intros Hz. unfold byteValue in Hz.
      assert (Hn : Byte.to_N b = Byte.to_N x00) by (cbn; lia).
      apply (f_equal Byte.of_N) in Hn. rewrite !Byte.of_to_N in Hn.
      injection Hn as ->. cbn in H. discriminate. }
    lia.
  - specialize (IH H). lia.
Qed.

Section ValueReadBack.
Context {FC : FloatConversions}.
Import ValueMethods.

Lemma to_int32_read_write (v : Z) :
  to_int32 (readUnaligned (writeUnaligned 4 v)) = to_int32 v.
Proof.
  rewrite readUnaligned_writeUnaligned. unfold to_int32.
  change (8 * Z.of_nat 4) with 32. now apply wrapSigned_mod.
Qed.

Lemma to_int64_read_write (v : Z) :
  to_int64 (readUnaligned (writeUnaligned 8 v)) = to_int64 v.
Proof.
  rewrite readUnaligned_writeUnaligned. unfold to_int64.
  change (8 * Z.of_nat 8) with 64. now apply wrapSigned_mod.
Qed.

Lemma getAsInt64_createInt32 (v : Z) :
  PackedData.getAsInt64 (PackedData.mk (plain (primitive int32)) (writeUnaligned 4 v))
  = Some (to_int32 v).
Proof.
  unfold PackedData.getAsInt64, PackedData.getAsInt64_with, PackedData.getAs,
    PackedData.size, Value.getData, Value.createInt32.
  cbn [PackedData.type PackedData.data Value.type Value.allocatedData].
  rewrite length_writeUnaligned. cbn -[readUnaligned writeUnaligned to_int32]. now rewrite to_int32_read_write.
Qed.

Lemma getAsInt64_createInt64 (v : Z) :
  PackedData.getAsInt64 (PackedData.mk (plain (primitive int64)) (writeUnaligned 8 v))
  = Some (to_int64 v).
Proof.
  unfold PackedData.getAsInt64, PackedData.getAsInt64_with, PackedData.getAs,
    PackedData.size, Value.getData, Value.createInt64.
  cbn [PackedData.type PackedData.data Value.type Value.allocatedData].
  rewrite length_writeUnaligned. cbn -[readUnaligned writeUnaligned to_int64]. now rewrite to_int64_read_write.
Qed.

Lemma read_bool (b : bool) :
  readUnaligned (writeUnaligned 1 (if b then 1 else 0)) = if b then 1 else 0.
Proof. now destruct b. Qed.

(** X7. A value made from a number reads back as that number: an [int32]
    through [getAsInt64] and [getAsInt32], an [int64] through [getAsInt64], a
    [bool] through [getAsBool]; and across the types, a [bool] reads as the
    integer 1 or 0 and an integer reads as the [bool] that tells whether it is
    not zero. *)
Theorem Value_constructors_read_back (v : Z) (b : bool) :
  (- 2 ^ 31 <= v < 2 ^ 31 ->
     getAsInt64 (Value.createInt32 v) = Some v
     /\ getAsInt32 (Value.createInt32 v) = Some v
     /\ getAsBool (Value.createInt32 v) = Some (negb (v =? 0)))
  /\ (isInt64 v ->
        getAsInt64 (Value.createInt64 v) = Some v
        /\ getAsInt32 (Value.createInt64 v) = Some (to_int32 v)
        /\ getAsBool (Value.createInt64 v) = Some (negb (v =? 0)))
  /\ getAsBool (Value.createBool b) = Some b
  /\ getAsInt64 (Value.createBool b) = Some (if b then 1 else 0).
Proof.
  assert (Hchecked : forall x : Value.t,
             isValid (Value.type x) && negb (isVoid (Value.type x)) = true ->
             Value.getDataChecked x = Some (Value.getData x)).
  { intros x Hx. unfold Value.getDataChecked, Value.isValid, SOUL_ASSERT.
    apply andb_true_iff in Hx as Hx'. destruct Hx' as [Hvalid _].
    now rewrite Hx, Hvalid. }
  repeat apply conj.
  - intros Hv.
    assert (H32 : to_int32 v = v) by (apply wrapSigned_small; lia).
    assert (H : getAsInt64 (Value.createInt32 v) = Some v).
    { unfold getAsInt64. rewrite Hchecked by reflexivity.
      unfold Value.getData, Value.createInt32.
      cbn [Value.type Value.allocatedData].
      now rewrite getAsInt64_createInt32, H32. }
    repeat apply conj.
    + exact H.
    + unfold getAsInt32. rewrite H. cbn [option_map]. now rewrite H32.
    + unfold getAsBool. rewrite Hchecked by reflexivity.
      unfold Value.getData, Value.createInt32, PackedData.getAsBool.
      cbn [Value.type Value.allocatedData].
      cbn -[PackedData.getAsInt64 writeUnaligned].
      now rewrite getAsInt64_createInt32, H32.
  - intros Hv.
    assert (H64 : to_int64 v = v) by now apply to_int64_id.
    assert (H : getAsInt64 (Value.createInt64 v) = Some v).
    { unfold getAsInt64. rewrite Hchecked by reflexivity.
      unfold Value.getData, Value.createInt64.
      cbn [Value.type Value.allocatedData].
      now rewrite getAsInt64_createInt64, H64. }
    repeat apply conj.
    + exact H.
    + unfold getAsInt32. now rewrite H.
    + unfold getAsBool. rewrite Hchecked by reflexivity.
      unfold Value.getData, Value.createInt64, PackedData.getAsBool.
      cbn [Value.type Value.allocatedData].
      cbn -[PackedData.getAsInt64 writeUnaligned].
      now rewrite getAsInt64_createInt64, H64.
  - now destruct b.
  - now destruct b.
Qed.

End ValueReadBack.

Lemma getDataChecked_ok (x : Value.t) :
  isValid (Value.type x) && negb (isVoid (Value.type x)) = true ->
  Value.getDataChecked x = Some (Value.getData x).
Proof.
  intros Hx. unfold Value.getDataChecked, Value.isValid, SOUL_ASSERT.
  apply andb_true_iff in Hx as Hx'. destruct Hx' as [Hvalid _].
  now rewrite Hx, Hvalid.
Qed.

Section CastingConversions.
Context {TR : TypeRules} {FC : FloatConversions}.
Import ValueMethods.

(** When the guards of [tryCastToType] let the cast through, its result is
    what [setFrom] writes into the zeroed buffer of the destination type. *)
Lemma tryCastToType_converts (v : Value.t) (t : Type_) :
  isIdentical t (Value.type v) = false ->
  canCastTo t (Value.type v) = true ->
  isUnsizedArray t && negb (isIdentical (removeConstIfPresent t) (Value.type v)) = false ->
  isValid t && negb (isVoid t) = true ->
  isValid (Value.type v) && negb (isVoid (Value.type v)) = true ->
  Value.tryCastToType v t
  = option_map (Value.mk t)
               (PackedData.setFrom (Value.getData (Value.ofType t)) (Value.getData v)).
Proof.
  intros Hid Hcast Hunsized Ht Hv. unfold Value.tryCastToType.
  rewrite Hid, Hcast, Hunsized. cbn [negb].
  rewrite (getDataChecked_ok (Value.ofType t)) by exact Ht.
  rewrite (getDataChecked_ok v) by exact Hv.
  now destruct (PackedData.setFrom _ _).
Qed.

Lemma isZero_int64 (v : Z) :
  isInt64 v ->
  PackedData.isZero (PackedData.mk (plain (primitive int64)) (writeUnaligned 8 v))
  = (v =? 0).
Proof.
  intros Hv. unfold PackedData.isZero. cbn [PackedData.type PackedData.data isVoid category plain].
  fold (allZero (writeUnaligned 8 v)).
  destruct (allZero (writeUnaligned 8 v)) eqn:Hz.
  - apply readUnaligned_zero in Hz. rewrite readUnaligned_writeUnaligned in Hz.
    change (8 * Z.of_nat 8) with 64 in Hz.
    unfold isInt64, INT64_MIN, INT64_MAX in Hv.
    symmetry. apply Z.eqb_eq.
    destruct (Z.lt_ge_cases v 0) as [Hneg | Hpos].
    + assert (H : v mod 2 ^ 64 = v + 2 ^ 64).
      { rewrite <- (Z.mod_add v 1) by lia. rewrite Z.mul_1_l. apply Z.mod_small. lia. }
      lia.
    + rewrite Z.mod_small in Hz by lia. exact Hz.
  - symmetry. apply Z.eqb_neq. intros ->.
    rewrite writeUnaligned_zero, allZero_repeat in Hz. discriminate.
Qed.

Lemma isZero_int32 (v : Z) :
  - 2 ^ 31 <= v < 2 ^ 31 ->
  PackedData.isZero (PackedData.mk (plain (primitive int32)) (writeUnaligned 4 v))
  = (v =? 0).
Proof.
  intros Hv. unfold PackedData.isZero. cbn [PackedData.type PackedData.data isVoid category plain].
  fold (allZero (writeUnaligned 4 v)).
  destruct (allZero (writeUnaligned 4 v)) eqn:Hz.
  - apply readUnaligned_zero in Hz. rewrite readUnaligned_writeUnaligned in Hz.
    change (8 * Z.of_nat 4) with 32 in Hz.
    symmetry. apply Z.eqb_eq.
    destruct (Z.lt_ge_cases v 0) as [Hneg | Hpos].
    + assert (H : v mod 2 ^ 32 = v + 2 ^ 32).
      { rewrite <- (Z.mod_add v 1) by lia. rewrite Z.mul_1_l. apply Z.mod_small. lia. }
      lia.
    + rewrite Z.mod_small in Hz by lia. exact Hz.
  - symmetry. apply Z.eqb_neq. intros ->.
    rewrite writeUnaligned_zero, allZero_repeat in Hz. discriminate.
Qed.

Local Abbreviation int32Type := (plain (primitive int32)).
Local Abbreviation int64Type := (plain (primitive int64)).
Local Abbreviation boolType := (plain (primitive bool_)).

Lemma setFrom_int32_from_int64 (v : Z) :
  isInt64 v ->
  PackedData.setFrom (Value.getData (Value.ofType int32Type))
                     (Value.getData (Value.createInt64 v))
  = Some (writeUnaligned 4 (to_int32 v)).
Proof.
  intros Hv. unfold PackedData.setFrom, Value.getData, Value.ofType, Value.createInt64.
  cbn [Value.type Value.allocatedData PackedData.type PackedData.data category isConst
       isReference plain PackedData.setFromCategory].
  rewrite (isZero_int64 v Hv).
  destruct (Z.eqb_spec v 0) as [-> | Hne].
  - reflexivity.
  - cbn [isPrimitive category]. unfold PackedData.setPrimitiveFrom.
    cbn [PackedData.type isInteger32 category isFloatingPoint isFloat32 isFloat64 orb].
    rewrite getAsInt64_createInt64. cbn [option_map].
    rewrite (to_int64_id v Hv). reflexivity.
Qed.

Lemma setFrom_int64_from_int32 (v : Z) :
  - 2 ^ 31 <= v < 2 ^ 31 ->
  PackedData.setFrom (Value.getData (Value.ofType int64Type))
                     (Value.getData (Value.createInt32 v))
  = Some (writeUnaligned 8 v).
Proof.
  intros Hv. unfold PackedData.setFrom, Value.getData, Value.ofType, Value.createInt32.
  cbn [Value.type Value.allocatedData PackedData.type PackedData.data category isConst
       isReference plain PackedData.setFromCategory].
  rewrite (isZero_int32 v Hv).
  destruct (Z.eqb_spec v 0) as [-> | Hne].
  - reflexivity.
  - cbn [isPrimitive category]. unfold PackedData.setPrimitiveFrom.
    cbn [PackedData.type isInteger32 isInteger64 category isFloatingPoint isFloat32
         isFloat64 orb].
    rewrite getAsInt64_createInt32.
    rewrite (to_int32_small v) by (unfold INT32_MAX; lia). reflexivity.
Qed.

Lemma setFrom_bool_from_int32 (v : Z) :
  - 2 ^ 31 <= v < 2 ^ 31 ->
  PackedData.setFrom (Value.getData (Value.ofType boolType))
                     (Value.getData (Value.createInt32 v))
  = Some (writeUnaligned 1 (if v =? 0 then 0 else 1)).
Proof.
  intros Hv. unfold PackedData.setFrom, Value.getData, Value.ofType, Value.createInt32.
  cbn [Value.type Value.allocatedData PackedData.type PackedData.data category isConst
       isReference plain PackedData.setFromCategory].
  rewrite (isZero_int32 v Hv).
  destruct (Z.eqb_spec v 0) as [-> | Hne].
  - reflexivity.
  - cbn [isPrimitive category]. unfold PackedData.setPrimitiveFrom, PackedData.getAsBool.
    cbn [PackedData.type isInteger32 isInteger64 isInteger category isFloatingPoint isFloat32
         isFloat64 isBool isPrimitive orb SOUL_ASSERT].
    rewrite getAsInt64_createInt32. cbn [option_map].
    rewrite (to_int32_small v) by (unfold INT32_MAX; lia).
    destruct (Z.eqb_spec v 0); [contradiction | reflexivity].
Qed.

(** X8. Casts between the integer types and to [bool], where the oracle
    permits them: an [int64] cast to [int32] keeps its low 32 bits, read as a
    signed number; an [int32] cast to [int64] keeps its value, so that casting
    it back gives the value it was; an [int32] cast to [bool] is true exactly
    when it is not zero. *)
Theorem integer_casts (v : Z) :
  (isInt64 v -> canCastTo int32Type int64Type = true ->
     Value.tryCastToType (Value.createInt64 v) int32Type
     = Some (Value.createInt32 (to_int32 v)))
  /\ (- 2 ^ 31 <= v < 2 ^ 31 -> canCastTo int64Type int32Type = true ->
        Value.tryCastToType (Value.createInt32 v) int64Type = Some (Value.createInt64 v))
  /\ (- 2 ^ 31 <= v < 2 ^ 31 ->
      canCastTo int64Type int32Type = true -> canCastTo int32Type int64Type = true ->
        (do wide <- Value.tryCastToType (Value.createInt32 v) int64Type;
         Value.tryCastToType wide int32Type) = Some (Value.createInt32 v))
  /\ (- 2 ^ 31 <= v < 2 ^ 31 -> canCastTo boolType int32Type = true ->
        Value.tryCastToType (Value.createInt32 v) boolType
        = Some (Value.createBool (negb (v =? 0)))).
Proof.
  assert (Hnarrow : isInt64 v -> canCastTo int32Type int64Type = true ->
     Value.tryCastToType (Value.createInt64 v) int32Type
     = Some (Value.createInt32 (to_int32 v))).
  { intros Hv Hcast. rewrite tryCastToType_converts by (try reflexivity; exact Hcast).
    now rewrite setFrom_int32_from_int64. }
  assert (Hwiden : - 2 ^ 31 <= v < 2 ^ 31 -> canCastTo int64Type int32Type = true ->
        Value.tryCastToType (Value.createInt32 v) int64Type = Some (Value.createInt64 v)).
  { intros Hv Hcast. rewrite tryCastToType_converts by (try reflexivity; exact Hcast).
    now rewrite setFrom_int64_from_int32. }
  repeat apply conj.
  - exact Hnarrow.
  - exact Hwiden.
  - intros Hv Hup Hdown. rewrite (Hwiden Hv Hup).
    rewrite Hnarrow by (try assumption; unfold isInt64, INT64_MIN, INT64_MAX; lia).
    now rewrite (to_int32_small v) by (unfold INT32_MAX; lia).
  - intros Hv Hcast. rewrite tryCastToType_converts by (try reflexivity; exact Hcast).
    rewrite setFrom_bool_from_int32 by exact Hv. cbn [option_map].
    unfold Value.createBool. now destruct (v =? 0).
Qed.

End CastingConversions.

Section CastingMore.
Context {TR : TypeRules} {FC : FloatConversions}.
Import ValueMethods.

Lemma clamp_is_max_min (N v : Z) (c r : bool) :
  1 <= N <= INT64_MAX ->
  PackedData.wrapOrClampToLegalValue (mkType (boundedInt clamp N) c r) v
  = Z.max 0 (Z.min (N - 1) v).
Proof.
  intros HN. unfold PackedData.wrapOrClampToLegalValue, isWrapped, isClamped, getBoundedIntLimit.
  cbn [category].
  assert (HNi : isInt64 N) by (unfold isInt64, INT64_MIN, INT64_MAX in *; lia).
  rewrite (to_int64_id N HNi).
  destruct (Z.ltb_spec v 0); [lia |].
  destruct (v >=? N) eqn:Hge.
  - apply Z.geb_le in Hge.
    rewrite to_int64_id by (unfold isInt64, INT64_MIN, INT64_MAX in *; lia). lia.
  - rewrite Z.geb_leb in Hge. apply Z.leb_gt in Hge. lia.
Qed.

(** The value a bounded integer of limit [N] takes for [v]. *)
Lemma legal_value_range (policy : BoundedIntPolicy) (N v : Z) :
  1 <= N <= INT32_MAX -> isInt64 v ->
  let legal := match policy with
               | wrap => v mod N
               | clamp => Z.max 0 (Z.min (N - 1) v)
               end in
  PackedData.wrapOrClampToLegalValue (plain (boundedInt policy N)) v = legal
  /\ 0 <= legal < N.
Proof.
  intros HN Hv. assert (HN64 : 1 <= N <= INT64_MAX) by (unfold INT32_MAX, INT64_MAX in *; lia).
  destruct policy; cbn zeta.
  - split; [now apply wrap_is_modulo | apply Z.mod_pos_bound; lia].
  - split; [now apply clamp_is_max_min | lia].
Qed.

(** X9. A cast of an [int64] to a bounded integer of limit [N], where the
    oracle permits it, gives a value of that type which reads back as
    [v mod N] under the wrap policy and as [v] clamped to [0 .. N - 1] under
    the clamp policy: a number of the range [0 .. N - 1] in both. *)
Theorem cast_to_bounded_int (policy : BoundedIntPolicy) (N v : Z) :
  1 <= N <= INT32_MAX -> isInt64 v ->
  canCastTo (plain (boundedInt policy N)) (plain (primitive int64)) = true ->
  let legal := match policy with
               | wrap => v mod N
               | clamp => Z.max 0 (Z.min (N - 1) v)
               end in
  exists result,
    Value.tryCastToType (Value.createInt64 v) (plain (boundedInt policy N)) = Some result
    /\ Value.type result = plain (boundedInt policy N)
    /\ getAsInt64 result = Some legal
    /\ 0 <= legal < N.
Proof.
  intros HN Hv Hcast legal.
  destruct (legal_value_range policy N v HN Hv) as [Hlegal Hrange]. fold legal in Hlegal, Hrange.
  exists (Value.mk (plain (boundedInt policy N)) (writeUnaligned 4 legal)).
  assert (Hread : getAsInt64 (Value.mk (plain (boundedInt policy N)) (writeUnaligned 4 legal))
                  = Some legal).
  { unfold getAsInt64. rewrite getDataChecked_ok by reflexivity.
    unfold Value.getData, PackedData.getAsInt64, PackedData.getAsInt64_with, PackedData.getAs,
      PackedData.size.
    cbn [Value.type Value.allocatedData PackedData.type PackedData.data].
    rewrite length_writeUnaligned.
    cbn -[readUnaligned writeUnaligned to_int32].
    rewrite to_int32_read_write, to_int32_small by (unfold INT32_MAX in *; lia).
    reflexivity. }
  split; [| split; [reflexivity | split; [exact Hread | exact Hrange]]].
  rewrite tryCastToType_converts by (try reflexivity; exact Hcast).
  unfold PackedData.setFrom, Value.getData, Value.ofType, Value.createInt64.
  cbn [Value.type Value.allocatedData PackedData.type PackedData.data category isConst
       isReference plain PackedData.setFromCategory].
  rewrite (isZero_int64 v Hv).
  destruct (Z.eqb_spec v 0) as [-> | Hne].
  - cbn [option_map]. f_equal. f_equal.
    assert (Hzero : legal = 0).
    { subst legal. destruct policy; [apply Z.mod_0_l; lia | lia]. }
    rewrite Hzero. reflexivity.
  - cbn [isPrimitive isBoundedInt category].
    rewrite getAsInt64_createInt64, (to_int64_id v Hv).
    change (mkType (boundedInt policy N) false false) with (plain (boundedInt policy N)).
    rewrite Hlegal, to_int32_small by (unfold INT32_MAX in *; lia).
    reflexivity.
Qed.

(** X10. A value whose bytes are all zero casts, wherever the cast is
    permitted and is not one to an unsized array of another type, to the
    zero-initialised value of the destination type, whatever the two types
    are. *)
Theorem cast_of_zero_is_zero (v : Value.t) (t : Type_) :
  isValid (Value.type v) && negb (isVoid (Value.type v)) = true ->
  allZero (Value.allocatedData v) = true ->
  isValid t && negb (isVoid t) = true ->
  isIdentical t (Value.type v) = false ->
  canCastTo t (Value.type v) = true ->
  isUnsizedArray t && negb (isIdentical (removeConstIfPresent t) (Value.type v)) = false ->
  Value.tryCastToType v t = Some (Value.ofType t)
  /\ zeroInitialiser t = Some (Value.ofType t)
  /\ isZero (Value.ofType t) = Some true.
Proof.
  intros Hv Hzero Ht Hid Hcast Hunsized.
  assert (HisZero : PackedData.isZero (Value.getData v) = true).
  { unfold PackedData.isZero, Value.getData. cbn [PackedData.type PackedData.data].
    destruct (isVoid (Value.type v)); [reflexivity | exact Hzero]. }
  repeat apply conj.
  - rewrite tryCastToType_converts by assumption.
    unfold PackedData.setFrom.
    assert (Hset : forall c cst ref bytes,
               PackedData.setFromCategory c cst ref bytes (Value.getData v)
               = Some (repeat x00 (List.length bytes))).
    { intros c cst ref bytes. destruct c; cbn [PackedData.setFromCategory];
        rewrite HisZero; reflexivity. }
    rewrite Hset. cbn [option_map]. unfold Value.ofType, Value.getData.
    cbn [Value.allocatedData PackedData.data]. now rewrite repeat_length.
  - unfold zeroInitialiser, SOUL_ASSERT. now rewrite Ht.
  - unfold isZero, Value.isValid. cbn [Value.ofType Value.type].
    apply andb_true_iff in Ht as Ht'. destruct Ht' as [Hvalid Hvoid]. rewrite Hvalid.
    cbn [negb]. rewrite getDataChecked_ok by exact Ht.
    unfold PackedData.isZero, Value.getData, Value.ofType.
    cbn [PackedData.type PackedData.data Value.type Value.allocatedData].
    apply negb_true_iff in Hvoid. rewrite Hvoid.
    fold (allZero (repeat x00 (getPackedSizeInBytes t))). now rewrite allZero_repeat.
Qed.

End CastingMore.

Lemma cast_to_bounded_int_witness :
  1 <= 10 <= INT32_MAX
  /\ forall FC : FloatConversions,
       exists result,
         @Value.tryCastToType SpecTypeRules.oracle FC
                              (Value.createInt64 15) (plain (boundedInt wrap 10))
         = Some result
         /\ @ValueMethods.getAsInt64 FC result = Some 5.
Proof.
  assert (Hrange : 1 <= 10 <= INT32_MAX) by (unfold INT32_MAX; lia).
  split; [exact Hrange |]. intros FC.
  destruct (@cast_to_bounded_int SpecTypeRules.oracle FC wrap 10 15 Hrange)
    as (result & Hcast & _ & Hread & _).
  - unfold isInt64, INT64_MIN, INT64_MAX. lia.
  - reflexivity.
  - exists result. split; [exact Hcast | exact Hread].
Defined.

Lemma cast_of_zero_is_zero_witness :
  allZero (Value.allocatedData (Value.createInt32 0)) = true
  /\ forall FC : FloatConversions,
       @Value.tryCastToType SpecTypeRules.oracle FC
                            (Value.createInt32 0) (plain (primitive int64))
       = Some (Value.ofType (plain (primitive int64))).
Proof.
  split; [reflexivity |]. intros FC.
  apply (@cast_of_zero_is_zero SpecTypeRules.oracle FC
           (Value.createInt32 0) (plain (primitive int64))); reflexivity.
Defined.

Lemma PrimitiveType_eqb_eq (a b : PrimitiveType) : PrimitiveType_eqb a b = true <-> a = b.
Proof. destruct a, b; cbn; split; intros H; try reflexivity; discriminate. Qed.

Lemma Category_eqb_eq : forall a b : Category, Category_eqb a b = true <-> a = b.
Proof.
  fix IH 1. intros a b. destruct a as [| p | pa la | | p n | ea sa | na ma];
    destruct b as [| q | pb lb | | q m | eb sb | nb mb]; cbn [Category_eqb];
    try (split; intros H; [discriminate | discriminate]);
    try (split; intros H; reflexivity).
  - rewrite PrimitiveType_eqb_eq. split; [intros -> | intros [= ->]]; reflexivity.
  - rewrite andb_true_iff, Z.eqb_eq. split.
    + intros [Hp ->]. destruct pa, pb; try discriminate; reflexivity.
    + intros [= -> ->]. split; [destruct pb |]; reflexivity.
  - rewrite andb_true_iff, PrimitiveType_eqb_eq, Nat.eqb_eq. split.
    + intros [-> ->]. reflexivity.
    + intros [= -> ->]. split; reflexivity.
  - rewrite andb_true_iff, (IH ea eb). split.
    + intros [-> Hs]. destruct sa, sb; cbn in Hs; try discriminate; [| reflexivity].
      apply Nat.eqb_eq in Hs. now subst.
    + intros [= -> ->]. split; [reflexivity |].
      destruct sb; cbn; [apply Nat.eqb_refl | reflexivity].
  - rewrite andb_true_iff, String.eqb_eq.
    assert (Hmembers : forall xs ys,
      (fix members_eqb (xs ys : list Category) {struct xs} : bool :=
         match xs, ys with
         | [], [] => true
         | x :: xs', y :: ys' => Category_eqb x y && members_eqb xs' ys'
         | _, _ => false
         end) xs ys = true <-> xs = ys).
    { fix IHm 1. intros [| x xs] [| y ys]; try (split; intros H; [discriminate | discriminate]).
      - split; reflexivity.
      - rewrite andb_true_iff, (IH x y), (IHm xs ys). split.
        + intros [-> ->]. reflexivity.
        + intros [= -> ->]. split; reflexivity. }
    rewrite Hmembers. split.
    + intros [-> ->]. reflexivity.
    + intros [= -> ->]. split; reflexivity.
Qed.

Lemma isIdentical_eq (a b : Type_) : isIdentical a b = true <-> a = b.
Proof.
  unfold isIdentical. rewrite !andb_true_iff, Category_eqb_eq, !Bool.eqb_true_iff.
  destruct a, b; cbn. split.
  - intros [[-> ->] ->]. reflexivity.
  - intros [= -> -> ->]. repeat split.
Qed.

Section ValueEquality.
Import ValueMethods.

Lemma isVoid_isValid (t : Type_) : isVoid t = true -> isValid t = true.
Proof.
  unfold isVoid, isValid. destruct (category t); try discriminate; reflexivity.
Qed.

Lemma bytes_eqb_sym (x y : list byte) : bytes_eqb x y = bytes_eqb y x.
Proof.
  destruct (bytes_eqb x y) eqn:Hxy, (bytes_eqb y x) eqn:Hyx; try reflexivity.
  - apply bytes_eqb_eq in Hxy. subst y.
    rewrite (proj2 (bytes_eqb_eq x x) eq_refl) in Hyx. discriminate.
  - apply bytes_eqb_eq in Hyx. subst y.
    rewrite (proj2 (bytes_eqb_eq x x) eq_refl) in Hxy. discriminate.
Qed.

Lemma eqb_valid_iff (a b : Value.t) :
  isValid (Value.type a) = true -> isVoid (Value.type a) = false ->
  hasPackedSize a -> hasPackedSize b ->
  (Value.eqb a b = Some true <-> a = b).
Proof.
  intros Hvalid Hvoid Ha Hb. rewrite eqb_cases. unfold Value.isValid. rewrite Hvalid.
  destruct (isIdentical (Value.type a) (Value.type b)) eqn:Hid.
  - rewrite <- (isIdentical_isValid _ _ Hid), Hvalid, Hvoid.
    apply isIdentical_eq in Hid. unfold hasPackedSize in Ha, Hb.
    rewrite (firstn_all2 (Value.allocatedData b)
                         (n := List.length (Value.allocatedData a)))
      by (rewrite Ha, Hb, Hid; apply le_n).
    destruct a, b; cbn in *. split.
    + intros [= H]. apply bytes_eqb_eq in H. now subst.
    + intros [= _ ->]. f_equal. now apply bytes_eqb_eq.
  - assert (Hne : a <> b).
    { intros ->. rewrite (proj2 (isIdentical_eq _ _) eq_refl) in Hid. discriminate. }
    destruct (isValid (Value.type b)); (split; [discriminate | intros H; now destruct Hne]).
Qed.

Lemma eqb_true_valid (a b : Value.t) :
  Value.eqb a b = Some true -> isValid (Value.type a) = true ->
  isVoid (Value.type a) = false.
Proof.
  rewrite eqb_cases. unfold Value.isValid. intros H Hvalid. rewrite Hvalid in H.
  destruct (isValid (Value.type b)); [| discriminate].
  destruct (isIdentical (Value.type a) (Value.type b)); [| discriminate].
  destruct (isVoid (Value.type a)); [discriminate | reflexivity].
Qed.

(** X11. On values whose buffer has the packed size of their type,
    [operator==] is symmetric and transitive, and every value that is not
    void equals itself; the comparison of a void value with itself gives no
    answer, as the assertion of [getData] fails.  Two valid values that are
    not void compare equal exactly when they have the same type and the same
    bytes; all invalid values compare equal, and to no valid one. *)
Theorem Value_equality_is_an_equivalence (a b c : Value.t) :
  hasPackedSize a -> hasPackedSize b -> hasPackedSize c ->
  Value.eqb a a = (if isVoid (Value.type a) then None else Some true)
  /\ Value.eqb a b = Value.eqb b a
  /\ (Value.eqb a b = Some true -> Value.eqb b c = Some true -> Value.eqb a c = Some true)
  /\ (isValid (Value.type a) = true -> isVoid (Value.type a) = false ->
      (Value.eqb a b = Some true <-> a = b))
  /\ (isValid (Value.type a) = false ->
      Value.eqb a b = Some (negb (isValid (Value.type b)))).
Proof.
  intros Ha Hb Hc.
  assert (Hinvalid : forall x y, isValid (Value.type x) = false ->
                                 Value.eqb x y = Some (negb (isValid (Value.type y)))).
  { intros x y Hx. unfold Value.eqb. now rewrite Hx. }
  repeat match goal with |- _ /\ _ => split end.
  - destruct (isVoid (Value.type a)) eqn:Hvoid.
    + rewrite eqb_cases. unfold Value.isValid.
      rewrite (isVoid_isValid _ Hvoid), (proj2 (isIdentical_eq _ _) eq_refl), Hvoid.
      reflexivity.
    + destruct (isValid (Value.type a)) eqn:Hva.
      * now apply eqb_valid_iff.
      * rewrite Hinvalid, Hva by assumption. reflexivity.
  - rewrite (eqb_cases a b), (eqb_cases b a). unfold Value.isValid.
    destruct (isValid (Value.type a)) eqn:Hva, (isValid (Value.type b)) eqn:Hvb;
      try reflexivity.
    destruct (isIdentical (Value.type a) (Value.type b)) eqn:Hid.
    + apply isIdentical_eq in Hid. unfold hasPackedSize in Ha, Hb.
      rewrite <- Hid, (proj2 (isIdentical_eq _ _) eq_refl).
      destruct (isVoid (Value.type a)); [reflexivity |].
      rewrite (firstn_all2 (Value.allocatedData b)
                           (n := List.length (Value.allocatedData a)))
        by (rewrite Ha, Hb, Hid; apply le_n).
      rewrite (firstn_all2 (Value.allocatedData a)
                           (n := List.length (Value.allocatedData b)))
        by (rewrite Ha, Hb, Hid; apply le_n).
      now rewrite bytes_eqb_sym.
    + destruct (isIdentical (Value.type b) (Value.type a)) eqn:Hid'; [| reflexivity].
      apply isIdentical_eq in Hid'.
      rewrite Hid', (proj2 (isIdentical_eq _ _) eq_refl) in Hid. discriminate.
  - intros Hab Hbc.
    destruct (isValid (Value.type a)) eqn:Hva.
    + pose proof (eqb_true_valid a b Hab Hva) as Hvoid.
      apply eqb_valid_iff in Hab; try assumption. now subst b.
    + rewrite Hinvalid in Hab by assumption. injection Hab as Hab.
      apply negb_true_iff in Hab.
      rewrite Hinvalid in Hbc by assumption. now rewrite Hinvalid.
  - intros Hva Hvoid. now apply eqb_valid_iff.
  - apply Hinvalid.
Qed.

End ValueEquality.

Lemma Value_equality_is_an_equivalence_witness :
  ValueMethods.hasPackedSize (Value.createInt32 5)
  /\ Value.eqb (Value.createInt32 5) (Value.createInt32 5) = Some true
  /\ Value.eqb (Value.createInt32 5) (Value.createInt64 5)
     = Value.eqb (Value.createInt64 5) (Value.createInt32 5).
Proof.
  split; [reflexivity |].
  destruct (Value_equality_is_an_equivalence
              (Value.createInt32 5) (Value.createInt64 5) (Value.createInt32 6))
    as (Hrefl & Hsym & _); try reflexivity.
  split; [exact Hrefl | exact Hsym].
Defined.

Section Broadcast.
Context {FC : FloatConversions}.

Lemma firstn_repeat_zero (size k : nat) :
  firstn size (repeat x00 (size + k)) = repeat x00 size.
Proof.
  rewrite repeat_app, firstn_app, repeat_length, Nat.sub_diag, firstn_O, app_nil_r.
  apply firstn_all2. rewrite repeat_length. apply le_n.
Qed.

Lemma skipn_repeat_zero (size k : nat) :
  skipn size (repeat x00 (size + k)) = repeat x00 k.
Proof.
  rewrite repeat_app, skipn_app, repeat_length, Nat.sub_diag, skipn_O.
  rewrite skipn_all2 by (rewrite repeat_length; apply le_n). reflexivity.
Qed.

(** The broadcast loop over a zeroed buffer of [n] elements. *)
Lemma setElementsBroadcast_zeroed (setElement : list byte -> option (list byte))
      (elementSize n : nat) (e : list byte) :
  setElement (repeat x00 elementSize) = Some e ->
  PackedData.setElementsBroadcast setElement elementSize n (repeat x00 (n * elementSize))
  = Some (List.concat (repeat e n)).
Proof.
  intros He. induction n as [| n IH]; [reflexivity |].
  cbn [PackedData.setElementsBroadcast Nat.mul].
  rewrite firstn_repeat_zero, skipn_repeat_zero, He, IH. reflexivity.
Qed.

Lemma concat_repeat_zero (size n : nat) :
  List.concat (repeat (repeat x00 size) n) = repeat x00 (n * size).
Proof.
  induction n as [| n IH]; [reflexivity |].
  cbn [repeat List.concat Nat.mul]. now rewrite IH, repeat_app.
Qed.

(** X12. A scalar source fills a vector, or an array of primitives, lane by
    lane: where [setFrom] writes the bytes [e] into the zeroed buffer of the
    element type, it writes [n] copies of [e] into the zeroed buffer of the
    vector or array of [n] such elements. *)
Theorem setFrom_scalar_fills_every_element
        (pt : PrimitiveType) (n : nat) (other : PackedData.t) (e : list byte) :
  isPrimitive (PackedData.type other) = true ->
  PackedData.setFrom (Value.getData (Value.ofType (plain (primitive pt)))) other = Some e ->
  PackedData.setFrom (Value.getData (Value.ofType (plain (vector pt n)))) other
  = Some (List.concat (repeat e n))
  /\ PackedData.setFrom
       (Value.getData (Value.ofType (plain (array (primitive pt) (Some n))))) other
     = Some (List.concat (repeat e n)).
Proof.
  intros Hprim He.
  unfold PackedData.setFrom, Value.getData, Value.ofType, getPackedSizeInBytes in *.
  cbn [Value.type Value.allocatedData PackedData.type PackedData.data category isConst
       isReference plain packedSize PackedData.setFromCategory] in *.
  destruct (PackedData.isZero other) eqn:Hzero.
  - injection He as <-. unfold PackedData.clear, PackedData.size.
    cbn [PackedData.data]. rewrite !repeat_length.
    now rewrite concat_repeat_zero.
  - cbn [isPrimitive category] in He.
    cbn [isPrimitive isBoundedInt isUnsizedArray isStringLiteral isArrayOrVector isArray
         isVector category orb getArrayOrVectorSize].
    rewrite Hprim. cbn [orb]. split.
    + apply setElementsBroadcast_zeroed.
      unfold PackedData.setLaneFrom. rewrite Hzero. exact He.
    + apply setElementsBroadcast_zeroed. exact He.
Qed.

End Broadcast.

Lemma setFrom_scalar_fills_every_element_witness :
  isPrimitive (PackedData.type (Value.getData (Value.createInt32 7))) = true
  /\ forall FC : FloatConversions,
    PackedData.setFrom (Value.getData (Value.ofType (plain (primitive int32))))
                       (Value.getData (Value.createInt32 7))
    = Some (writeUnaligned 4 7)
    /\ PackedData.setFrom (Value.getData (Value.ofType (plain (vector int32 3))))
                          (Value.getData (Value.createInt32 7))
       = Some (List.concat (repeat (writeUnaligned 4 7) 3)).
Proof.
  split; [reflexivity |]. intros FC.
  assert (H : PackedData.setFrom (Value.getData (Value.ofType (plain (primitive int32))))
                                 (Value.getData (Value.createInt32 7))
              = Some (writeUnaligned 4 7)) by reflexivity.
  split; [exact H |].
  exact (proj1 (@setFrom_scalar_fills_every_element FC int32 3
                  (Value.getData (Value.createInt32 7)) (writeUnaligned 4 7)
                  eq_refl H)).
Defined.

(* ================================================================== *)
(** ** The checks of the sanity pass on sizes, types and functions *)

Section SizesOfConstants.
Context {TY : AST.Typing} {FC : FloatConversions}.
Variable contextOf : AST.Expression -> CodeLocation.
Import AST SanityChecks.

Lemma getAsInt64_of_int32 (n : Z) :
  - 2 ^ 31 <= n < 2 ^ 31 -> ValueMethods.getAsInt64 (Value.createInt32 n) = Some n.
Proof.
  intros Hn. unfold ValueMethods.getAsInt64. rewrite getDataChecked_ok by reflexivity.
  unfold Value.getData, Value.createInt32. cbn [Value.type Value.allocatedData].
  rewrite getAsInt64_createInt32, to_int32_small by (unfold INT32_MAX; lia). reflexivity.
Qed.

Lemma getAsInt64_of_int64 (n : Z) :
  isInt64 n -> ValueMethods.getAsInt64 (Value.createInt64 n) = Some n.
Proof.
  intros Hn. unfold ValueMethods.getAsInt64. rewrite getDataChecked_ok by reflexivity.
  unfold Value.getData, Value.createInt64. cbn [Value.type Value.allocatedData].
  now rewrite getAsInt64_createInt64, to_int64_id.
Qed.

(** X14. [checkDelayLineLength] returns the length of a delay line given
    as an [int32] or [int64] constant exactly when it is between 1 and
    [maxDelayLineLength] (262144); a smaller one raises [delayLineTooShort], a
    larger one [delayLineTooLong], and a value of any other type
    [delayLineMustHaveIntLength]. *)
Theorem checkDelayLineLength_bounds (context : CodeLocation) (n : Z) :
  let expected :=
    if n <? 1 then Threw delayLineTooShort context
    else if n >? 262144 then Threw delayLineTooLong context
    else Returned n in
  (- 2 ^ 31 <= n < 2 ^ 31 ->
     checkDelayLineLength context (Value.createInt32 n) = Some expected)
  /\ (isInt64 n -> checkDelayLineLength context (Value.createInt64 n) = Some expected)
  /\ (forall v, isPrimitiveInteger (Value.type v) = false ->
        checkDelayLineLength context v = Some (Threw delayLineMustHaveIntLength context))
  /\ (forall v length,
        checkDelayLineLength context v = Some (Returned length) -> 1 <= length <= 262144).
Proof.
  intros expected. repeat match goal with |- _ /\ _ => split end.
  - intros Hn. unfold checkDelayLineLength. cbn [Value.createInt32 Value.type].
    change (isPrimitiveInteger (plain (primitive int32))) with true. cbn [negb].
    change (Value.mk (plain (primitive int32)) (writeUnaligned 4 n))
      with (Value.createInt32 n).
    rewrite getAsInt64_of_int32 by assumption. cbn iota.
    change (to_int64 maxDelayLineLength) with 262144. subst expected.
    destruct (n <? 1); [reflexivity |]. now destruct (n >? 262144).
  - intros Hn. unfold checkDelayLineLength. cbn [Value.createInt64 Value.type].
    change (isPrimitiveInteger (plain (primitive int64))) with true. cbn [negb].
    change (Value.mk (plain (primitive int64)) (writeUnaligned 8 n))
      with (Value.createInt64 n).
    rewrite getAsInt64_of_int64 by assumption. cbn iota.
    change (to_int64 maxDelayLineLength) with 262144. subst expected.
    destruct (n <? 1); [reflexivity |]. now destruct (n >? 262144).
  - intros v Hv. unfold checkDelayLineLength. now rewrite Hv.
  - intros v length. unfold checkDelayLineLength.
    destruct (isPrimitiveInteger (Value.type v)); cbn [negb]; [| discriminate].
    destruct (ValueMethods.getAsInt64 v) as [x |]; [| discriminate].
    change (to_int64 maxDelayLineLength) with 262144.
    destruct (Z.ltb_spec x 1); [discriminate |].
    destruct (x >? 262144) eqn:Hgt; [discriminate |].
    intros [= <-]. rewrite Z.gtb_ltb in Hgt. apply Z.ltb_ge in Hgt. lia.
Qed.

(** X15. [checkArraySize] accepts a missing array size; a size that is an
    [int32] or [int64] constant it accepts exactly when it is between 1 and the
    maximum, and raises [illegalArraySize] otherwise; a constant that is not an
    integer raises [nonIntegerArraySize], and an expression that gives no
    constant [nonConstArraySize]. *)
Theorem checkArraySize_bounds (a : Expression) (maxSize n : Z) :
  let expected :=
    if (n <? 1) || (n >? maxSize) then Threw illegalArraySize (contextOf a)
    else Returned tt in
  checkArraySize contextOf None maxSize = Some (Returned tt)
  /\ (- 2 ^ 31 <= n < 2 ^ 31 -> getAsConstant a = Some (Value.createInt32 n) ->
      checkArraySize contextOf (Some a) maxSize = Some expected)
  /\ (isInt64 n -> getAsConstant a = Some (Value.createInt64 n) ->
      checkArraySize contextOf (Some a) maxSize = Some expected)
  /\ (forall c, getAsConstant a = Some c -> isInteger (Value.type c) = false ->
        checkArraySize contextOf (Some a) maxSize
        = Some (Threw nonIntegerArraySize (contextOf a)))
  /\ (getAsConstant a = None ->
      checkArraySize contextOf (Some a) maxSize
      = Some (Threw nonConstArraySize (contextOf a))).
Proof.
  intros expected. repeat match goal with |- _ /\ _ => split end.
  - reflexivity.
  - intros Hn Hc. unfold checkArraySize. rewrite Hc.
    cbn [Value.createInt32 Value.type].
    change (isInteger (plain (primitive int32))) with true. cbn iota.
    change (Value.mk (plain (primitive int32)) (writeUnaligned 4 n))
      with (Value.createInt32 n).
    rewrite getAsInt64_of_int32 by assumption. subst expected.
    now destruct ((n <? 1) || (n >? maxSize)).
  - intros Hn Hc. unfold checkArraySize. rewrite Hc.
    cbn [Value.createInt64 Value.type].
    change (isInteger (plain (primitive int64))) with true. cbn iota.
    change (Value.mk (plain (primitive int64)) (writeUnaligned 8 n))
      with (Value.createInt64 n).
    rewrite getAsInt64_of_int64 by assumption. subst expected.
    now destruct ((n <? 1) || (n >? maxSize)).
  - intros c Hc Hint. unfold checkArraySize. now rewrite Hc, Hint.
  - intros Hc. unfold checkArraySize. now rewrite Hc.
Qed.

End SizesOfConstants.

Section MultidimensionalArrays.
Import SanityChecks.

Lemma Category_nested_ind (P : Category -> Prop) :
  P invalid -> (forall p, P (primitive p)) -> (forall policy limit, P (boundedInt policy limit)) ->
  P stringLiteral -> (forall p n, P (vector p n)) ->
  (forall e count, P e -> P (array e count)) ->
  (forall name members, Forall P members -> P (structure name members)) ->
  forall c, P c.
Proof.
  intros Hi Hp Hb Hs Hv Ha Hst. fix IH 1.
  intros [| p | policy limit | | p n | e count | name members].
  - exact Hi.
  - apply Hp.
  - apply Hb.
  - exact Hs.
  - apply Hv.
  - apply Ha, IH.
  - apply Hst. revert members. fix IHm 1. intros [| m rest].
    + constructor.
    + exact (Forall_cons m (IH m) (IHm rest)).
Qed.

Lemma multidimensional_message (location : CodeLocation) (c : Category) :
  forall d l, throwErrorIfMultidimensionalArray location c = Threw d l ->
              d = notYetImplemented "Multi-dimensional arrays" /\ l = location.
Proof.
  induction c as [| | | | | e count IH | name members IH] using Category_nested_ind;
    intros d l; cbn [throwErrorIfMultidimensionalArray]; try discriminate.
  - destruct (isArray (plain e)); [intros [= <- <-]; split; reflexivity | apply IH].
  - induction IH as [| m rest Hm _ IHrest]; [discriminate |].
    cbn fix beta iota.
    destruct (throwErrorIfMultidimensionalArray location m) as [[] | d' l'] eqn:E.
    + apply IHrest.
    + intros [= <- <-]. now apply Hm.
Qed.

(** X16. [throwErrorIfMultidimensionalArray] raises its error exactly for
    the types that have an array whose elements are arrays, directly or inside
    the element type of an array or the member of a struct, to any depth; the
    error is [notYetImplemented] at the location given. *)
Theorem multidimensional_arrays_rejected (location : CodeLocation) (c : Category) :
  (threw (throwErrorIfMultidimensionalArray location c) = true <-> hasArrayOfArrays c)
  /\ (forall d l, throwErrorIfMultidimensionalArray location c = Threw d l ->
                  d = notYetImplemented "Multi-dimensional arrays" /\ l = location).
Proof.
  split; [| apply multidimensional_message].
  induction c as [| | | | | e count IH | name members IH] using Category_nested_ind;
    cbn [throwErrorIfMultidimensionalArray threw];
    try (split; [discriminate | intros H; inversion H]).
  - destruct e as [| | | | | inner innerCount |]; cbn [isArray plain category] in *;
      try (rewrite IH; split; [intros H; now constructor | intros H; now inversion H]).
    split; [intros _; constructor | reflexivity].
  - split.
    + intros H. induction IH as [| m rest Hm _ IHrest]; [discriminate |].
      cbn fix beta iota in H.
      destruct (throwErrorIfMultidimensionalArray location m) as [[] | d l] eqn:E.
      * specialize (IHrest H). inversion IHrest as [| | ? ? m' Hin Hm']; subst.
        apply (inMember name (m :: rest) m'); [now right | assumption].
      * apply (inMember name (m :: rest) m); [now left |]. apply Hm.
        try rewrite E. reflexivity.
    + intros H. inversion H as [| | ? ? m' Hin Hm']; subst. clear H.
      induction IH as [| m rest Hm _ IHrest]; [destruct Hin |].
      cbn fix beta iota.
      destruct (throwErrorIfMultidimensionalArray location m) as [[] | d l] eqn:E;
        [| reflexivity].
      destruct Hin as [-> | Hin]; [| now apply IHrest].
      apply Hm in Hm'. try rewrite E in Hm'. discriminate.
Qed.

End MultidimensionalArrays.

Section DuplicateFunctionsProperties.
Import AST SanityChecks.
Variable isGeneric : Function -> bool.
Variable getSignatureID : Function -> string.

Local Abbreviation loop := (checkForDuplicateFunctions_loop isGeneric getSignatureID).
Local Abbreviation sigs := (signatures isGeneric getSignatureID).

Lemma existsb_eqb_string (x : string) (l : list string) :
  existsb (String.eqb x) l = true <-> In x l.
Proof.
  rewrite existsb_exists. split.
  - intros [y [Hin Heq]]. apply String.eqb_eq in Heq. now subst.
  - intros Hin. exists x. split; [assumption | apply String.eqb_refl].
Qed.

Lemma duplicate_functions_loop (functions : list Function) : forall seen,
  NoDup seen ->
  match loop functions seen with
  | Returned _ => NoDup (seen ++ sigs functions)
  | Threw d l =>
      d = duplicateFunction
      /\ exists before f after,
           functions = (before ++ f :: after)%list
           /\ l = functionContext f
           /\ isGeneric f = false
           /\ NoDup (seen ++ sigs before)
           /\ In (getSignatureID f) (seen ++ sigs before)
  end.
Proof.
  induction functions as [| f rest IH]; intros seen Hseen.
  - cbn. now rewrite app_nil_r.
  - cbn [checkForDuplicateFunctions_loop]. unfold signatures. cbn [filter].
    destruct (isGeneric f) eqn:Hg; cbn [negb].
    + specialize (IH seen Hseen). fold (sigs rest).
      destruct (loop rest seen) as [[] | d l]; [exact IH |].
      destruct IH as [-> (before & g & after & -> & -> & Hgen & Hnd & Hin)].
      split; [reflexivity |]. exists (f :: before), g, after.
      unfold signatures in *. cbn [filter]. rewrite Hg. cbn [negb]. auto.
    + destruct (existsb (String.eqb (getSignatureID f)) seen) eqn:Hdup.
      * apply existsb_eqb_string in Hdup. split; [reflexivity |].
        exists [], f, rest. cbn. rewrite app_nil_r. auto.
      * assert (Hnot : ~ In (getSignatureID f) seen).
        { intros Hin. apply existsb_eqb_string in Hin. congruence. }
        assert (Hseen' : NoDup (seen ++ [getSignatureID f])).
        { apply NoDup_app; [assumption | repeat constructor; intros [] |].
          intros x Hx [<- | []]. contradiction. }
        specialize (IH _ Hseen'). cbn [map]. fold (sigs rest).
        destruct (loop rest (seen ++ [getSignatureID f])) as [[] | d l].
        -- now rewrite <- app_assoc in IH.
        -- destruct IH as [-> (before & g & after & -> & -> & Hgen & Hnd & Hin)].
           split; [reflexivity |]. exists (f :: before), g, after.
           unfold signatures in *. cbn [filter map]. rewrite Hg. cbn [negb map].
           rewrite <- !app_assoc in *. auto.
Qed.

(** X17. [checkForDuplicateFunctions] passes exactly when the functions
    that are not generic have signatures different from one another; generic
    functions are never compared.  When two signatures are the same, the
    error is [duplicateFunction] at the first function whose signature is that
    of a function before it. *)
Theorem duplicate_functions (functions : list Function) :
  (checkForDuplicateFunctions isGeneric getSignatureID functions = Returned tt
   <-> NoDup (sigs functions))
  /\ (forall d l,
        checkForDuplicateFunctions isGeneric getSignatureID functions = Threw d l ->
        d = duplicateFunction
        /\ exists before f after,
             functions = (before ++ f :: after)%list
             /\ l = functionContext f
             /\ isGeneric f = false
             /\ NoDup (sigs before)
             /\ In (getSignatureID f) (sigs before)).
Proof.
  pose proof (duplicate_functions_loop functions [] (NoDup_nil _)) as H.
  unfold checkForDuplicateFunctions. cbn [app] in H.
  destruct (loop functions []) as [[] | d l].
  - split; [tauto | discriminate].
  - destruct H as [-> (before & f & after & Hsplit & Hl & Hgen & Hnd & Hin)]. split.
    + split; [discriminate |]. intros Hall. exfalso.
      subst functions. unfold signatures in *. rewrite filter_app, map_app in Hall.
      cbn [filter] in Hall. rewrite Hgen in Hall. cbn [negb map] in Hall.
      apply NoDup_remove_2 in Hall. apply Hall. apply in_or_app. now left.
    + intros d' l' [= <- <-]. split; [reflexivity |].
      exists before, f, after. auto.
Qed.

End DuplicateFunctionsProperties.

(* ================================================================== *)
(** ** Graphs that contain themselves *)

Section RecursiveGraphs.
Import SanityChecks RecursiveGraphDetector.
Local Open Scope nat_scope.
Variable graphs : list Graph.

Local Abbreviation step := (next graphs).

Lemma next_functional (g a b : nat) : step g a -> step g b -> a = b.
Proof. unfold next. congruence. Qed.

Lemma next_in_range (g h : nat) : step g h -> (g < List.length graphs)%nat.
Proof.
  unfold next, instancesOf. intros H.
  destruct (nth_error graphs g) eqn:E; [| discriminate].
  apply nth_error_Some. congruence.
Qed.

Lemma existsb_eqb_nat (x : nat) (l : list nat) :
  existsb (Nat.eqb x) l = true <-> In x l.
Proof.
  rewrite existsb_exists. split.
  - intros [y [Hin Heq]]. apply Nat.eqb_eq in Heq. now subst.
  - intros Hin. exists x. split; [assumption | apply Nat.eqb_refl].
Qed.

Lemma bounded_NoDup_length (l : list nat) (n : nat) :
  NoDup l -> (forall x, In x l -> (x < n)%nat) -> (List.length l <= n)%nat.
Proof.
  intros Hnd Hb. rewrite <- (length_seq n 0). apply NoDup_incl_length; [assumption |].
  intros x Hx. apply in_seq. specialize (Hb x Hx). split; [apply Nat.le_0_l | exact Hb].
Qed.

Lemma check_returns : forall fuel g stack,
  NoDup stack -> (forall x, In x stack -> (x < List.length graphs)%nat) ->
  (List.length graphs < fuel + List.length stack)%nat ->
  exists r, check fuel graphs g stack = Some r.
Proof.
  induction fuel as [| fuel IH]; intros g stack Hnd Hrange Hfuel.
  - pose proof (bounded_NoDup_length stack _ Hnd Hrange) as Hlen. cbn in Hfuel.
    exfalso. apply (Nat.lt_irrefl (List.length graphs)).
    eapply Nat.lt_le_trans; eassumption.
  - cbn [check]. destruct (existsb (Nat.eqb g) stack) eqn:Hin; [eauto |].
    destruct (firstSubGraph (instancesOf graphs g)) as [sub |] eqn:Hsub; [| eauto].
    apply IH.
    + constructor; [| assumption]. intros H. apply existsb_eqb_nat in H. congruence.
    + intros x [<- | Hx]; [now apply (next_in_range g sub) | now apply Hrange].
    + cbn [List.length]. rewrite Nat.add_succ_r. exact Hfuel.
Qed.

Lemma check_threw : forall fuel root g stack d l,
  clos_refl_trans nat step root g ->
  (forall p, In p stack -> clos_trans nat step p g) ->
  check fuel graphs g stack = Some (Threw d l) ->
  exists h, d = recursiveTypes h /\ l = contextOfGraph graphs h
            /\ clos_refl_trans nat step root h /\ clos_trans nat step h h.
Proof.
  induction fuel as [| fuel IH]; intros root g stack d l Hreach Hchain; cbn [check].
  - discriminate.
  - destruct (existsb (Nat.eqb g) stack) eqn:Hin.
    + intros [= <- <-]. apply existsb_eqb_nat in Hin. exists g. auto.
    + destruct (firstSubGraph (instancesOf graphs g)) as [sub |] eqn:Hsub; [| discriminate].
      apply IH.
      * eapply rt_trans; [exact Hreach | apply rt_step; exact Hsub].
      * intros p [<- | Hp]; [apply t_step; exact Hsub |].
        eapply t_trans; [apply Hchain; exact Hp | apply t_step; exact Hsub].
Qed.

Lemma rt_first_step {A : Type} (R : relation A) (x z : A) :
  clos_refl_trans A R x z -> z = x \/ exists y, R x y /\ clos_refl_trans A R y z.
Proof.
  intros H. apply clos_rt_rt1n in H. destruct H as [| y z Hstep Hrest]; [now left |].
  right. exists y. split; [assumption | now apply clos_rt1n_rt].
Qed.

Lemma t_first_step {A : Type} (R : relation A) (x z : A) :
  clos_trans A R x z -> exists y, R x y /\ clos_refl_trans A R y z.
Proof.
  intros H. apply clos_trans_t1n in H. destruct H as [y Hstep | y z Hstep Hrest].
  - exists y. split; [assumption | apply rt_refl].
  - exists y. split; [assumption |]. apply clos_t_clos_rt, clos_t1n_trans. exact Hrest.
Qed.

Lemma check_returned : forall fuel g stack,
  check fuel graphs g stack = Some (Returned tt) ->
  forall h, clos_refl_trans nat step g h -> ~ clos_trans nat step h h.
Proof.
  induction fuel as [| fuel IH]; intros g stack; cbn [check]; [discriminate |].
  destruct (existsb (Nat.eqb g) stack); [discriminate |].
  destruct (firstSubGraph (instancesOf graphs g)) as [sub |] eqn:Hsub.
  - intros Hcheck h Hreach Hcycle. specialize (IH _ _ Hcheck).
    destruct (rt_first_step _ _ _ Hreach) as [-> | [y [Hstep Hrest]]].
    + destruct (t_first_step _ _ _ Hcycle) as [y [Hstep Hrest]].
      rewrite (next_functional _ _ _ Hstep Hsub) in Hrest.
      exact (IH g Hrest Hcycle).
    + rewrite (next_functional _ _ _ Hstep Hsub) in Hrest.
      exact (IH h Hrest Hcycle).
  - intros _ h Hreach Hcycle.
    destruct (rt_first_step _ _ _ Hreach) as [-> | [y [Hstep Hrest]]].
    + destruct (t_first_step _ _ _ Hcycle) as [y [Hstep Hrest]].
      unfold next in Hstep. congruence.
    + unfold next in Hstep. congruence.
Qed.

Lemma firstSubGraph_cut (instances : Instances) :
  firstSubGraph (upToFirstSubGraph instances) = firstSubGraph instances.
Proof.
  induction instances as [| [sub |] rest IH]; cbn; [reflexivity | reflexivity | exact IH].
Qed.

Lemma instancesOf_cut (g : nat) :
  firstSubGraph (instancesOf (map cutGraph graphs) g)
  = firstSubGraph (instancesOf graphs g).
Proof.
  unfold instancesOf. rewrite nth_error_map.
  destruct (nth_error graphs g) as [graph |]; cbn; [apply firstSubGraph_cut | reflexivity].
Qed.

Lemma contextOfGraph_cut (g : nat) :
  contextOfGraph (map cutGraph graphs) g = contextOfGraph graphs g.
Proof.
  unfold contextOfGraph. rewrite nth_error_map.
  now destruct (nth_error graphs g).
Qed.

(** X18. The detector of recursive graphs ends on every graph, within as
    many calls as there are graphs, and one more.  From a graph it goes to the
    first of its instances that is a graph, and to no other: it raises
    [recursiveTypes] exactly when going on like this from the graph comes back
    to a graph it has been at, and the error names that graph; the instances
    after the first one that is a graph never matter. *)
Theorem recursive_graph_detector (g : nat) :
  exists r,
    check (S (List.length graphs)) graphs g [] = Some r
    /\ (threw r = true
        <-> exists h, clos_refl_trans nat step g h /\ clos_trans nat step h h)
    /\ (forall d l, r = Threw d l ->
          exists h, d = recursiveTypes h /\ l = contextOfGraph graphs h
                    /\ clos_refl_trans nat step g h /\ clos_trans nat step h h)
    /\ (forall fuel stack,
          check fuel (map cutGraph graphs) g stack = check fuel graphs g stack).
Proof.
  destruct (check_returns (S (List.length graphs)) g [] (NoDup_nil _)) as [r Hr].
  { intros x []. }
  { cbn. rewrite Nat.add_0_r. apply Nat.lt_succ_diag_r. }
  exists r. split; [exact Hr |].
  assert (Hthrew : forall d l, r = Threw d l ->
            exists h, d = recursiveTypes h /\ l = contextOfGraph graphs h
                      /\ clos_refl_trans nat step g h /\ clos_trans nat step h h).
  { intros d l ->.
    apply (check_threw (S (List.length graphs)) g g [] d l);
      [apply rt_refl | intros p [] | exact Hr]. }
  split; [| split; [exact Hthrew |]].
  - destruct r as [[] | d l]; cbn [threw].
    + split; [discriminate |]. intros [h [Hreach Hcycle]].
      exfalso. exact (check_returned _ _ _ Hr h Hreach Hcycle).
    + split; [| reflexivity]. intros _.
      destruct (Hthrew d l eq_refl) as [h (_ & _ & Hreach & Hcycle)]. eauto.
  - clear. intros fuel. generalize g. induction fuel as [| fuel IH]; intros g' stack;
      [reflexivity |].
    cbn [check]. rewrite instancesOf_cut, contextOfGraph_cut.
    destruct (existsb (Nat.eqb g') stack); [reflexivity |].
    destruct (firstSubGraph (instancesOf graphs g')); [apply IH | reflexivity].
Qed.

End RecursiveGraphs.

(* ================================================================== *)
(** ** Endpoint details *)

Section EndpointDataTypes.
Context {TY : AST.Typing} {FC : FloatConversions} {TR : TypeRules}.
Import AST SanityChecks EndpointDetailsMethods.

Lemma findEqual_none (processed : list Type_) (dataType : Type_) :
  findEqual processed dataType = None
  <-> Forall (fun p => isEqual_ignoreVectorSize1 p dataType = false) processed.
Proof.
  induction processed as [| p rest IH]; cbn [findEqual].
  - split; [constructor | reflexivity].
  - destruct (isEqual_ignoreVectorSize1 p dataType) eqn:E.
    + split; [discriminate |]. intros H. inversion H. congruence.
    + rewrite IH. split; [now constructor | intros H; now inversion H].
Qed.

Lemma findEqual_some (processed : list Type_) (dataType p : Type_) :
  findEqual processed dataType = Some p ->
  In p processed /\ isEqual_ignoreVectorSize1 p dataType = true.
Proof.
  induction processed as [| q rest IH]; cbn [findEqual]; [discriminate |].
  destruct (isEqual_ignoreVectorSize1 q dataType) eqn:E.
  - intros [= <-]. split; [now left | exact E].
  - intros H. destruct (IH H). split; [now right | assumption].
Qed.

Lemma ForallOrdPairs_app {A : Type} (R : A -> A -> Prop) (xs ys : list A) :
  ForallOrdPairs R (xs ++ ys)
  <-> ForallOrdPairs R xs /\ ForallOrdPairs R ys
      /\ (forall x y, In x xs -> In y ys -> R x y).
Proof.
  induction xs as [| x xs IH]; cbn [app].
  - split.
    + intros H. repeat split; [constructor | assumption | intros x y []].
    + tauto.
  - split.
    + intros H. inversion H as [| ? ? Hx Hrest]; subst.
      apply IH in Hrest. destruct Hrest as (Hxs & Hys & Hcross).
      rewrite Forall_forall in Hx. repeat split.
      * constructor; [| assumption]. apply Forall_forall. intros y Hy.
        apply Hx. apply in_or_app. now left.
      * assumption.
      * intros a b [<- | Ha] Hb; [apply Hx; apply in_or_app; now right | now apply Hcross].
    + intros (Hxs & Hys & Hcross). inversion Hxs as [| ? ? Hx Hrest]; subst.
      constructor.
      * apply Forall_forall. intros y Hy. apply in_app_or in Hy.
        rewrite Forall_forall in Hx. destruct Hy; [now apply Hx | apply Hcross; [now left | assumption]].
      * apply IH. repeat split; try assumption. intros a b Ha Hb. apply Hcross; [now right | assumption].
Qed.

Lemma checkTypesUnique_spec (context : CodeLocation) (types : list Type_) :
  forall processed,
    pairwiseDifferent processed ->
    match checkTypesUnique context types processed with
    | Returned _ => pairwiseDifferent (processed ++ types)
    | Threw d l =>
        l = context
        /\ exists earlier later,
             d = duplicateTypesInList earlier later
             /\ isEqual_ignoreVectorSize1 earlier later = true
             /\ exists before after,
                  (processed ++ types = before ++ later :: after)%list
                  /\ In earlier before
    end.
Proof.
  induction types as [| dataType rest IH]; intros processed Hp; cbn [checkTypesUnique].
  - now rewrite app_nil_r.
  - destruct (findEqual processed dataType) as [p |] eqn:Hfind.
    + apply findEqual_some in Hfind. destruct Hfind as [Hin Heq].
      split; [reflexivity |]. exists p, dataType. repeat split; [assumption |].
      exists processed, rest. split; [reflexivity | assumption].
    + apply findEqual_none in Hfind.
      assert (Hp' : pairwiseDifferent (processed ++ [dataType])).
      { apply ForallOrdPairs_app. repeat split; [assumption | repeat constructor |].
        intros x y Hx [<- | []]. rewrite Forall_forall in Hfind. now apply Hfind. }
      specialize (IH _ Hp'). rewrite <- app_assoc in IH. exact IH.
Qed.

(** X19. For an endpoint that is not a stream and whose data types are
    resolved, [checkDataTypesValid] passes exactly when no two of the types
    are equal under [ignoreVectorSize1]; otherwise it raises
    [duplicateTypesInList], naming a type and an earlier type of the list that
    is equal to it.  For a stream with its one resolved type it passes
    exactly when that type is a primitive or a vector. *)
Theorem endpoint_data_types_are_checked
        (endpointKind : EndpointKind) (dataTypes : list Expression)
        (arraySize : option Expression) (context : CodeLocation) (types : list Type_) :
  let details := mkEndpointDetails endpointKind dataTypes arraySize in
  getResolvedDataTypes details = Some types ->
  (isStream endpointKind = false ->
     exists r,
       checkDataTypesValid details context = Some r
       /\ (r = Returned tt <-> pairwiseDifferent types)
       /\ (forall d l, r = Threw d l ->
             l = context
             /\ exists earlier later before after,
                  d = duplicateTypesInList earlier later
                  /\ isEqual_ignoreVectorSize1 earlier later = true
                  /\ types = (before ++ later :: after)%list
                  /\ In earlier before))
  /\ (isStream endpointKind = true -> forall t, types = [t] ->
        checkDataTypesValid details context
        = Some (if isPrimitive t || isVector t then Returned tt
                else Threw illegalTypeForEndpoint context)).
Proof.
  intros details Htypes. subst details. split.
  - intros Hstream. unfold checkDataTypesValid.
    rewrite Hstream, Htypes.
    exists (checkTypesUnique context types []). split; [reflexivity |].
    pose proof (checkTypesUnique_spec context types [] (FOP_nil _)) as H.
    cbn [app] in H.
    destruct (checkTypesUnique context types []) as [[] | d l].
    + split; [tauto | discriminate].
    + destruct H as [-> (earlier & later & -> & Heq & before & after & Hsplit & Hin)].
      split.
      * split; [discriminate |]. intros Hall. exfalso. rewrite Hsplit in Hall.
        apply ForallOrdPairs_app in Hall. destruct Hall as (_ & _ & Hcross).
        specialize (Hcross earlier later Hin (or_introl eq_refl)). congruence.
      * intros d' l' [= <- <-]. split; [reflexivity |].
        exists earlier, later, before, after. auto.
  - intros Hstream t ->. unfold checkDataTypesValid.
    rewrite Hstream, Htypes.
    assert (Hlen : List.length dataTypes = 1%nat).
    { unfold getResolvedDataTypes in Htypes. clear - Htypes.
      destruct dataTypes as [| x [| y rest]]; cbn in *; try discriminate; [reflexivity |].
      destruct (SOUL_ASSERT (isResolvedAsType x)); [| discriminate].
      destruct (SOUL_ASSERT (isResolvedAsType y)); [| discriminate].
      destruct (resolveAll rest); discriminate. }
    rewrite Hlen. cbn [Nat.eqb SOUL_ASSERT].
    destruct (isPrimitive t || isVector t); cbn [negb]; [| reflexivity].
    cbn [checkTypesUnique findEqual]. reflexivity.
Qed.

Section SampleTypes.
Variable createArray : Type_ -> Z -> Type_.

Lemma countSilentMatches_none (sourceType : Type_) (source : Expression)
      (targetTypes : list Type_) : forall matches,
  SanityCheckPass.countSilentMatches sourceType source targetTypes matches = None ->
  exists t, find (fun t => isEqual_ignoreVectorSize1 sourceType t) targetTypes = Some t.
Proof.
  induction targetTypes as [| ty rest IH]; intros matches; cbn; [discriminate |].
  destruct (isEqual_ignoreVectorSize1 sourceType ty); [eauto | apply IH].
Qed.

Lemma countSilentMatches_some (sourceType : Type_) (source : Expression)
      (targetTypes : list Type_) : forall matches n,
  SanityCheckPass.countSilentMatches sourceType source targetTypes matches = Some n ->
  n <> matches ->
  exists t, find (fun t => AST.canSilentlyCastTo source t) targetTypes = Some t.
Proof.
  induction targetTypes as [| ty rest IH]; intros matches n; cbn.
  - intros [= <-] H. contradiction.
  - destruct (isEqual_ignoreVectorSize1 sourceType ty); [discriminate |].
    destruct (AST.canSilentlyCastTo source ty) eqn:E; [eauto |].
    apply IH.
Qed.

(** X20. [getDataType] gives the first sample type of the endpoint that is
    equal to the type of the expression, and when there is none the first one
    that the expression casts to silently; it gives one of the sample types
    whenever [supportsDataType] holds, and whenever the check
    [expectSilentCastPossible] against the sample types has passed, so that
    its assertion is not reached after that check. *)
Theorem getDataType_after_the_check
        (details : EndpointDetails) (e : Expression) (types : list Type_)
        (context : CodeLocation) :
  getSampleArrayTypes createArray details = Some types ->
  (supportsDataType createArray details e = Some true
   \/ SanityCheckPass.expectSilentCastPossible context types e = Ok) ->
  exists t,
    getDataType createArray details e = Some t
    /\ In t types
    /\ (isEqual_ignoreVectorSize1 (getResultType e) t = true
        \/ (AST.canSilentlyCastTo e t = true
            /\ Forall (fun u => isEqual_ignoreVectorSize1 (getResultType e) u = false) types)).
Proof.
  intros Htypes Hok. unfold getDataType. rewrite Htypes.
  destruct (find (fun t => isEqual_ignoreVectorSize1 (getResultType e) t) types)
    as [t |] eqn:Hexact.
  - apply find_some in Hexact. destruct Hexact as [Hin Heq]. exists t. auto.
  - assert (Hnone : Forall (fun u => isEqual_ignoreVectorSize1 (getResultType e) u = false) types).
    { apply Forall_forall. intros u Hu.
      pose proof (find_none _ _ Hexact u Hu) as H. exact H. }
    assert (Hsilent : exists t, find (fun t => AST.canSilentlyCastTo e t) types = Some t).
    { destruct Hok as [Hsupports | Hcheck].
      - unfold supportsDataType in Hsupports. rewrite Htypes in Hsupports.
        injection Hsupports as Hex. apply existsb_exists in Hex.
        destruct Hex as [t [Hin Ht]].
        destruct (find (fun t => AST.canSilentlyCastTo e t) types) as [t' |] eqn:Hfind;
          [eauto |].
        pose proof (find_none _ _ Hfind t Hin) as H. cbn in H. congruence.
      - unfold SanityCheckPass.expectSilentCastPossible in Hcheck.
        destruct (SanityCheckPass.countSilentMatches (getResultType e) e types 0)
          as [n |] eqn:Hcount.
        + destruct (Z.eqb_spec n 0) as [-> | Hne]; [discriminate |].
          exact (countSilentMatches_some (getResultType e) e types 0 n Hcount Hne).
        + apply countSilentMatches_none in Hcount. destruct Hcount as [t Ht].
          rewrite Hexact in Ht. discriminate. }
    destruct Hsilent as [t Ht]. exists t. split; [exact Ht |].
    apply find_some in Ht. destruct Ht as [Hin Hcast]. auto.
Qed.

End SampleTypes.

End EndpointDataTypes.

Lemma endpoint_data_types_are_checked_witness :
  EndpointDetailsMethods.isStream AST.eventEndpoint = false
  /\ forall FC : FloatConversions,
       @EndpointDetailsMethods.checkDataTypesValid Examples.typing FC
         (AST.mkEndpointDetails AST.eventEndpoint
            [AST.ConcreteType Examples.int32Type; AST.ConcreteType Examples.float64Type;
             AST.ConcreteType Examples.int32Type] None) 7%nat
       = Some (SanityChecks.Threw
                 (SanityChecks.duplicateTypesInList Examples.int32Type Examples.int32Type)
                 7%nat).
Proof.
  split; [reflexivity |]. intros FC.
  destruct (proj1 (@endpoint_data_types_are_checked Examples.typing FC AST.eventEndpoint
                     [AST.ConcreteType Examples.int32Type;
                      AST.ConcreteType Examples.float64Type;
                      AST.ConcreteType Examples.int32Type] None 7%nat
                     [Examples.int32Type; Examples.float64Type; Examples.int32Type]
                     eq_refl) eq_refl) as (r & Hr & _).
  rewrite Hr. symmetry. vm_compute in Hr. exact Hr.
Defined.

Lemma getDataType_after_the_check_witness :
  (forall FC : FloatConversions,
      @EndpointDetailsMethods.supportsDataType Examples.typing FC SpecTypeRules.oracle
        (fun t _ => t)
        (AST.mkEndpointDetails AST.eventEndpoint
           [AST.ConcreteType Examples.float64Type; AST.ConcreteType Examples.int32Type] None)
        (AST.Constant (Value.createInt32 5)) = Some true)
  /\ (forall FC : FloatConversions,
        @EndpointDetailsMethods.getDataType Examples.typing FC SpecTypeRules.oracle
          (fun t _ => t)
          (AST.mkEndpointDetails AST.eventEndpoint
             [AST.ConcreteType Examples.float64Type; AST.ConcreteType Examples.int32Type]
             None)
          (AST.Constant (Value.createInt32 5)) = Some Examples.int32Type).
Proof.
  split; intros FC; [reflexivity |].
  destruct (@getDataType_after_the_check Examples.typing FC SpecTypeRules.oracle
              (fun t _ => t)
              (AST.mkEndpointDetails AST.eventEndpoint
                 [AST.ConcreteType Examples.float64Type;
                  AST.ConcreteType Examples.int32Type] None)
              (AST.Constant (Value.createInt32 5))
              [Examples.float64Type; Examples.int32Type] 7%nat eq_refl)
    as (t & Ht & _ & Hwhy).
  - left. reflexivity.
  - rewrite Ht. symmetry. vm_compute in Ht. exact Ht.
Defined.

(* ================================================================== *)
(** ** Expressions: meta-functions and constants *)

Section MetaFunctions.
Context {TY : AST.Typing} {FC : FloatConversions}.
Variable contextOf : AST.Expression -> CodeLocation.
Import AST SanityChecks TypeMetaFunctionMethods.

Lemma throwErrorIfUnresolvedFor_spec (source : Expression) (operation : MetaOp)
      (sourceType : Type_) :
  threw (throwErrorIfUnresolvedFor contextOf source operation sourceType)
  = negb (checkSourceType operation sourceType).
Proof.
  unfold throwErrorIfUnresolvedFor.
  destruct (checkSourceType operation sourceType) eqn:E; cbn [negb]; [reflexivity |].
  destruct operation; cbn in E; try discriminate; reflexivity.
Qed.

(** X21. In a type meta-function whose source is resolved as a value or as
    a type, [throwErrorIfUnresolved] raises an error exactly when the
    meta-function is not resolved, so that it never raises one on a resolved
    meta-function; only the operations [size], [makeConst], [elementType] and
    [primitiveType] can raise it.  On a source that is not resolved it raises
    nothing. *)
Theorem unresolved_meta_functions_throw (source : Expression) (operation : MetaOp) :
  (isResolvedAsValue source || isResolvedAsType source = true ->
     threw (throwErrorIfUnresolved contextOf source operation)
     = negb (isResolved (TypeMetaFunction source operation)))
  /\ (isResolved (TypeMetaFunction source operation) = true ->
        throwErrorIfUnresolved contextOf source operation = Returned tt)
  /\ (isResolvedAsValue source || isResolvedAsType source = false ->
        throwErrorIfUnresolved contextOf source operation = Returned tt
        /\ isResolved (TypeMetaFunction source operation) = false)
  /\ (forall d l, throwErrorIfUnresolved contextOf source operation = Threw d l ->
        (operation = size /\ d = cannotTakeSizeOfType /\ l = contextOf source)
        \/ (l = contextOf (TypeMetaFunction source operation)
            /\ ((operation = makeConst /\ d = tooManyConsts)
                \/ (operation = elementType /\ d = badTypeForElementType)
                \/ (operation = primitiveType /\ d = badTypeForPrimitiveType)))).
Proof.
  assert (Hthrew : isResolvedAsValue source || isResolvedAsType source = true ->
     threw (throwErrorIfUnresolved contextOf source operation)
     = negb (isResolved (TypeMetaFunction source operation))).
  { intros Hsource. unfold throwErrorIfUnresolved. cbn [isResolved].
    unfold isResolvedAsValue, isResolvedAsType in *.
    destruct (isResolved source && ExpressionKind_eqb (kind source) value).
    - apply throwErrorIfUnresolvedFor_spec.
    - cbn [orb] in Hsource. rewrite Hsource. apply throwErrorIfUnresolvedFor_spec. }
  repeat match goal with |- _ /\ _ => split end.
  - exact Hthrew.
  - intros Hresolved.
    assert (Hsource : isResolvedAsValue source || isResolvedAsType source = true).
    { cbn [isResolved] in Hresolved. unfold isResolvedAsValue, isResolvedAsType.
      destruct (isResolved source && ExpressionKind_eqb (kind source) value);
        [reflexivity |].
      destruct (isResolved source && ExpressionKind_eqb (kind source) type);
        [reflexivity | discriminate]. }
    specialize (Hthrew Hsource). rewrite Hresolved in Hthrew. cbn [negb] in Hthrew.
    destruct (throwErrorIfUnresolved contextOf source operation) as [[] |];
      [reflexivity | discriminate].
  - intros H. apply orb_false_iff in H. destruct H as [Hv Ht]. split.
    + unfold throwErrorIfUnresolved. now rewrite Hv, Ht.
    + cbn [isResolved]. unfold isResolvedAsValue, isResolvedAsType in Hv, Ht.
      now rewrite Hv, Ht.
  - intros d l. unfold throwErrorIfUnresolved, throwErrorIfUnresolvedFor.
    destruct (isResolvedAsValue source).
    + destruct (checkSourceType operation (getResultType source)); cbn [negb];
        [discriminate |].
      destruct operation; try discriminate; intros [= <- <-]; auto 10.
    + destruct (isResolvedAsType source); [| discriminate].
      destruct (checkSourceType operation (resolveAsType source)); cbn [negb];
        [discriminate |].
      destruct operation; try discriminate; intros [= <- <-]; auto 10.
Qed.

Lemma constants_are_compile_time_constants : forall (e : Expression) (v : Value.t),
  getAsConstant e = Some v ->
  isCompileTimeConstant e = true /\ kind e = value /\ isOutputEndpoint e = false.
Proof.
  intros e v. destruct e; cbn [getAsConstant]; try discriminate.
  - intros _. repeat split.
  - destruct variable as [name declaredType [i |] isConstant]; [| discriminate].
    destruct (isConstant && isCompileTimeConstant i) eqn:Hc; [| discriminate].
    intros _. cbn. repeat split. exact Hc.
Qed.

(** X22. An expression that gives a constant is a compile-time constant of
    the kind value, and is no output endpoint; so an expression is resolved
    as a constant exactly when it is resolved and gives a constant.  A
    reference to a variable gives the constant of the variable's initial value
    when the variable is constant and that value is a compile-time constant,
    and none otherwise. *)
Theorem constants_of_expressions (e : Expression) :
  (forall v, getAsConstant e = Some v ->
     isCompileTimeConstant e = true /\ kind e = value /\ isOutputEndpoint e = false)
  /\ isResolvedAsConstant e
     = isResolved e && match getAsConstant e with Some _ => true | None => false end
  /\ (forall name declaredType initialValue isConstant,
        getAsConstant (VariableRef (mkVariableDeclaration name declaredType
                                                          (Some initialValue) isConstant))
        = if isConstant && isCompileTimeConstant initialValue
          then getAsConstant initialValue else None)
  /\ (forall name declaredType isConstant,
        getAsConstant (VariableRef (mkVariableDeclaration name declaredType None isConstant))
        = None).
Proof.
  repeat match goal with |- _ /\ _ => split end.
  - apply constants_are_compile_time_constants.
  - unfold isResolvedAsConstant, isResolvedAsValue.
    destruct (getAsConstant e) as [v |] eqn:Hc.
    + destruct (constants_are_compile_time_constants e v Hc) as (_ & -> & _).
      cbn [ExpressionKind_eqb]. now rewrite !andb_true_r.
    + now rewrite !andb_false_r.
  - reflexivity.
  - reflexivity.
Qed.

End MetaFunctions.

(* ================================================================== *)
(** ** Modules and blocks *)

Section ModuleStructure.
Context {TY : AST.Typing}.
Import AST.

Lemma firstError_app (a b : list Result) :
  firstError (a ++ b) = andThen (firstError a) (firstError b).
Proof.
  induction a as [| r a IH]; [reflexivity |].
  cbn [app firstError]. rewrite IH. now destruct r.
Qed.

Lemma firstError_ok (results : list Result) :
  firstError results = Ok <-> Forall (fun r => r = Ok) results.
Proof.
  induction results as [| r rest IH]; cbn [firstError].
  - split; [constructor | reflexivity].
  - destruct r; cbn [andThen].
    + rewrite IH. split; [now constructor | intros H; now inversion H].
    + split; [discriminate | intros H; inversion H; discriminate].
Qed.

Lemma checkOverallStructure_is_first_error : forall m : ModuleBase,
  SanityCheckPass.checkOverallStructure m
  = firstError (map SanityCheckPass.checkOverallStructureOfProcessor (processorsAndGraphs m)).
Proof.
  fix IH 1. intros [c es ps cs | c es fs | c subs].
  - cbn. now destruct (SanityCheckPass.checkOverallStructureOfProcessor _).
  - cbn [SanityCheckPass.checkOverallStructure processorsAndGraphs map firstError].
    now destruct (SanityCheckPass.checkOverallStructureOfProcessor _).
  - cbn [SanityCheckPass.checkOverallStructure processorsAndGraphs andThen].
    induction subs as [| sub rest IHsubs]; [reflexivity |].
    rewrite map_app, firstError_app, <- IHsubs, <- (IH sub). reflexivity.
Qed.

(** X23. The structural pass before resolution checks every processor and
    graph of a module, of its sub-modules and of theirs, in that order, and
    stops at the first that fails: its result is the first error among the
    checks of these processors and graphs, so that it passes exactly when each
    of them passes on its own.  A namespace is not checked itself. *)
Theorem runPreResolution_checks_every_processor (m : ModuleBase) :
  SanityCheckPass.runPreResolution m
  = firstError (map SanityCheckPass.checkOverallStructureOfProcessor (processorsAndGraphs m))
  /\ (SanityCheckPass.runPreResolution m = Ok
      <-> forall p, In p (processorsAndGraphs m) ->
                    SanityCheckPass.checkOverallStructureOfProcessor p = Ok)
  /\ (forall c, SanityCheckPass.runPreResolution (Namespace c []) = Ok)
  /\ (forall c before failing after message location,
        (forall p, In p before -> SanityCheckPass.runPreResolution p = Ok) ->
        SanityCheckPass.runPreResolution failing = Error message location ->
        SanityCheckPass.runPreResolution (Namespace c (before ++ failing :: after))
        = Error message location).
Proof.
  unfold SanityCheckPass.runPreResolution.
  repeat match goal with |- _ /\ _ => split end.
  - apply checkOverallStructure_is_first_error.
  - rewrite checkOverallStructure_is_first_error, firstError_ok, Forall_forall. split.
    + intros H p Hp. apply H. now apply in_map.
    + intros H r Hr. apply in_map_iff in Hr. destruct Hr as [p [<- Hp]]. now apply H.
  - reflexivity.
  - intros c before failing after message location Hbefore Hfail.
    cbn [SanityCheckPass.checkOverallStructure andThen].
    induction before as [| p before IH]; cbn [app].
    + now rewrite Hfail.
    + rewrite (Hbefore p (or_introl eq_refl)). cbn [andThen].
      apply IH. intros q Hq. apply Hbefore. now right.
Qed.

(** X24. Every endpoint of a module is counted once, as an input or as an
    output: the numbers of inputs and of outputs add up to the number of
    endpoints, and a module has no output exactly when all its endpoints are
    inputs. *)
Theorem endpoints_are_inputs_or_outputs (endpoints : list EndpointDeclaration) :
  (countEndpoints endpoints true + countEndpoints endpoints false
   = List.length endpoints)%nat
  /\ (countEndpoints endpoints false = O
      <-> forall e, In e endpoints -> endpointIsInput e = true)
  /\ (forall c instances connections,
        getNumOutputs (Graph c endpoints instances connections)
        = countEndpoints endpoints false)
  /\ (forall c subModules, getNumOutputs (Namespace c subModules) = O).
Proof.
  repeat match goal with |- _ /\ _ => split end.
  - induction endpoints as [| e rest IH]; [reflexivity |].
    cbn [countEndpoints List.length]. destruct (endpointIsInput e); cbn [Bool.eqb];
      rewrite <- IH; [reflexivity | now rewrite Nat.add_succ_r].
  - split.
    + intros H e He. induction endpoints as [| x rest IH]; [destruct He |].
      cbn [countEndpoints] in H.
      destruct (endpointIsInput x) eqn:Hx; cbn [Bool.eqb] in H; [| discriminate].
      destruct He as [<- | He]; [exact Hx | now apply IH].
    + intros H. induction endpoints as [| x rest IH]; [reflexivity |].
      cbn [countEndpoints]. rewrite (H x (or_introl eq_refl)). cbn [Bool.eqb].
      apply IH. intros e He. apply H. now right.
  - reflexivity.
  - reflexivity.
Qed.

End ModuleStructure.

Section BlockSearch.
Import BlockNameSearch.

Lemma find_append {A : Type} (f : A -> bool) (xs ys : list A) :
  find f (xs ++ ys) = match find f xs with Some x => Some x | None => find f ys end.
Proof.
  induction xs as [| x xs IH]; cbn [app find]; [reflexivity |].
  now destruct (f x).
Qed.

Lemma findLastMatch_unbounded (statements : list BlockStatement) (name : Identifier) :
  forall lastMatch,
    findLastMatch statements None name lastMatch
    = match find (declares name) (rev statements) with
      | Some s => Some s
      | None => lastMatch
      end.
Proof.
  induction statements as [| s rest IH]; intros lastMatch; [reflexivity |].
  cbn [findLastMatch rev]. rewrite IH, find_append.
  destruct (find (declares name) (rev rest)); [reflexivity |].
  cbn [find]. now destruct (declares name s).
Qed.

Lemma findLastMatch_before (statements : list BlockStatement) (stop : nat)
      (name : Identifier) : forall lastMatch,
  findLastMatch statements (Some stop) name lastMatch
  = findLastMatch (before statements stop) None name lastMatch.
Proof.
  induction statements as [| s rest IH]; intros lastMatch; [reflexivity |].
  cbn [findLastMatch before].
  destruct (Nat.eqb (addressOf s) stop); [reflexivity |].
  cbn [findLastMatch]. apply IH.
Qed.

(** X25. The search for a variable in a block finds the last declaration
    of the name among the statements before the one it searches up to, and all
    the statements when it is given none: a declaration at or after that
    statement is never found, and a later declaration before it hides an
    earlier one of the same name.  A search that does not look for variables
    finds nothing in a block. *)
Theorem block_search_finds_the_last_declaration_before
        (statements : list BlockStatement) (stop : nat) (name : Identifier) :
  performLocalNameSearch true statements (Some stop) name
  = find (declares name) (rev (before statements stop))
  /\ performLocalNameSearch true statements None name
     = find (declares name) (rev statements)
  /\ (forall found,
        performLocalNameSearch true statements (Some stop) name = Some found ->
        In found (before statements stop) /\ declares name found = true
        /\ addressOf found <> stop)
  /\ (forall earlier later rest,
        declares name later = true ->
        ~ In stop (map addressOf (earlier ++ [later])) ->
        performLocalNameSearch true (earlier ++ later :: OtherStatement stop :: rest)
                               (Some stop) name
        = Some later)
  /\ (forall upTo, performLocalNameSearch false statements upTo name = None).
Proof.
  assert (Hbefore_in : forall l s, In s (before l stop) -> addressOf s <> stop).
  { induction l as [| x l IH]; cbn [before]; [intros s [] |].
    destruct (Nat.eqb_spec (addressOf x) stop) as [| Hne]; [intros s [] |].
    intros s [<- | Hs]; [exact Hne | now apply IH]. }
  unfold performLocalNameSearch.
  repeat match goal with |- _ /\ _ => split end.
  - rewrite findLastMatch_before, findLastMatch_unbounded.
    now destruct (find (declares name) (rev (before statements stop))).
  - rewrite findLastMatch_unbounded. now destruct (find (declares name) (rev statements)).
  - intros found. rewrite findLastMatch_before, findLastMatch_unbounded.
    destruct (find (declares name) (rev (before statements stop))) as [s |] eqn:Hfind;
      [| discriminate].
    intros [= <-]. apply find_some in Hfind. destruct Hfind as [Hin Hdecl].
    apply in_rev in Hin. repeat split;
      [assumption | assumption | now apply (Hbefore_in statements)].
  - intros earlier later rest Hdecl Hnot.
    rewrite findLastMatch_before, findLastMatch_unbounded.
    assert (Hcut : before (earlier ++ later :: OtherStatement stop :: rest) stop
                   = (earlier ++ [later])%list).
    { clear - Hnot. induction earlier as [| x earlier IH]; cbn [app before].
      - cbn in Hnot. destruct (Nat.eqb_spec (addressOf later) stop) as [He | _];
          [exfalso; apply Hnot; now left |].
        cbn [before addressOf]. now rewrite Nat.eqb_refl.
      - cbn in Hnot. destruct (Nat.eqb_spec (addressOf x) stop) as [He | _];
          [exfalso; apply Hnot; now left |].
        f_equal. apply IH. intros H. apply Hnot. now right. }
    rewrite Hcut, rev_app_distr. cbn [rev app find]. now rewrite Hdecl.
  - reflexivity.
Qed.

End BlockSearch.

(* ================================================================== *)
(** ** The visit of type declarations ends *)

Section TypeDeclarationVisit.
Import TypeDeclarations.
Local Open Scope nat_scope.
Variable arena : list TypeDeclaration.

Lemma TypeExpression_nested_ind (P : TypeExpression -> Prop) :
  (forall r, P (DeclarationRef r)) ->
  (forall subs, Forall P subs -> P (OtherTypeExpression subs)) ->
  forall e, P e.
Proof.
  intros Hr Ho. fix IH 1. intros [r | subs].
  - apply Hr.
  - apply Ho. revert subs. fix IHs 1. intros [| x xs].
    + constructor.
    + exact (Forall_cons x (IH x) (IHs xs)).
Qed.

Lemma visitEach_endsWell {A : Type} (visit : A -> option Result) (items : list A) :
  Forall (fun x => endsWell (visit x)) items -> endsWell (visitEach visit items).
Proof.
  induction 1 as [| x rest Hx _ IH]; cbn [visitEach]; [exact I |].
  destruct (visit x) as [[| m l] |]; [exact IH | exact Hx | exact Hx].
Qed.

Lemma checkMembersNotConst_endsWell (members : list Member) :
  endsWell (Some (checkMembersNotConst members)).
Proof.
  induction members as [| m rest IH]; cbn [checkMembersNotConst]; [exact I |].
  destruct (memberIsDefinitelyConst m); [exact I | exact IH].
Qed.

Lemma push_entered (stack stack' : list nat) (t : nat) :
  push arena stack t = Entered stack' -> stack' = (stack ++ [t])%list /\ ~ In t stack.
Proof.
  unfold push. destruct (existsb (Nat.eqb t) stack) eqn:Hin.
  - destruct (Nat.eqb (last stack O) t); discriminate.
  - intros [= <-]. split; [reflexivity |]. intros H.
    apply existsb_eqb_stack in H. congruence.
Qed.

Lemma push_refused (stack : list nat) (t : nat) (m : CompileMessage) (l : CodeLocation) :
  push arena stack t = Refused m l -> isTypeDeclarationMessage m.
Proof.
  unfold push. destruct (existsb (Nat.eqb t) stack); [| discriminate].
  destruct (Nat.eqb (last stack O) t); intros [= <- _]; exact I.
Qed.

Lemma visitDeclaration_endsWell : forall fuel stack t,
  NoDup stack -> (forall x, In x stack -> x < List.length arena) ->
  List.length arena < fuel + List.length stack ->
  endsWell (visitDeclaration fuel arena stack t).
Proof.
  induction fuel as [| fuel IH]; intros stack t Hnd Hrange Hfuel.
  - pose proof (bounded_NoDup_length stack _ Hnd Hrange) as Hlen. cbn in Hfuel.
    exfalso. apply (Nat.lt_irrefl (List.length arena)).
    eapply Nat.lt_le_trans; eassumption.
  - cbn [visitDeclaration].
    destruct (push arena stack t) as [stack' | m l] eqn:Hpush;
      [| exact (push_refused _ _ _ _ Hpush)].
    apply push_entered in Hpush. destruct Hpush as [-> Hnew].
    destruct (nth_error arena t) as [d |] eqn:Hd; [| exact I].
    assert (Ht : t < List.length arena) by (apply nth_error_Some; congruence).
    assert (Hexpr : forall e,
      endsWell ((fix visitExpression (e : TypeExpression) : option Result :=
                   match e with
                   | DeclarationRef r => visitDeclaration fuel arena (stack ++ [t]) r
                   | OtherTypeExpression subs => visitEach visitExpression subs
                   end) e)).
    { induction e as [r | subs IHsubs] using TypeExpression_nested_ind.
      - apply IH.
        + apply NoDup_app; [assumption | repeat constructor; intros [] |].
          intros x Hx [<- | []]. contradiction.
        + intros x Hx. apply in_app_or in Hx. destruct Hx as [Hx | [<- | []]];
            [now apply Hrange | exact Ht].
        + rewrite length_app. cbn [List.length]. rewrite Nat.add_1_r, Nat.add_succ_r.
          exact Hfuel.
      - apply visitEach_endsWell. exact IHsubs. }
    destruct d as [name context members | name context [target |]].
    + match goal with
      | |- endsWell (match ?v with _ => _ end) =>
          assert (Hv : endsWell v); [| destruct v as [[| m l] |]]
      end.
      * apply visitEach_endsWell. apply Forall_forall. intros m _. apply Hexpr.
      * apply checkMembersNotConst_endsWell.
      * exact Hv.
      * exact Hv.
    + apply Hexpr.
    + exact I.
Qed.

(** X26. The visit of the type declarations of a module always ends, within
    as many nested declarations as the module has and one more: the recursion
    stack refuses a declaration that is being visited, so that no descent
    comes back to it.  The visit passes or raises one of
    [typeContainsItself], [typesReferToEachOther] and [memberCannotBeConst]. *)
Theorem type_declaration_visit_ends :
  exists r,
    visitAll (S (List.length arena)) arena = Some r
    /\ forall m l, r = Error m l -> isTypeDeclarationMessage m.
Proof.
  assert (H : endsWell (visitAll (S (List.length arena)) arena)).
  { unfold visitAll. apply visitEach_endsWell. apply Forall_forall. intros t _.
    apply visitDeclaration_endsWell; [constructor | intros x [] |].
    cbn. rewrite Nat.add_0_r. apply Nat.lt_succ_diag_r. }
  destruct (visitAll (S (List.length arena)) arena) as [r |]; [| destruct H].
  exists r. split; [reflexivity |]. intros m l ->. exact H.
Qed.

End TypeDeclarationVisit.

(* ================================================================== *)
(** ** Negation of a value *)

Section NegationProperties.
Import Negation ValueMethods.

Lemma writeUnaligned_readUnaligned (bytes : list byte) :
  writeUnaligned (List.length bytes) (readUnaligned bytes) = bytes.
Proof.
  induction bytes as [| b bytes IH]; [reflexivity |].
  cbn [List.length writeUnaligned readUnaligned].
  assert (Hb : 0 <= byteValue b <= 255).
  { unfold byteValue. pose proof (Byte.to_N_bounded b). lia. }
  f_equal.
  - unfold byteOfZ. rewrite (Z.mul_comm 256), Z_mod_plus_full, Z.mod_small by lia.
    unfold byteValue. rewrite N2Z.id, Byte.of_to_N. reflexivity.
  - rewrite (Z.mul_comm 256), Z.div_add, Z.div_small by lia. exact IH.
Qed.

Lemma writeUnaligned_congruent (n : nat) (x y : Z) :
  x mod 2 ^ (8 * Z.of_nat n) = y mod 2 ^ (8 * Z.of_nat n) ->
  writeUnaligned n x = writeUnaligned n y.
Proof.
  intros H. rewrite <- (writeUnaligned_mod n x), <- (writeUnaligned_mod n y). now rewrite H.
Qed.

Lemma wrapSigned_congruent (bits z : Z) :
  0 < bits -> (wrapSigned bits z) mod 2 ^ bits = z mod 2 ^ bits.
Proof.
  intros Hb. unfold wrapSigned.
  assert (Hp : 0 < 2 ^ bits) by (apply Z.pow_pos_nonneg; lia).
  rewrite Zminus_mod_idemp_l. f_equal. lia.
Qed.

Lemma negation_twice_congruent (bits v : Z) :
  0 < bits ->
  (wrapSigned bits (- wrapSigned bits (wrapSigned bits (- wrapSigned bits v)))) mod 2 ^ bits
  = v mod 2 ^ bits.
Proof.
  intros Hb.
  assert (Hp : 0 < 2 ^ bits) by (apply Z.pow_pos_nonneg; lia).
  rewrite wrapSigned_congruent by exact Hb.
  rewrite <- (Z.sub_0_l (wrapSigned bits _)), <- Zminus_mod_idemp_r.
  rewrite !wrapSigned_congruent by exact Hb.
  rewrite Zminus_mod_idemp_r. rewrite Z.sub_0_l, Z.opp_involutive.
  apply wrapSigned_congruent. exact Hb.
Qed.

Lemma sign_flip_twice_congruent (n x s : Z) :
  0 <= n -> (Z.lxor ((Z.lxor x s) mod 2 ^ n) s) mod 2 ^ n = x mod 2 ^ n.
Proof.
  intros Hn. rewrite <- !Z.land_ones by exact Hn.
  apply Z.bits_inj'. intros i Hi.
  rewrite !Z.land_spec, !Z.lxor_spec, !Z.land_spec, !Z.lxor_spec.
  destruct (Z.testbit (Z.ones n) i), (Z.testbit x i), (Z.testbit s i); reflexivity.
Qed.

Lemma getAs_sized (n : nat) (ty : Type_) (bytes : list byte) :
  List.length bytes = n ->
  PackedData.getAs n (PackedData.mk ty bytes) = Some (readUnaligned bytes)
  /\ forall z, PackedData.setAs n (PackedData.mk ty bytes) z = Some (writeUnaligned n z).
Proof.
  intros H. unfold PackedData.getAs, PackedData.setAs, PackedData.size, SOUL_ASSERT.
  cbn [PackedData.data]. rewrite H, Nat.eqb_refl. auto.
Qed.

Lemma negatePrimitive_involution (pt : PrimitiveType) (bytes bytes' : list byte) :
  List.length bytes = PrimitiveType_size pt ->
  negatePrimitive (PackedData.mk (plain (primitive pt)) bytes) = Some bytes' ->
  List.length bytes' = PrimitiveType_size pt
  /\ negatePrimitive (PackedData.mk (plain (primitive pt)) bytes') = Some bytes.
Proof.
  intros Hlen. unfold negatePrimitive. cbn [PackedData.type isPrimitive category plain].
  destruct pt; cbn [isInteger32 isInteger64 isFloat32 isFloat64 category plain
                    PrimitiveType_size] in *; try discriminate;
    unfold negateAs_int32, negateAs_int64, negateAs_float, negateAs_double;
    match goal with
    | |- context [PackedData.getAs ?n (PackedData.mk ?ty bytes)] =>
        destruct (getAs_sized n ty bytes Hlen) as [-> Hset]
    end;
    rewrite Hset; intros Heq;
    apply (f_equal (fun o => match o with Some l => l | None => bytes' end)) in Heq;
    cbv beta iota in Heq; subst bytes';
    (split; [apply length_writeUnaligned |]);
    match goal with
    | |- context [PackedData.getAs ?n (PackedData.mk ?ty (writeUnaligned ?n ?z))] =>
        destruct (getAs_sized n ty (writeUnaligned n z) (length_writeUnaligned n z))
          as [-> Hset']; rewrite Hset'
    end;
    f_equal; rewrite <- (writeUnaligned_readUnaligned bytes) at 2; rewrite Hlen;
    apply writeUnaligned_congruent; rewrite readUnaligned_writeUnaligned.
  - (* float32 *)
    unfold negateFloat32. apply sign_flip_twice_congruent. lia.
  - (* float64 *)
    unfold negateFloat64. apply sign_flip_twice_congruent. lia.
  - (* int32 *)
    unfold to_int32. change (8 * Z.of_nat 4) with 32.
    rewrite (wrapSigned_mod 32) by lia. apply negation_twice_congruent. lia.
  - (* int64 *)
    unfold to_int64. change (8 * Z.of_nat 8) with 64.
    rewrite (wrapSigned_mod 64) by lia. apply negation_twice_congruent. lia.
Qed.

Lemma negateElements_involution (negateElement : list byte -> option (list byte))
      (elementSize : nat) :
  (forall run run', List.length run = elementSize -> negateElement run = Some run' ->
                    List.length run' = elementSize /\ negateElement run' = Some run) ->
  forall (n : nat) (rest out : list byte),
    List.length rest = (n * elementSize)%nat ->
    negateElements negateElement elementSize n rest = Some out ->
    List.length out = (n * elementSize)%nat
    /\ negateElements negateElement elementSize n out = Some rest.
Proof.
  intros Helement. induction n as [| n IH]; intros rest out Hlen; cbn [negateElements].
  - intros [= <-]. auto.
  - cbn [Nat.mul] in Hlen.
    assert (Hfirst : List.length (firstn elementSize rest) = elementSize).
    { rewrite length_firstn, Hlen. apply Nat.min_l, Nat.le_add_r. }
    assert (Hskip : List.length (skipn elementSize rest) = (n * elementSize)%nat).
    { rewrite length_skipn, Hlen. now rewrite Nat.add_comm, Nat.add_sub. }
    destruct (negateElement (firstn elementSize rest)) as [e |] eqn:He; [| discriminate].
    destruct (negateElements negateElement elementSize n (skipn elementSize rest))
      as [tail |] eqn:Ht; [| discriminate].
    intros [= <-].
    destruct (Helement _ _ Hfirst He) as [Hlen_e Hback_e].
    destruct (IH _ _ Hskip Ht) as [Hlen_t Hback_t].
    split.
    + rewrite length_app, Hlen_e, Hlen_t. reflexivity.
    + rewrite firstn_app, <- Hlen_e, firstn_all, Nat.sub_diag, firstn_O, app_nil_r.
      rewrite skipn_app, skipn_all, Nat.sub_diag, skipn_O. cbn [app].
      rewrite Hlen_e, Hback_e, Hback_t. now rewrite firstn_skipn.
Qed.

Lemma negateCategory_involution (c : Category) : forall bytes bytes',
  List.length bytes = packedSize c ->
  negateCategory c bytes = Some bytes' ->
  List.length bytes' = packedSize c /\ negateCategory c bytes' = Some bytes.
Proof.
  induction c as [| pt | | | pt n | e count IH | name members _] using Category_nested_ind;
    intros bytes bytes'; cbn [negateCategory packedSize]; try discriminate.
  - apply negatePrimitive_involution.
  - apply negateElements_involution. intros run run'. apply negatePrimitive_involution.
  - destruct count as [n |]; cbn [getArrayOrVectorSize category plain].
    + apply negateElements_involution. exact IH.
    + cbn [negateElements]. intros Hlen [= <-]. auto.
Qed.

Lemma negated_involution (v v' : Value.t) :
  hasPackedSize v -> negated v = Some v' ->
  Value.type v' = Value.type v /\ hasPackedSize v' /\ negated v' = Some v.
Proof.
  unfold hasPackedSize, negated, negate, getPackedSizeInBytes. intros Hsize.
  destruct (Value.getDataChecked v) as [d |] eqn:Hd; [| discriminate].
  assert (Hdata : d = Value.getData v /\ Value.getDataChecked v = Some (Value.getData v)).
  { unfold Value.getDataChecked, SOUL_ASSERT in *.
    destruct (Value.isValid v); [| discriminate].
    destruct (isValid (Value.type v) && negb (isVoid (Value.type v))); [| discriminate].
    injection Hd as <-. auto. }
  destruct Hdata as [-> Hchecked]. cbn [Value.getData PackedData.type PackedData.data].
  destruct (negateCategory (category (Value.type v)) (Value.allocatedData v))
    as [bytes |] eqn:Hneg; [| discriminate].
  intros [= <-]. cbn [Value.type Value.allocatedData].
  destruct (negateCategory_involution _ _ _ Hsize Hneg) as [Hlen Hback].
  split; [reflexivity |]. split; [exact Hlen |].
  assert (Hchecked' : Value.getDataChecked (Value.mk (Value.type v) bytes)
                      = Some (Value.getData (Value.mk (Value.type v) bytes))).
  { unfold Value.getDataChecked, Value.isValid, SOUL_ASSERT in *.
    cbn [Value.type]. destruct (isValid (Value.type v)); [| discriminate].
    destruct (true && negb (isVoid (Value.type v))); [reflexivity | discriminate]. }
  rewrite Hchecked'. cbn [Value.getData PackedData.type PackedData.data Value.type
                          Value.allocatedData].
  rewrite Hback. now destruct v.
Qed.

Lemma negated_int32 (n : Z) :
  - 2 ^ 31 < n < 2 ^ 31 ->
  negated (Value.createInt32 n) = Some (Value.createInt32 (- n)).
Proof.
  intros Hn. unfold negated, Value.createInt32.
  rewrite getDataChecked_ok by reflexivity.
  unfold negate. cbn [Value.getData Value.type Value.allocatedData PackedData.type
                      PackedData.data category plain negateCategory].
  unfold negatePrimitive. cbn [PackedData.type isPrimitive isInteger32 category plain].
  unfold negateAs_int32.
  destruct (getAs_sized 4 (plain (primitive int32)) (writeUnaligned 4 n)
                        (length_writeUnaligned 4 n)) as [-> Hset].
  rewrite Hset. cbn [Value.type]. do 2 f_equal.
  rewrite to_int32_read_write.
  rewrite (to_int32_small n) by (unfold INT32_MAX; lia).
  rewrite to_int32_small by (unfold INT32_MAX; lia). reflexivity.
Qed.

(** X27. Negating a value twice gives the value back: where [negated]
    gives a value for a value whose buffer has the size of its type, that
    value has the same type and a buffer of the same size, and its negation is
    the value that was negated.  The negation of an [int32] other than the
    least one is the [int32] of the opposite number, and a [bool] has no
    negation. *)
Theorem negated_twice_is_the_value :
  (forall v v' : Value.t,
      hasPackedSize v -> negated v = Some v' ->
      Value.type v' = Value.type v /\ hasPackedSize v' /\ negated v' = Some v)
  /\ (forall n : Z, - 2 ^ 31 < n < 2 ^ 31 ->
                    negated (Value.createInt32 n) = Some (Value.createInt32 (- n)))
  /\ (forall b : bool, negated (Value.createBool b) = None).
Proof.
  split; [exact negated_involution |]. split; [exact negated_int32 |].
  intros []; reflexivity.
Qed.

Lemma negated_twice_is_the_value_witness :
  negated (Value.createInt32 5) = Some (Value.createInt32 (- 5))
  /\ negated (Value.createInt32 (- 5)) = Some (Value.createInt32 5).
Proof.
  assert (H : negated (Value.createInt32 5) = Some (Value.createInt32 (- 5))).
  { apply (proj1 (proj2 negated_twice_is_the_value) 5). lia. }
  split; [exact H |].
  apply (proj1 negated_twice_is_the_value (Value.createInt32 5) (Value.createInt32 (- 5)));
    [reflexivity | exact H].
Defined.

Lemma negatePrimitive_succeeds (pt : PrimitiveType) (bytes : list byte) :
  List.length bytes = PrimitiveType_size pt ->
  (exists out, negatePrimitive (PackedData.mk (plain (primitive pt)) bytes) = Some out)
  <-> pt = int32 \/ pt = int64 \/ pt = float32 \/ pt = float64.
Proof.
  intros Hlen. unfold negatePrimitive. cbn [PackedData.type isPrimitive category plain].
  destruct pt; cbn [isInteger32 isInteger64 isFloat32 isFloat64 category plain
                    PrimitiveType_size] in *;
    unfold negateAs_int32, negateAs_int64, negateAs_float, negateAs_double;
    try match goal with
        | |- context [PackedData.getAs ?n (PackedData.mk ?ty bytes)] =>
            destruct (getAs_sized n ty bytes Hlen) as [-> Hset]; rewrite Hset
        end;
    split;
    try (intros _; eexists; reflexivity);
    try (intros [out Hout]; discriminate Hout);
    try (intros [H | [H | [H | H]]]; discriminate H);
    intros _; auto.
Qed.

Lemma negateElements_succeeds (negateElement : list byte -> option (list byte))
      (elementSize : nat) :
  (forall run, List.length run = elementSize -> exists out, negateElement run = Some out) ->
  forall (n : nat) (rest : list byte),
    List.length rest = (n * elementSize)%nat ->
    exists out, negateElements negateElement elementSize n rest = Some out.
Proof.
  intros Helement. induction n as [| n IH]; intros rest Hlen; cbn [negateElements].
  - eexists; reflexivity.
  - cbn [Nat.mul] in Hlen.
    destruct (Helement (firstn elementSize rest)) as [e ->].
    { rewrite length_firstn, Hlen. apply Nat.min_l, Nat.le_add_r. }
    destruct (IH (skipn elementSize rest)) as [tail ->].
    { rewrite length_skipn, Hlen. now rewrite Nat.add_comm, Nat.add_sub. }
    eexists; reflexivity.
Qed.

Lemma negateLanes_succeeds (pt : PrimitiveType) (n : nat) (bytes : list byte) :
  pt = int32 \/ pt = int64 \/ pt = float32 \/ pt = float64 ->
  List.length bytes = (n * PrimitiveType_size pt)%nat ->
  exists out,
    negateElements (fun run => negatePrimitive (PackedData.mk (plain (primitive pt)) run))
                   (PrimitiveType_size pt) n bytes = Some out.
Proof.
  intros Hpt. apply negateElements_succeeds.
  intros run Hrun. now apply (negatePrimitive_succeeds pt run Hrun).
Qed.

Lemma negateElements_fails (negateElement : list byte -> option (list byte))
      (elementSize n : nat) (rest : list byte) :
  (forall run, negateElement run = None) ->
  negateElements negateElement elementSize (S n) rest = None.
Proof. intros Hnone. cbn [negateElements]. now rewrite Hnone. Qed.

Lemma negatePrimitive_fails (pt : PrimitiveType) (bytes : list byte) :
  pt = void_ \/ pt = bool_ ->
  negatePrimitive (PackedData.mk (plain (primitive pt)) bytes) = None.
Proof. intros [-> | ->]; reflexivity. Qed.

(** X28. For a value of a primitive type, or of a vector type with at least
    one lane, whose buffer has the size of its type, [canNegate] tells exactly
    whether [negated] gives a value: it does for the types [int32], [int64],
    [float32] and [float64] and for the vectors of these, and for no other
    primitive or vector. *)
Theorem canNegate_tells_whether_negated_succeeds (v : Value.t) :
  hasPackedSize v ->
  (exists pt, category (Value.type v) = primitive pt)
  \/ (exists pt n, category (Value.type v) = vector pt (S n)) ->
  (canNegate v = true <-> exists v', negated v = Some v').
Proof.
  destruct v as [[c isConst isReference] bytes].
  unfold hasPackedSize, canNegate, negated, negate, getPackedSizeInBytes,
    Value.getDataChecked, Value.isValid, Value.getData, SOUL_ASSERT,
    isFloatingPoint, isInteger, isFloat32, isFloat64, isInteger32, isInteger64,
    isValid, isVoid.
  cbn [Value.type Value.allocatedData category PackedData.type PackedData.data].
  intros Hsize [[pt ->] | (pt & n & ->)]; cbn [packedSize] in Hsize.
  - assert (Hnumeric := negatePrimitive_succeeds pt bytes Hsize).
    destruct pt;
      cbn [andb negb orb PackedData.type PackedData.data category negateCategory];
      try (split; [intros H; discriminate H | intros [v' H]; discriminate H]);
      (split; [intros _ | reflexivity]);
      (destruct (proj2 Hnumeric) as [out ->]; [auto | eexists; reflexivity]).
  - cbn [andb negb orb PackedData.type PackedData.data category negateCategory].
    destruct (negateElements
                (fun run => negatePrimitive (PackedData.mk (plain (primitive pt)) run))
                (PrimitiveType_size pt) (S n) bytes) as [out |] eqn:Hloop.
    + assert (Hpt : pt <> void_ /\ pt <> bool_).
      { split; intros ->;
          rewrite negateElements_fails in Hloop
            by (intros run; apply negatePrimitive_fails; auto); discriminate Hloop. }
      destruct Hpt as [Hvoid Hbool].
      destruct pt; cbn [andb negb orb]; try contradiction;
        (split; [intros _; eexists; reflexivity | reflexivity]).
    + assert (Hpt : pt = void_ \/ pt = bool_).
      { destruct pt; auto;
          match type of Hsize with
          | context [PrimitiveType_size ?p] =>
              destruct (negateLanes_succeeds p (S n) bytes) as [out Hout];
              [auto | exact Hsize | rewrite Hout in Hloop; discriminate Hloop]
          end. }
      destruct Hpt as [-> | ->]; cbn [andb negb orb];
        (split; [intros H; discriminate H | intros [v' H]; discriminate H]).
Qed.

Lemma canNegate_tells_whether_negated_succeeds_witness :
  hasPackedSize (Value.createFloat64 0)
  /\ canNegate (Value.createFloat64 0) = true
  /\ exists v', negated (Value.createFloat64 0) = Some v'.
Proof.
  assert (Hsize : hasPackedSize (Value.createFloat64 0)) by reflexivity.
  split; [exact Hsize |]. split; [reflexivity |].
  apply (proj1 (canNegate_tells_whether_negated_succeeds (Value.createFloat64 0) Hsize
                  (or_introl (ex_intro _ float64 eq_refl)))).
  reflexivity.
Defined.

End NegationProperties.

(* ================================================================== *)
(** ** Clearing a value *)

Section ClearedValues.
Import ValueMethods.

(** X29. [clear] makes a value the zero-initialised value of its type:
    on a valid value that is not void and whose buffer has the size of its
    type, it gives what [zeroInitialiser] gives for the type, a value that
    [isZero] holds of.  Clearing a value that is zero already changes
    nothing, so that to clear twice is to clear once; and the cleared value
    equals the value exactly when the value was zero. *)
Theorem clear_gives_the_zero_initialiser (v : Value.t) :
  isValid (Value.type v) && negb (isVoid (Value.type v)) = true ->
  hasPackedSize v ->
  clear v = Some (Value.ofType (Value.type v))
  /\ clear v = zeroInitialiser (Value.type v)
  /\ isZero (Value.ofType (Value.type v)) = Some true
  /\ clear (Value.ofType (Value.type v)) = Some (Value.ofType (Value.type v))
  /\ (isZero v = Some true <-> clear v = Some v)
  /\ (isZero v = Some true <-> Value.eqb (Value.ofType (Value.type v)) v = Some true).
Proof.
  intros Hvalid Hsize.
  assert (Hcleared : Value.ofType (Value.type v)
                     = Value.mk (Value.type v)
                                (repeat x00 (List.length (Value.allocatedData v)))).
  { unfold Value.ofType. now rewrite Hsize. }
  assert (Hdata : forall bytes,
             Value.getDataChecked (Value.mk (Value.type v) bytes)
             = Some (PackedData.mk (Value.type v) bytes)).
  { intros bytes. now rewrite getDataChecked_ok by exact Hvalid. }
  assert (Hv : v = Value.mk (Value.type v) (Value.allocatedData v)) by now destruct v.
  assert (Hnonvoid : isVoid (Value.type v) = false).
  { apply andb_true_iff in Hvalid. destruct Hvalid as [_ H].
    now apply negb_true_iff in H. }
  assert (Hisvalid : isValid (Value.type v) = true).
  { apply andb_true_iff in Hvalid. tauto. }
  assert (Hclear : clear v = Some (Value.ofType (Value.type v))).
  { unfold clear. rewrite Hv, Hdata. cbn [Value.type]. rewrite Hcleared.
    reflexivity. }
  assert (Hzero : forall bytes,
             isZero (Value.mk (Value.type v) bytes) = Some (allZero bytes)).
  { intros bytes. unfold isZero, Value.isValid. cbn [Value.type].
    rewrite Hisvalid, Hdata. unfold PackedData.isZero. cbn [PackedData.type PackedData.data].
    now rewrite Hnonvoid. }
  assert (Hzero_v : isZero v = Some true
                    <-> Value.allocatedData v
                        = repeat x00 (List.length (Value.allocatedData v))).
  { rewrite Hv at 1. rewrite Hzero, <- allZero_iff. split.
    - now intros [= H].
    - now intros ->. }
  assert (Hsame : Value.allocatedData v = repeat x00 (List.length (Value.allocatedData v))
                  <-> Value.ofType (Value.type v) = v).
  { rewrite Hcleared. split.
    - intros H. rewrite <- H. now destruct v.
    - intros H. apply (f_equal Value.allocatedData) in H.
      cbn [Value.allocatedData] in H. now symmetry. }
  repeat match goal with |- _ /\ _ => split end.
  - exact Hclear.
  - rewrite Hclear. unfold zeroInitialiser, SOUL_ASSERT. now rewrite Hvalid.
  - rewrite Hcleared, Hzero. now rewrite allZero_repeat.
  - unfold clear. rewrite Hcleared, Hdata. cbn [Value.type].
    unfold PackedData.clear, PackedData.size. cbn [PackedData.data].
    now rewrite repeat_length.
  - rewrite Hclear, Hzero_v, Hsame. split; [now intros -> | now intros [= H]].
  - rewrite Hzero_v, Hsame. symmetry. apply eqb_valid_iff.
    + exact Hisvalid.
    + exact Hnonvoid.
    + unfold hasPackedSize, Value.ofType. cbn [Value.allocatedData Value.type].
      apply repeat_length.
    + exact Hsize.
Qed.

Lemma clear_gives_the_zero_initialiser_witness :
  hasPackedSize (Value.createInt32 7)
  /\ clear (Value.createInt32 7) = Some (Value.createInt32 0).
Proof.
  assert (Hsize : hasPackedSize (Value.createInt32 7)) by reflexivity.
  split; [exact Hsize |].
  exact (proj1 (clear_gives_the_zero_initialiser (Value.createInt32 7) eq_refl Hsize)).
Defined.

End ClearedValues.
